(** * pbrt interpolation core: Catmull-Rom splines and Fourier sampling

    A shallow embedding of [src/core/interpolation.cpp] and of the interval
    search it relies on.

    Number models.  The code computes in floating point: [Float] is the
    C++ [float], IEEE binary32, and the Fourier routines keep their locals
    in [double].  The file embeds the routines twice.

    The module [Binary32] is the arithmetic of the code: every operation is
    the correctly rounded operation of [SpecFloat], in the order in which
    the C++ expression performs it, with the conversions between [float]
    and [double] written out, and with infinities and NaN.  The statements
    that hold of the code whatever the rounding does (which arrays are
    read, what is compared with what, which expression is stored where)
    are proved on it for every input, and it is run on concrete inputs.

    The embedding at the top level is the idealisation of the same
    formulas in exact arithmetic: [Float] is the type [Q] of the rationals,
    a literal denotes the binary32 number it is (so [1e-6f] is
    [8796093 * 2^-43], and [.5f] is [1/2]), every operation is the exact
    field operation (so the quotient [1.f / 3.f] is [1/3]), a conversion
    between [float] and [double] changes nothing, comparisons are the
    order of [Q], and results are compared with [==] ([Qeq]).  There is no
    rounding, no overflow, no infinity and no NaN in it.  A statement
    proved on it says what the formulas of the source compute in exact
    arithmetic, and is worded so; it says nothing on the rounded results of
    the code.  The places where a statement of the specification holds in
    exact arithmetic and fails with rounding are shown by running
    [Binary32].

    Division by zero.  In the code a quotient by zero is an infinity or a
    NaN, which fails every bracket test of the root-finding loops and is
    replaced by the midpoint of the bracket.  In the exact embedding the
    quotients of the loops (the Newton step and the initial guess [u / f0])
    are therefore partial ([quotient] gives [None]) and [fallback] bisects
    on [None].  The other quotients are written with the division of [Q],
    whose value for a zero divisor, [0], means nothing: the statements that
    depend on such a quotient assume its divisor different from zero.

    Indices.  The C++ [int] and [size_t] indices are modelled by [Z]; the
    index arithmetic of the code stays within the array sizes, so no
    wrap-around is written out, except for the loop bound of
    [IntegrateCatmullRom] on an empty array.

    Failure model.  An array access outside its bounds and a failed
    [CHECK_*] assertion are both modelled by [None] in the [option] monad;
    a loop that is still running when its fuel is spent also gives [None]
    in the exact embedding, and the separate outcome [Running] in
    [Binary32]. *)

From Stdlib Require Import ZArith QArith Qabs List Lia Lqa Bool Qfield.
From Stdlib Require Import SpecFloat.
Import ListNotations.

Open Scope Z_scope.
Open Scope Q_scope.

(** ** Basic types and the error monad *)

Definition Float : Type := Q.

Definition bind {A B : Type} (m : option A) (k : A -> option B) : option B :=
  match m with
  | Some a => k a
  | None => None
  end.

Notation "x <- m ;; k" := (bind m (fun x => k))
  (at level 61, m at next level, right associativity).

(** [a.size()] as an [int]. *)
Definition size (a : list Float) : Z := Z.of_nat (length a).

(** [a[i]]: [None] when [i] is outside [0 .. a.size()-1]. *)
Definition aref (a : list Float) (i : Z) : option Float :=
  if (i <? 0)%Z then None else nth_error a (Z.to_nat i).

(** [a.front()] and [a.back()]. *)
Definition front (a : list Float) : option Float := aref a 0.
Definition back (a : list Float) : option Float := aref a (size a - 1).

(** [a[i] = v] on a caller-provided buffer: [None] when out of bounds. *)
Fixpoint set_nth (a : list Float) (n : nat) (v : Float) : option (list Float) :=
  match a, n with
  | [], _ => None
  | _ :: tl, O => Some (v :: tl)
  | h :: tl, S n' => tl' <- set_nth tl n' v ;; Some (h :: tl')
  end.

Definition aset (a : list Float) (i : Z) (v : Float) : option (list Float) :=
  if (i <? 0)%Z then None else set_nth a (Z.to_nat i) v.

(** Strict comparison [a < b] as the code tests it. *)
Definition Qltb (a b : Q) : bool := negb (Qle_bool b a).

(** A node sequence is strictly increasing. *)
Definition increasing (a : list Float) : Prop :=
  forall i j u v, (0 <= i)%Z -> (i < j)%Z ->
    aref a i = Some u -> aref a j = Some v -> u < v.

(** Executable check of [increasing], used to discharge it on literals. *)
Fixpoint increasingb (a : list Float) : bool :=
  match a with
  | u :: tl =>
      match tl with
      | v :: _ => Qltb u v && increasingb tl
      | [] => true
      end
  | [] => true
  end.

(** ** Interval search *)

(** [Clamp(val, low, high)]. *)
Definition Clamp (val low high : Z) : Z :=
  if (val <? low)%Z then low
  else if (val >? high)%Z then high
  else val.

(** Modelled from the spec: the interval search [GetIntArrayerval] lives in
    [mathutil.h], which is not among the sources.  Section 4.1 describes it
    as a binary search over [0, n-1] that maintains the first candidate
    index, narrows via the midpoint and finally clamps the answer to
    [0, n-2].  [find_loop] is that search: [first] is the start of the range
    still to be searched and [len] its length; the loop
    [while (len > 0)] runs at most [size] times, which is the fuel given. *)
Fixpoint find_loop (fuel : nat) (pred : Z -> bool) (first len : Z) : Z :=
  match fuel with
  | O => first
  | S fuel' =>
      if (len >? 0)%Z then
        let half := Z.shiftr len 1 in
        let middle := (first + half)%Z in
        if pred middle
        then find_loop fuel' pred (middle + 1)%Z (len - (half + 1))%Z
        else find_loop fuel' pred first half
      else first
  end.

Definition GetIntArrayerval (size : Z) (pred : Z -> bool) : Z :=
  Clamp (find_loop (Z.to_nat size) pred 0 size - 1)%Z 0 (size - 2)%Z.

(** The predicate lambdas [[&](int i) { return a[i] <= v; }]. *)
Definition le_pred (a : list Float) (v : Float) (i : Z) : bool :=
  match aref a i with
  | Some ai => Qle_bool ai v
  | None => false
  end.

(** ** Spline interpolation *)

(** The finite-difference derivative estimates [d0], [d1] of segment [i],
    written out identically in every spline routine:
    [if (i > 0) d0 = width * (f1 - f[i-1]) / (x1 - x[i-1]); else d0 = f1 - f0;]
    [if (i + 2 < x.size()) d1 = width * (f[i+2] - f0) / (x[i+2] - x0);
     else d1 = f1 - f0;]. *)
Definition deriv0 (x f : list Float) (i : Z) (x0 x1 f0 f1 : Float)
  : option Float :=
  let width := x1 - x0 in
  if (i >? 0)%Z then
    fm <- aref f (i - 1) ;;
    xm <- aref x (i - 1) ;;
    Some (width * (f1 - fm) / (x1 - xm))
  else Some (f1 - f0).

Definition deriv1 (x f : list Float) (i : Z) (x0 x1 f0 f1 : Float)
  : option Float :=
  let width := x1 - x0 in
  if (i + 2 <? size x)%Z then
    fp <- aref f (i + 2) ;;
    xp <- aref x (i + 2) ;;
    Some (width * (fp - f0) / (xp - x0))
  else Some (f1 - f0).

(** [x >= nodes.front() && x <= nodes.back()]. *)
Definition in_domain (lo hi x : Float) : bool :=
  Qle_bool lo x && Qle_bool x hi.

Definition CatmullRom (nodes values : list Float) (x : Float) : option Float :=
  if negb (size nodes =? size values)%Z then None else
  lo <- front nodes ;;
  hi <- back nodes ;;
  if negb (in_domain lo hi x) then Some 0 else
  let idx := GetIntArrayerval (size nodes) (le_pred nodes x) in
  x0 <- aref nodes idx ;;
  x1 <- aref nodes (idx + 1) ;;
  f0 <- aref values idx ;;
  f1 <- aref values (idx + 1) ;;
  d0 <- deriv0 nodes values idx x0 x1 f0 f1 ;;
  d1 <- deriv1 nodes values idx x0 x1 f0 f1 ;;
  let t := (x - x0) / (x1 - x0) in
  let t2 := t * t in
  let t3 := t2 * t in
  Some ((2 * t3 - 3 * t2 + 1) * f0 + (-2 * t3 + 3 * t2) * f1 +
        (t3 - 2 * t2 + t) * d0 + (t3 - t2) * d1).

(** [weights[i] += d]. *)
Definition aadd (a : list Float) (i : Z) (d : Float) : option (list Float) :=
  v <- aref a i ;; aset a i (v + d).

(** [weights[i] -= d]. *)
Definition asub (a : list Float) (i : Z) (d : Float) : option (list Float) :=
  v <- aref a i ;; aset a i (v - d).

(** [CatmullRomWeights]: the result is the returned [bool] together with the
    final contents of [*offset] and of the [weights] buffer; [offset] and
    [weights] are their contents on entry. *)
Definition CatmullRomWeights (nodes : list Float) (x : Float)
    (offset : Z) (weights : list Float) : option (bool * Z * list Float) :=
  if (size weights <? 4)%Z then None else
  lo <- front nodes ;;
  hi <- back nodes ;;
  if negb (in_domain lo hi x) then Some (false, offset, weights) else
  let idx := GetIntArrayerval (size nodes) (le_pred nodes x) in
  let offset := (idx - 1)%Z in
  x0 <- aref nodes idx ;;
  x1 <- aref nodes (idx + 1) ;;
  let t := (x - x0) / (x1 - x0) in
  let t2 := t * t in
  let t3 := t2 * t in
  weights <- aset weights 1 (2 * t3 - 3 * t2 + 1) ;;
  weights <- aset weights 2 (-2 * t3 + 3 * t2) ;;
  weights <-
    (if (idx >? 0)%Z then
       xm <- aref nodes (idx - 1) ;;
       let w0 := (t3 - 2 * t2 + t) * (x1 - x0) / (x1 - xm) in
       weights <- aset weights 0 (- w0) ;;
       aadd weights 2 w0
     else
       let w0 := t3 - 2 * t2 + t in
       weights <- aset weights 0 0 ;;
       weights <- asub weights 1 w0 ;;
       aadd weights 2 w0) ;;
  weights <-
    (if (idx + 2 <? size nodes)%Z then
       xp <- aref nodes (idx + 2) ;;
       let w3 := (t3 - t2) * (x1 - x0) / (xp - x0) in
       weights <- asub weights 1 w3 ;;
       aset weights 3 w3
     else
       let w3 := t3 - t2 in
       weights <- asub weights 1 w3 ;;
       weights <- aadd weights 2 w3 ;;
       aset weights 3 0) ;;
  Some (true, offset, weights).

(** The [interpolate] lambda of [SampleCatmullRom2D]:
    [for (i = 0; i < 4; ++i) if (weights[i] != 0)
       value += array[(offset + i) * nodes2.size() + idx] * weights[i];]. *)
Fixpoint interpolate_from (weights : list Float) (offset n2 : Z)
    (array : list Float) (idx : Z) (js : list Z) (value : Float)
  : option Float :=
  match js with
  | [] => Some value
  | i :: js' =>
      w <- aref weights i ;;
      if negb (Qeq_bool w 0) then
        v <- aref array ((offset + i) * n2 + idx)%Z ;;
        interpolate_from weights offset n2 array idx js' (value + v * w)
      else interpolate_from weights offset n2 array idx js' value
  end.

Definition interpolate (weights : list Float) (offset n2 : Z)
    (array : list Float) (idx : Z) : option Float :=
  interpolate_from weights offset n2 array idx [0; 1; 2; 3]%Z 0.

(** The weighted evaluation the weights are meant for, in the words of the
    specification: the sum over [j] in [{0,1,2,3}] with [weights[j] != 0]
    of [weights[j] * values[offset + j]]. *)
Definition weighted_term (weights values : list Float) (offset j : Z)
  : option Float :=
  w <- aref weights j ;;
  if Qeq_bool w 0 then Some 0
  else v <- aref values (offset + j) ;; Some (w * v).

Definition weighted_sum (weights values : list Float) (offset : Z)
  : option Float :=
  s0 <- weighted_term weights values offset 0 ;;
  s1 <- weighted_term weights values offset 1 ;;
  s2 <- weighted_term weights values offset 2 ;;
  s3 <- weighted_term weights values offset 3 ;;
  Some (s0 + s1 + s2 + s3).

(** ** Newton-bisection root finding *)

(** The literal [1e-6f] of the convergence tests: the binary32 number
    nearest to [10^-6], which is [8796093 * 2^-43]. *)
Abbreviation tolerance := (8796093 # 8796093022208).

(** The bracket tests: [t > a && t < b] (1D sampler, inversion) and
    [t >= a && t <= b] (2D sampler). *)
Definition in_open (a b t : Float) : bool := Qltb a t && Qltb t b.
Definition in_closed (a b t : Float) : bool := Qle_bool a t && Qle_bool t b.

(** The integral of the Hermite cubic and the cubic itself, in Horner form
    as [SampleCatmullRom] evaluates them. *)
Definition Fhat_horner (f0 f1 d0 d1 t : Float) : Float :=
  t * (f0 +
       t * (0.5 * d0 +
            t * ((1 / 3) * (-2 * d0 - d1) + f1 - f0 +
                 t * (0.25 * (d0 + d1) + 0.5 * (f0 - f1))))).

Definition fhat_horner (f0 f1 d0 d1 t : Float) : Float :=
  f0 +
  t * (d0 +
       t * (-2 * d0 - d1 + 3 * (f1 - f0) +
            t * (d0 + d1 + 2 * (f0 - f1)))).

(** The Hermite cubic and its derivative as [InvertCatmullRom] evaluates
    them. *)
Definition Fhat_hermite (f0 f1 d0 d1 t : Float) : Float :=
  let t2 := t * t in
  let t3 := t2 * t in
  (2 * t3 - 3 * t2 + 1) * f0 + (-2 * t3 + 3 * t2) * f1 +
  (t3 - 2 * t2 + t) * d0 + (t3 - t2) * d1.

Definition fhat_hermite (f0 f1 d0 d1 t : Float) : Float :=
  let t2 := t * t in
  (6 * t2 - 6 * t) * f0 + (-6 * t2 + 6 * t) * f1 +
  (3 * t2 - 4 * t + 1) * d0 + (3 * t2 - 2 * t) * d1.

(** The quotient [x / y] as a number.  A division by zero gives an infinity
    or a NaN in the code; it is [None] here. *)
Definition quotient (x y : Float) : option Float :=
  if Qeq_bool y 0 then None else Some (x / y).

(** [if (!(inside)) t = 0.5f * (a + b);] on an iterate that is a number, or
    the result of a division by zero: an infinity or a NaN fails either
    bracket test. *)
Definition fallback (inside : Float -> Float -> Float -> bool) (a b : Float)
    (t : option Float) : Float :=
  match t with
  | Some t' => if negb (inside a b t') then 0.5 * (a + b) else t'
  | None => 0.5 * (a + b)
  end.

(** The Newton step [t -= (Fhat - u) / fhat]. *)
Definition newton_step (t residual fhat : Float) : option Float :=
  q <- quotient residual fhat ;; Some (t - q).

(** The loop [while (true) { ... }] shared by [SampleCatmullRom],
    [SampleCatmullRom2D] and [InvertCatmullRom].  [inside] is the bracket
    test of the routine, [Fh] and [fh] evaluate the target function and its
    derivative.  Each unit of [fuel] pays for one iteration; the result is
    the triple [(t, Fhat, fhat)] at the [break], or [None] when the loop is
    still running after [fuel] iterations. *)
Fixpoint newton_bisection (inside : Float -> Float -> Float -> bool)
    (Fh fh : Float -> Float) (u : Float) (fuel : nat) (t : option Float)
    (a b : Float) : option (Float * Float * Float) :=
  match fuel with
  | O => None
  | S fuel' =>
      let t := fallback inside a b t in
      let Fhat := Fh t in
      let fhat := fh t in
      if Qltb (Qabs (Fhat - u)) tolerance || Qltb (b - a) tolerance
      then Some (t, Fhat, fhat)
      else
        let a' := if Qltb (Fhat - u) 0 then t else a in
        let b' := if Qltb (Fhat - u) 0 then b else t in
        newton_bisection inside Fh fh u fuel' (newton_step t (Fhat - u) fhat)
          a' b'
  end.

(** What a sampling routine hands back: the returned position and the
    values stored through the optional output pointers ([None] for a null
    pointer, which is left unwritten). *)
Record sample : Type := mkSample {
  s_pos : Float;
  s_fval : option Float;
  s_pdf : option Float
}.

(** [if (p) *p = v]. *)
Definition store (requested : bool) (v : Float) : option Float :=
  if requested then Some v else None.

(** ** Sampling, integration and inversion of splines; Fourier series *)

Section Routines.

(** [SafeSqrt], [std::cos] and the constants [Pi] and [Inv2Pi] come from
    headers that are not among the sources, and have no exact rational
    counterpart: the routines take them as parameters. *)
Variable SafeSqrt : Float -> Float.
Variable cos : Float -> Float.
Variable Pi : Float.
Variable Inv2Pi : Float.

(** The initial guess of the samplers, by importance sampling a linear
    interpolant. *)
Definition initial_guess (f0 f1 u : Float) : option Float :=
  if negb (Qeq_bool f0 f1)
  then Some ((f0 - SafeSqrt (f0 * f0 + 2 * u * (f1 - f0))) / (f0 - f1))
  else quotient u f0.

Definition SampleCatmullRom (fuel : nat) (x f F : list Float) (u : Float)
    (fval pdf : bool) : option sample :=
  if negb (size x =? size f)%Z then None else
  if negb (size f =? size F)%Z then None else
  Fback <- back F ;;
  let u := u * Fback in
  let i := GetIntArrayerval (size F) (le_pred F u) in
  x0 <- aref x i ;;
  x1 <- aref x (i + 1) ;;
  f0 <- aref f i ;;
  f1 <- aref f (i + 1) ;;
  let width := x1 - x0 in
  d0 <- deriv0 x f i x0 x1 f0 f1 ;;
  d1 <- deriv1 x f i x0 x1 f0 f1 ;;
  Fi <- aref F i ;;
  let u := (u - Fi) / width in
  let t := initial_guess f0 f1 u in
  r <- newton_bisection in_open (Fhat_horner f0 f1 d0 d1)
         (fhat_horner f0 f1 d0 d1) u fuel t 0 1 ;;
  let '(t, _, fhat) := r in
  Some (mkSample (x0 + width * t) (store fval fhat)
          (store pdf (fhat / Fback))).

(** The interpolated cdf predicate
    [[&](int i) { return interpolate(cdf, i) <= u; }]. *)
Definition interp_le_pred (weights : list Float) (offset n2 : Z)
    (cdf : list Float) (u : Float) (i : Z) : bool :=
  match interpolate weights offset n2 cdf i with
  | Some c => Qle_bool c u
  | None => false
  end.

(** The locals [int offset; Float weights[4];] are uninitialised in the
    source; [CatmullRomWeights] overwrites all of them before any is read,
    so the model starts them at zero.  The early [return 0] writes neither
    output. *)
Definition SampleCatmullRom2D (fuel : nat) (nodes1 nodes2 values cdf : list Float)
    (alpha u : Float) (fval pdf : bool) : option sample :=
  r <- CatmullRomWeights nodes1 alpha 0 [0; 0; 0; 0] ;;
  let '(ok, offset, weights) := r in
  if negb ok then Some (mkSample 0 None None) else
  let n2 := size nodes2 in
  let interp := interpolate weights offset n2 in
  maximum <- interp cdf (n2 - 1)%Z ;;
  let u := u * maximum in
  let idx := GetIntArrayerval n2 (interp_le_pred weights offset n2 cdf u) in
  f0 <- interp values idx ;;
  f1 <- interp values (idx + 1)%Z ;;
  x0 <- aref nodes2 idx ;;
  x1 <- aref nodes2 (idx + 1) ;;
  let width := x1 - x0 in
  ci <- interp cdf idx ;;
  let u := (u - ci) / width in
  d0 <- (if (idx >? 0)%Z then
           fm <- interp values (idx - 1)%Z ;;
           xm <- aref nodes2 (idx - 1) ;;
           Some (width * (f1 - fm) / (x1 - xm))
         else Some (f1 - f0)) ;;
  d1 <- (if (idx + 2 <? n2)%Z then
           fp <- interp values (idx + 2)%Z ;;
           xp <- aref nodes2 (idx + 2) ;;
           Some (width * (fp - f0) / (xp - x0))
         else Some (f1 - f0)) ;;
  let t := initial_guess f0 f1 u in
  r <- newton_bisection in_closed (Fhat_horner f0 f1 d0 d1)
         (fhat_horner f0 f1 d0 d1) u fuel t 0 1 ;;
  let '(t, _, fhat) := r in
  Some (mkSample (x0 + width * t) (store fval fhat)
          (store pdf (fhat / maximum))).

(** The body of [for (int i = 0; i < x.size() - 1; ++i)], run [n] more
    times from index [i]. *)
Fixpoint integrate_loop (n : nat) (x values : list Float) (i : Z)
    (sum : Float) (cdf : list Float) : option (Float * list Float) :=
  match n with
  | O => Some (sum, cdf)
  | S n' =>
      x0 <- aref x i ;;
      x1 <- aref x (i + 1) ;;
      f0 <- aref values i ;;
      f1 <- aref values (i + 1) ;;
      let width := x1 - x0 in
      d0 <- deriv0 x values i x0 x1 f0 f1 ;;
      d1 <- deriv1 x values i x0 x1 f0 f1 ;;
      let sum := sum + ((d0 - d1) * (1 / 12) + (f0 + f1) * 0.5) * width in
      cdf <- aset cdf (i + 1) sum ;;
      integrate_loop n' x values (i + 1)%Z sum cdf
  end.

(** [IntegrateCatmullRom] returns the total and the final contents of the
    caller's [cdf] buffer.  The loop bound [x.size() - 1] is computed in
    [size_t]: for an empty [x] it wraps around and the first iteration
    reads [x[0]] out of bounds. *)
Definition IntegrateCatmullRom (x values cdf : list Float)
  : option (Float * list Float) :=
  if negb (size x =? size values)%Z then None else
  cdf <- aset cdf 0 0 ;;
  if (size x =? 0)%Z then None else
  integrate_loop (Z.to_nat (size x - 1)) x values 0 0 cdf.

Definition InvertCatmullRom (fuel : nat) (x values : list Float) (u : Float)
  : option Float :=
  vfront <- front values ;;
  if negb (Qltb vfront u) then front x else
  vback <- back values ;;
  if negb (Qltb u vback) then back x else
  let i := GetIntArrayerval (size values) (le_pred values u) in
  x0 <- aref x i ;;
  x1 <- aref x (i + 1) ;;
  f0 <- aref values i ;;
  f1 <- aref values (i + 1) ;;
  let width := x1 - x0 in
  d0 <- deriv0 x values i x0 x1 f0 f1 ;;
  d1 <- deriv1 x values i x0 x1 f0 f1 ;;
  r <- newton_bisection in_open (Fhat_hermite f0 f1 d0 d1)
         (fhat_hermite f0 f1 d0 d1) u fuel (Some 0.5) 0 1 ;;
  let '(t, _, _) := r in
  Some (x0 + t * width).

(** [Fourier]: the loop over [k] walks the coefficient array once. *)
Fixpoint Fourier_loop (a : list Float) (cosPhi value cosKMinusOnePhi cosKPhi : Float)
  : Float :=
  match a with
  | [] => value
  | ak :: tl =>
      let value := value + ak * cosKPhi in
      let cosKPlusOnePhi := 2 * cosPhi * cosKPhi - cosKMinusOnePhi in
      Fourier_loop tl cosPhi value cosKPhi cosKPlusOnePhi
  end.

Definition Fourier (a : list Float) (cosPhi : Float) : Float :=
  Fourier_loop a cosPhi 0 cosPhi 1.

(** The inner loop [for (int k = 1; k < ak.size(); ++k)] of
    [SampleFourier], run [n] more times from index [k]. *)
Fixpoint fourier_terms (n : nat) (ak recip : list Float) (k : Z)
    (cosPhi sinPhiPrev sinPhiCur cosPhiPrev cosPhiCur F f : Float)
  : option (Float * Float) :=
  match n with
  | O => Some (F, f)
  | S n' =>
      let sinPhiNext := 2 * cosPhi * sinPhiCur - sinPhiPrev in
      let cosPhiNext := 2 * cosPhi * cosPhiCur - cosPhiPrev in
      akk <- aref ak k ;;
      rk <- aref recip k ;;
      fourier_terms n' ak recip (k + 1)%Z cosPhi sinPhiCur sinPhiNext
        cosPhiCur cosPhiNext (F + akk * rk * sinPhiNext)
        (f + akk * cosPhiNext)
  end.

(** The outer loop of [SampleFourier]; the result is [(phi, f)] at the
    [break]. *)
Fixpoint fourier_newton (fuel : nat) (ak recip : list Float)
    (u phi a b : Float) : option (Float * Float) :=
  match fuel with
  | O => None
  | S fuel' =>
      let cosPhi := cos phi in
      let sinPhi := SafeSqrt (1 - cosPhi * cosPhi) in
      ak0 <- aref ak 0 ;;
      r <- fourier_terms (Z.to_nat (size ak - 1)) ak recip 1 cosPhi
             (- sinPhi) 0 cosPhi 1 (ak0 * phi) ak0 ;;
      let '(F, f) := r in
      let F := F - u * ak0 * Pi in
      let b := if Qltb 0 F then phi else b in
      let a := if Qltb 0 F then a else phi in
      if Qltb (Qabs F) tolerance || Qltb (b - a) tolerance then Some (phi, f)
      else
        let phi := fallback in_open a b (newton_step phi F f) in
        fourier_newton fuel' ak recip u phi a b
  end.

(** What [SampleFourier] hands back: the returned series value and the
    values stored through [pdf] and [phiPtr]. *)
Record fourier_sample : Type := mkFourierSample {
  fs_f : Float;
  fs_pdf : Float;
  fs_phi : Float
}.

Definition SampleFourier (fuel : nat) (ak recip : list Float) (u : Float)
  : option fourier_sample :=
  let flip := Qle_bool 0.5 u in
  let u := if flip then 1 - 2 * (u - 0.5) else u * 2 in
  r <- fourier_newton fuel ak recip u (0.5 * Pi) 0 Pi ;;
  let '(phi, f) := r in
  let phi := if flip then 2 * Pi - phi else phi in
  ak0 <- aref ak 0 ;;
  Some (mkFourierSample f (Inv2Pi * f / ak0) phi).

End Routines.

(** ** The routines in IEEE binary32 arithmetic

    The embedding of the routines with [Float] read as the C++ [float] it
    is by default: every operation is the correctly rounded binary32
    operation of [SpecFloat] (precision 24, maximal exponent 128),
    evaluated in the order the C++ expression gives, without contraction
    into fused operations and without excess precision; comparisons are the
    IEEE ones, so that a NaN fails every test.  The [double] locals of the
    Fourier routines are binary64 numbers (precision 53, maximal exponent
    1024), and the conversions between the two formats are written out. *)

Module Binary32.

Definition prec : Z := 24.
Definition emax : Z := 128.

Definition float32 : Type := spec_float.

(** The integer [z] as a [float]. *)
Definition of_Z (z : Z) : float32 := binary_normalize prec emax z 0 false.

Definition fadd : float32 -> float32 -> float32 := SFadd prec emax.
Definition fsub : float32 -> float32 -> float32 := SFsub prec emax.
Definition fmul : float32 -> float32 -> float32 := SFmul prec emax.
Definition fdiv : float32 -> float32 -> float32 := SFdiv prec emax.
Definition fsqrt : float32 -> float32 := SFsqrt prec emax.
Definition fabs : float32 -> float32 := SFabs.
Definition fopp : float32 -> float32 := SFopp.
Definition flt : float32 -> float32 -> bool := SFltb.
Definition fle : float32 -> float32 -> bool := SFleb.
Definition feq : float32 -> float32 -> bool := SFeqb.

Declare Scope f32_scope.
Delimit Scope f32_scope with f32.
Bind Scope f32_scope with float32.
Infix "+" := fadd : f32_scope.
Infix "-" := fsub : f32_scope.
Infix "*" := fmul : f32_scope.
Infix "/" := fdiv : f32_scope.
Notation "- x" := (fopp x) : f32_scope.

(** The literals of the source: the integers [0], [1], [2], [3], [4], [6],
    [-2], [-6] converted to [float], and [.5f], [.25f], [1e-6f]; a decimal
    literal is the binary32 number nearest to it, which the correctly
    rounded quotient of two exactly representable integers gives. *)
Definition f0_ : float32 := of_Z 0.
Definition f1_ : float32 := of_Z 1.
Definition f2_ : float32 := of_Z 2.
Definition f3_ : float32 := of_Z 3.
Definition f4_ : float32 := of_Z 4.
Definition f6_ : float32 := of_Z 6.
Definition fm2_ : float32 := of_Z (-2).
Definition fm6_ : float32 := of_Z (-6).
Definition half : float32 := (of_Z 1 / of_Z 2)%f32.
Definition quarter : float32 := (of_Z 1 / of_Z 4)%f32.
Definition tolerance : float32 := (of_Z 1 / of_Z 1000000)%f32.

(** The number a [float] stands for; [None] for an infinity or a NaN. *)
Definition to_Q (x : float32) : option Q :=
  match x with
  | S754_zero _ => Some 0
  | S754_finite s m e => Some (inject_Z (cond_Zopp s (Zpos m)) * 2 ^ e)
  | _ => None
  end.

(** Modelled from the spec: [SafeSqrt] is in [mathutil.h], absent from the
    sources; the specification says it guards the square root against a
    negative argument: the root of [max(0, x)]. *)
Definition SafeSqrt (x : float32) : float32 :=
  if flt x f0_ then fsqrt f0_ else fsqrt x.

(** How a call ends: with a value, with undefined behaviour or an abort (an
    access out of bounds, a failed [CHECK]), or not within the iterations
    paid for. *)
Inductive outcome (A : Type) : Type :=
| Returned (a : A)
| Fault
| Running.
Arguments Returned {A} a.
Arguments Fault {A}.
Arguments Running {A}.

Definition obind {A B : Type} (m : outcome A) (k : A -> outcome B) : outcome B :=
  match m with
  | Returned a => k a
  | Fault => Fault
  | Running => Running
  end.

Notation "x <~ m ;; k" := (obind m (fun x => k))
  (at level 61, m at next level, right associativity).

Definition size32 (a : list float32) : Z := Z.of_nat (length a).

(** [a[i]]. *)
Definition at32 (a : list float32) (i : Z) : outcome float32 :=
  if (i <? 0)%Z then Fault
  else match nth_error a (Z.to_nat i) with
       | Some v => Returned v
       | None => Fault
       end.

(** [a[i] = v] on a caller-provided buffer. *)
Fixpoint set32 (a : list float32) (n : nat) (v : float32)
  : outcome (list float32) :=
  match a, n with
  | [], _ => Fault
  | _ :: tl, O => Returned (v :: tl)
  | h :: tl, S n' => tl' <~ set32 tl n' v ;; Returned (h :: tl')
  end.

Definition aset32 (a : list float32) (i : Z) (v : float32)
  : outcome (list float32) :=
  if (i <? 0)%Z then Fault else set32 a (Z.to_nat i) v.

(** [a[i] += d] and [a[i] -= d]. *)
Definition aadd32 (a : list float32) (i : Z) (d : float32)
  : outcome (list float32) :=
  v <~ at32 a i ;; aset32 a i (v + d)%f32.

Definition asub32 (a : list float32) (i : Z) (d : float32)
  : outcome (list float32) :=
  v <~ at32 a i ;; aset32 a i (v - d)%f32.

(** [[&](int i) { return a[i] <= v; }]. *)
Definition le_pred32 (a : list float32) (v : float32) (i : Z) : bool :=
  match at32 a i with
  | Returned ai => fle ai v
  | _ => false
  end.

(** The derivative estimates [d0] and [d1] of segment [i]. *)
Definition deriv0 (x f : list float32) (i : Z) (x0 x1 f0 f1 : float32)
  : outcome float32 :=
  let width := (x1 - x0)%f32 in
  if (i >? 0)%Z then
    fm <~ at32 f (i - 1) ;;
    xm <~ at32 x (i - 1) ;;
    Returned (width * (f1 - fm) / (x1 - xm))%f32
  else Returned (f1 - f0)%f32.

Definition deriv1 (x f : list float32) (i : Z) (x0 x1 f0 f1 : float32)
  : outcome float32 :=
  let width := (x1 - x0)%f32 in
  if (i + 2 <? size32 x)%Z then
    fp <~ at32 f (i + 2) ;;
    xp <~ at32 x (i + 2) ;;
    Returned (width * (fp - f0) / (xp - x0))%f32
  else Returned (f1 - f0)%f32.

(** The Hermite cubic and its derivative, as [CatmullRom] and
    [InvertCatmullRom] evaluate them. *)
Definition Fhat_hermite (f0 f1 d0 d1 t : float32) : float32 :=
  let t2 := (t * t)%f32 in
  let t3 := (t2 * t)%f32 in
  ((f2_ * t3 - f3_ * t2 + f1_) * f0 + (fm2_ * t3 + f3_ * t2) * f1 +
   (t3 - f2_ * t2 + t) * d0 + (t3 - t2) * d1)%f32.

Definition fhat_hermite (f0 f1 d0 d1 t : float32) : float32 :=
  let t2 := (t * t)%f32 in
  ((f6_ * t2 - f6_ * t) * f0 + (fm6_ * t2 + f6_ * t) * f1 +
   (f3_ * t2 - f4_ * t + f1_) * d0 + (f3_ * t2 - f2_ * t) * d1)%f32.

Definition CatmullRom (nodes values : list float32) (x : float32)
  : outcome float32 :=
  if negb (size32 nodes =? size32 values)%Z then Fault else
  lo <~ at32 nodes 0 ;;
  hi <~ at32 nodes (size32 nodes - 1) ;;
  if negb (fle lo x && fle x hi) then Returned f0_ else
  let idx := GetIntArrayerval (size32 nodes) (le_pred32 nodes x) in
  x0 <~ at32 nodes idx ;;
  x1 <~ at32 nodes (idx + 1) ;;
  f0 <~ at32 values idx ;;
  f1 <~ at32 values (idx + 1) ;;
  d0 <~ deriv0 nodes values idx x0 x1 f0 f1 ;;
  d1 <~ deriv1 nodes values idx x0 x1 f0 f1 ;;
  let t := ((x - x0) / (x1 - x0))%f32 in
  Returned (Fhat_hermite f0 f1 d0 d1 t).

(** [CatmullRomWeights]: the returned [bool] with the final contents of
    [*offset] and of the [weights] buffer. *)
Definition CatmullRomWeights (nodes : list float32) (x : float32)
    (offset : Z) (weights : list float32)
  : outcome (bool * Z * list float32) :=
  if (size32 weights <? 4)%Z then Fault else
  lo <~ at32 nodes 0 ;;
  hi <~ at32 nodes (size32 nodes - 1) ;;
  if negb (fle lo x && fle x hi) then Returned (false, offset, weights) else
  let idx := GetIntArrayerval (size32 nodes) (le_pred32 nodes x) in
  let offset := (idx - 1)%Z in
  x0 <~ at32 nodes idx ;;
  x1 <~ at32 nodes (idx + 1) ;;
  let t := ((x - x0) / (x1 - x0))%f32 in
  let t2 := (t * t)%f32 in
  let t3 := (t2 * t)%f32 in
  weights <~ aset32 weights 1 (f2_ * t3 - f3_ * t2 + f1_)%f32 ;;
  weights <~ aset32 weights 2 (fm2_ * t3 + f3_ * t2)%f32 ;;
  weights <~
    (if (idx >? 0)%Z then
       xm <~ at32 nodes (idx - 1) ;;
       let w0 := ((t3 - f2_ * t2 + t) * (x1 - x0) / (x1 - xm))%f32 in
       weights <~ aset32 weights 0 (- w0)%f32 ;;
       aadd32 weights 2 w0
     else
       let w0 := (t3 - f2_ * t2 + t)%f32 in
       weights <~ aset32 weights 0 f0_ ;;
       weights <~ asub32 weights 1 w0 ;;
       aadd32 weights 2 w0) ;;
  weights <~
    (if (idx + 2 <? size32 nodes)%Z then
       xp <~ at32 nodes (idx + 2) ;;
       let w3 := ((t3 - t2) * (x1 - x0) / (xp - x0))%f32 in
       weights <~ asub32 weights 1 w3 ;;
       aset32 weights 3 w3
     else
       let w3 := (t3 - t2)%f32 in
       weights <~ asub32 weights 1 w3 ;;
       weights <~ aadd32 weights 2 w3 ;;
       aset32 weights 3 f0_) ;;
  Returned (true, offset, weights).

(** The weighted evaluation in the words of the specification, accumulated
    from [j = 0] to [j = 3]. *)
Definition weighted_term (weights values : list float32) (offset j : Z)
  : outcome float32 :=
  w <~ at32 weights j ;;
  if feq w f0_ then Returned f0_
  else v <~ at32 values (offset + j) ;; Returned (w * v)%f32.

Definition weighted_sum (weights values : list float32) (offset : Z)
  : outcome float32 :=
  s0 <~ weighted_term weights values offset 0 ;;
  s1 <~ weighted_term weights values offset 1 ;;
  s2 <~ weighted_term weights values offset 2 ;;
  s3 <~ weighted_term weights values offset 3 ;;
  Returned (s0 + s1 + s2 + s3)%f32.

(** The [interpolate] lambda. *)
Fixpoint interpolate_from (weights : list float32) (offset n2 : Z)
    (array : list float32) (idx : Z) (js : list Z) (value : float32)
  : outcome float32 :=
  match js with
  | [] => Returned value
  | i :: js' =>
      w <~ at32 weights i ;;
      if negb (feq w f0_) then
        v <~ at32 array ((offset + i) * n2 + idx)%Z ;;
        interpolate_from weights offset n2 array idx js' (value + v * w)%f32
      else interpolate_from weights offset n2 array idx js' value
  end.

Definition interpolate (weights : list float32) (offset n2 : Z)
    (array : list float32) (idx : Z) : outcome float32 :=
  interpolate_from weights offset n2 array idx [0; 1; 2; 3]%Z f0_.

Definition interp_le_pred (weights : list float32) (offset n2 : Z)
    (cdf : list float32) (u : float32) (i : Z) : bool :=
  match interpolate weights offset n2 cdf i with
  | Returned c => fle c u
  | _ => false
  end.

Definition Fhat_horner (f0 f1 d0 d1 t : float32) : float32 :=
  (t * (f0 +
        t * (half * d0 +
             t * ((f1_ / f3_) * (fm2_ * d0 - d1) + f1 - f0 +
                  t * (quarter * (d0 + d1) + half * (f0 - f1))))))%f32.

Definition fhat_horner (f0 f1 d0 d1 t : float32) : float32 :=
  (f0 +
   t * (d0 +
        t * (fm2_ * d0 - d1 + f3_ * (f1 - f0) +
             t * (d0 + d1 + f2_ * (f0 - f1)))))%f32.

Definition initial_guess (f0 f1 u : float32) : float32 :=
  if negb (feq f0 f1)
  then ((f0 - SafeSqrt (f0 * f0 + f2_ * u * (f1 - f0))) / (f0 - f1))%f32
  else (u / f0)%f32.

(** The state of a root-finding loop at the top of an iteration. *)
Record bracket : Type := mkBracket {
  br_t : float32; br_a : float32; br_b : float32
}.

(** One iteration of the loop body: either the [break], with [(t, fhat)],
    or the state for the next iteration.  [closed] selects the bracket test
    [t >= a && t <= b] of the 2D sampler, otherwise the test
    [t > a && t < b] of the 1D sampler and of the inversion is used; [Fh]
    and [fh] evaluate the target function and its derivative. *)
Definition iteration (closed : bool) (Fh fh : float32 -> float32)
    (u : float32) (s : bracket) : (float32 * float32) + bracket :=
  let a := br_a s in
  let b := br_b s in
  let inside :=
    if closed then fle a (br_t s) && fle (br_t s) b
    else flt a (br_t s) && flt (br_t s) b in
  let t := if negb inside then (half * (a + b))%f32 else br_t s in
  let Fhat := Fh t in
  let fhat := fh t in
  if flt (fabs (Fhat - u)%f32) tolerance || flt (b - a)%f32 tolerance
  then inl (t, fhat)
  else
    let a' := if flt (Fhat - u)%f32 f0_ then t else a in
    let b' := if flt (Fhat - u)%f32 f0_ then b else t in
    inr (mkBracket (t - (Fhat - u) / fhat)%f32 a' b').

Fixpoint newton_bisection (closed : bool) (Fh fh : float32 -> float32)
    (u : float32) (fuel : nat) (s : bracket) : outcome (float32 * float32) :=
  match fuel with
  | O => Running
  | S fuel' =>
      match iteration closed Fh fh u s with
      | inl r => Returned r
      | inr s' => newton_bisection closed Fh fh u fuel' s'
      end
  end.

(** What the loop of a sampler is entered with: the segment data, the
    rescaled [u], the normalisation and the initial guess. *)
Record entry : Type := mkEntry {
  en_x0 : float32; en_width : float32;
  en_f0 : float32; en_f1 : float32;
  en_d0 : float32; en_d1 : float32;
  en_u : float32; en_norm : float32
}.

(** The loop of the two samplers and their final stores: the returned
    position with the values stored through [fval] and [pdf]. *)
Definition sample_from (closed : bool) (fuel : nat) (e : entry)
  : outcome (float32 * option (float32 * float32)) :=
  let t := initial_guess (en_f0 e) (en_f1 e) (en_u e) in
  r <~ newton_bisection closed
         (Fhat_horner (en_f0 e) (en_f1 e) (en_d0 e) (en_d1 e))
         (fhat_horner (en_f0 e) (en_f1 e) (en_d0 e) (en_d1 e))
         (en_u e) fuel (mkBracket t f0_ f1_) ;;
  let '(t, fhat) := r in
  Returned ((en_x0 e + en_width e * t)%f32,
            Some (fhat, (fhat / en_norm e)%f32)).

(** [SampleCatmullRom2D] up to the loop; [None] is the early [return 0].
    The locals [int offset; Float weights[4];] are uninitialised in the
    source and overwritten by [CatmullRomWeights] before any is read. *)
Definition SampleCatmullRom2D_entry (nodes1 nodes2 values cdf : list float32)
    (alpha u : float32) : outcome (option entry) :=
  r <~ CatmullRomWeights nodes1 alpha 0 [f0_; f0_; f0_; f0_] ;;
  let '(ok, offset, weights) := r in
  if negb ok then Returned None else
  let n2 := size32 nodes2 in
  let interp := interpolate weights offset n2 in
  maximum <~ interp cdf (n2 - 1)%Z ;;
  let u := (u * maximum)%f32 in
  let idx := GetIntArrayerval n2 (interp_le_pred weights offset n2 cdf u) in
  f0 <~ interp values idx ;;
  f1 <~ interp values (idx + 1)%Z ;;
  x0 <~ at32 nodes2 idx ;;
  x1 <~ at32 nodes2 (idx + 1) ;;
  let width := (x1 - x0)%f32 in
  ci <~ interp cdf idx ;;
  let u := ((u - ci) / width)%f32 in
  d0 <~ (if (idx >? 0)%Z then
           fm <~ interp values (idx - 1)%Z ;;
           xm <~ at32 nodes2 (idx - 1) ;;
           Returned (width * (f1 - fm) / (x1 - xm))%f32
         else Returned (f1 - f0)%f32) ;;
  d1 <~ (if (idx + 2 <? n2)%Z then
           fp <~ interp values (idx + 2)%Z ;;
           xp <~ at32 nodes2 (idx + 2) ;;
           Returned (width * (fp - f0) / (xp - x0))%f32
         else Returned (f1 - f0)%f32) ;;
  Returned (Some (mkEntry x0 width f0 f1 d0 d1 u maximum)).

Definition SampleCatmullRom2D (fuel : nat) (nodes1 nodes2 values cdf : list float32)
    (alpha u : float32) : outcome (float32 * option (float32 * float32)) :=
  e <~ SampleCatmullRom2D_entry nodes1 nodes2 values cdf alpha u ;;
  match e with
  | None => Returned (f0_, None)
  | Some e => sample_from true fuel e
  end.

(** [SampleCatmullRom] up to the loop. *)
Definition SampleCatmullRom_entry (x f F : list float32) (u : float32)
  : outcome entry :=
  if negb (size32 x =? size32 f)%Z then Fault else
  if negb (size32 f =? size32 F)%Z then Fault else
  Fback <~ at32 F (size32 F - 1) ;;
  let u := (u * Fback)%f32 in
  let i := GetIntArrayerval (size32 F) (le_pred32 F u) in
  x0 <~ at32 x i ;;
  x1 <~ at32 x (i + 1) ;;
  f0 <~ at32 f i ;;
  f1 <~ at32 f (i + 1) ;;
  let width := (x1 - x0)%f32 in
  d0 <~ deriv0 x f i x0 x1 f0 f1 ;;
  d1 <~ deriv1 x f i x0 x1 f0 f1 ;;
  Fi <~ at32 F i ;;
  let u := ((u - Fi) / width)%f32 in
  Returned (mkEntry x0 width f0 f1 d0 d1 u Fback).

Definition SampleCatmullRom (fuel : nat) (x f F : list float32) (u : float32)
  : outcome (float32 * option (float32 * float32)) :=
  e <~ SampleCatmullRom_entry x f F u ;;
  sample_from false fuel e.

(** The body of the loop of [IntegrateCatmullRom], run [n] more times from
    index [i]; the buffer [cdf] is written at [i + 1]. *)
Fixpoint integrate_loop (n : nat) (x values : list float32) (i : Z)
    (sum : float32) (cdf : list float32) : outcome (float32 * list float32) :=
  match n with
  | O => Returned (sum, cdf)
  | S n' =>
      x0 <~ at32 x i ;;
      x1 <~ at32 x (i + 1) ;;
      f0 <~ at32 values i ;;
      f1 <~ at32 values (i + 1) ;;
      let width := (x1 - x0)%f32 in
      d0 <~ deriv0 x values i x0 x1 f0 f1 ;;
      d1 <~ deriv1 x values i x0 x1 f0 f1 ;;
      let sum :=
        (sum + ((d0 - d1) * (f1_ / of_Z 12) + (f0 + f1) * half) * width)%f32 in
      cdf <~ aset32 cdf (i + 1) sum ;;
      integrate_loop n' x values (i + 1)%Z sum cdf
  end.

Definition IntegrateCatmullRom (x values cdf : list float32)
  : outcome (float32 * list float32) :=
  if negb (size32 x =? size32 values)%Z then Fault else
  cdf <~ aset32 cdf 0 f0_ ;;
  if (size32 x =? 0)%Z then Fault else
  integrate_loop (Z.to_nat (size32 x - 1)) x values 0 f0_ cdf.

Definition InvertCatmullRom (fuel : nat) (x values : list float32)
    (u : float32) : outcome float32 :=
  vfront <~ at32 values 0 ;;
  if negb (flt vfront u) then at32 x 0 else
  vback <~ at32 values (size32 values - 1) ;;
  if negb (flt u vback) then at32 x (size32 x - 1) else
  let i := GetIntArrayerval (size32 values) (le_pred32 values u) in
  x0 <~ at32 x i ;;
  x1 <~ at32 x (i + 1) ;;
  f0 <~ at32 values i ;;
  f1 <~ at32 values (i + 1) ;;
  let width := (x1 - x0)%f32 in
  d0 <~ deriv0 x values i x0 x1 f0 f1 ;;
  d1 <~ deriv1 x values i x0 x1 f0 f1 ;;
  r <~ newton_bisection false (Fhat_hermite f0 f1 d0 d1)
         (fhat_hermite f0 f1 d0 d1) u fuel (mkBracket half f0_ f1_) ;;
  let '(t, _) := r in
  Returned (x0 + t * width)%f32.

(** The Fourier routines compute in [double], IEEE binary64 (precision 53,
    maximal exponent 1024), on [float] arrays. *)
Definition double : Type := spec_float.

Definition dadd : double -> double -> double := SFadd 53 1024.
Definition dsub : double -> double -> double := SFsub 53 1024.
Definition dmul : double -> double -> double := SFmul 53 1024.
Definition ddiv : double -> double -> double := SFdiv 53 1024.

Declare Scope f64_scope.
Delimit Scope f64_scope with f64.
Infix "+" := dadd : f64_scope.
Infix "-" := dsub : f64_scope.
Infix "*" := dmul : f64_scope.
Infix "/" := ddiv : f64_scope.

(** The conversions: every [float] is a [double], and the cast [(Float)]
    rounds a [double] to the nearest [float]. *)
Definition to_double (x : float32) : double :=
  match x with
  | S754_finite s m e => binary_normalize 53 1024 (cond_Zopp s (Zpos m)) e s
  | _ => x
  end.

Definition to_float (x : double) : float32 :=
  match x with
  | S754_finite s m e =>
      binary_normalize prec emax (cond_Zopp s (Zpos m)) e s
  | _ => x
  end.

Definition d0_ : double := to_double f0_.
Definition d1_ : double := to_double f1_.
Definition d2_ : double := to_double f2_.

Section FourierRoutines.

(** [std::cos], [SafeSqrt] on a [double] and the [Float] constants [Pi]
    and [Inv2Pi] are not among the sources: parameters. *)
Variable cos : double -> double.
Variable SafeSqrt64 : double -> double.
Variable Pi : float32.
Variable Inv2Pi : float32.

Fixpoint Fourier_loop (a : list float32)
    (cosPhi value cosKMinusOnePhi cosKPhi : double) : double :=
  match a with
  | [] => value
  | ak :: tl =>
      let value := (value + to_double ak * cosKPhi)%f64 in
      let cosKPlusOnePhi := (d2_ * cosPhi * cosKPhi - cosKMinusOnePhi)%f64 in
      Fourier_loop tl cosPhi value cosKPhi cosKPlusOnePhi
  end.

Definition Fourier (a : list float32) (cosPhi : double) : float32 :=
  to_float (Fourier_loop a cosPhi d0_ cosPhi d1_).

(** The inner loop of [SampleFourier]; the product [ak[k] * recip[k]] of
    two [Float] values is a [float] product. *)
Fixpoint fourier_terms (n : nat) (ak recip : list float32) (k : Z)
    (cosPhi sinPhiPrev sinPhiCur cosPhiPrev cosPhiCur F f : double)
  : outcome (double * double) :=
  match n with
  | O => Returned (F, f)
  | S n' =>
      let sinPhiNext := (d2_ * cosPhi * sinPhiCur - sinPhiPrev)%f64 in
      let cosPhiNext := (d2_ * cosPhi * cosPhiCur - cosPhiPrev)%f64 in
      akk <~ at32 ak k ;;
      rk <~ at32 recip k ;;
      fourier_terms n' ak recip (k + 1)%Z cosPhi sinPhiCur sinPhiNext
        cosPhiCur cosPhiNext
        (F + to_double (akk * rk)%f32 * sinPhiNext)%f64
        (f + to_double akk * cosPhiNext)%f64
  end.

(** The outer loop; [u * ak[0] * Pi] is a [float] product, and the
    literals [1e-6f] and [0.5f] are [float] values converted to
    [double]. *)
Fixpoint fourier_newton (fuel : nat) (ak recip : list float32)
    (u : float32) (phi a b : double) : outcome (double * double) :=
  match fuel with
  | O => Running
  | S fuel' =>
      let cosPhi := cos phi in
      let sinPhi := SafeSqrt64 (d1_ - cosPhi * cosPhi)%f64 in
      ak0 <~ at32 ak 0 ;;
      r <~ fourier_terms (Z.to_nat (size32 ak - 1)) ak recip 1 cosPhi
             (SFopp sinPhi) d0_ cosPhi d1_ (to_double ak0 * phi)%f64
             (to_double ak0) ;;
      let '(F, f) := r in
      let F := (F - to_double (u * ak0 * Pi)%f32)%f64 in
      let b := if SFltb d0_ F then phi else b in
      let a := if SFltb d0_ F then a else phi in
      if SFltb (SFabs F) (to_double tolerance)
         || SFltb (b - a)%f64 (to_double tolerance)
      then Returned (phi, f)
      else
        let phi := (phi - F / f)%f64 in
        let phi :=
          if negb (SFltb a phi && SFltb phi b)
          then (to_double half * (a + b))%f64 else phi in
        fourier_newton fuel' ak recip u phi a b
  end.

(** The result: the returned series value with the values stored through
    [pdf] and [phiPtr]. *)
Definition SampleFourier (fuel : nat) (ak recip : list float32) (u : float32)
  : outcome (float32 * float32 * float32) :=
  let flip := fle half u in
  let u := if flip then (f1_ - f2_ * (u - half))%f32 else (u * f2_)%f32 in
  r <~ fourier_newton fuel ak recip u (to_double half * to_double Pi)%f64
         d0_ (to_double Pi) ;;
  let '(phi, f) := r in
  let phi := if flip then (to_double (f2_ * Pi)%f32 - phi)%f64 else phi in
  ak0 <~ at32 ak 0 ;;
  Returned (to_float f,
            to_float (to_double Inv2Pi * f / to_double ak0)%f64,
            to_float phi).

End FourierRoutines.

(** The segment data every spline routine looks up for index [idx]. *)
Record segment : Type := mkSegment {
  seg_x0 : float32; seg_x1 : float32;
  seg_f0 : float32; seg_f1 : float32;
  seg_d0 : float32; seg_d1 : float32
}.

Definition lookup_segment (x f : list float32) (idx : Z) : outcome segment :=
  x0 <~ at32 x idx ;;
  x1 <~ at32 x (idx + 1) ;;
  f0 <~ at32 f idx ;;
  f1 <~ at32 f (idx + 1) ;;
  d0 <~ deriv0 x f idx x0 x1 f0 f1 ;;
  d1 <~ deriv1 x f idx x0 x1 f0 f1 ;;
  Returned (mkSegment x0 x1 f0 f1 d0 d1).

(** The boundary scenario of the specification, in binary32. *)
Definition scenario_nodes : list float32 := [of_Z 0; of_Z 1; of_Z 2; of_Z 3].
Definition scenario_values : list float32 := [of_Z 0; of_Z 1; of_Z 0; of_Z 1].

(** A table with a steep linear density along the second axis: nodes
    [{0,1}] on both axes, values [{0,128}] and cumulative values [{0,64}]
    in each row. *)
Definition steep_nodes : list float32 := [of_Z 0; of_Z 1].
Definition steep_values : list float32 := [of_Z 0; of_Z 128].
Definition steep_cdf : list float32 := [of_Z 0; of_Z 64].
Definition steep_values2D : list float32 := steep_values ++ steep_values.
Definition steep_cdf2D : list float32 := steep_cdf ++ steep_cdf.

(** The literals [2.6f] and [0.325f]. *)
Definition x_2_6 : float32 := (of_Z 26 / of_Z 10)%f32.
Definition x_0_325 : float32 := (of_Z 325 / of_Z 1000)%f32.

(** A table with large entries: nodes [{0, 2^66, 2^67}] and values
    [{0, 2^63, 2^64}]. *)
Definition large_nodes : list float32 := [of_Z 0; of_Z (2 ^ 66); of_Z (2 ^ 67)].
Definition large_values : list float32 :=
  [of_Z 0; of_Z (2 ^ 63); of_Z (2 ^ 64)].


(** The values [{0, 25, 0, 0}] over the nodes of the scenario. *)
Definition peak_values : list float32 := [of_Z 0; of_Z 25; of_Z 0; of_Z 0].


(** The [float] values of [Pi = 3.14159265358979323846] and of
    [Inv2Pi = 0.15915494309189533577], the nearest binary32 numbers. *)
Definition Pi_float : float32 := S754_finite false 13176795 (-22).
Definition Inv2Pi_float : float32 := S754_finite false 10680707 (-26).

End Binary32.

Delimit Scope f32_scope with f32.
Infix "+" := Binary32.fadd : f32_scope.
Infix "-" := Binary32.fsub : f32_scope.
Infix "*" := Binary32.fmul : f32_scope.
Infix "/" := Binary32.fdiv : f32_scope.
Delimit Scope f64_scope with f64.
Infix "+" := Binary32.dadd : f64_scope.
Infix "-" := Binary32.dsub : f64_scope.
Infix "*" := Binary32.dmul : f64_scope.
Infix "/" := Binary32.ddiv : f64_scope.

(** ** Closed forms and test data used in the statements *)

(** The array of the interval-search test, [{0,1,2,3,4,5,6,7,8,9}]. *)
Definition test_array : list Float := [0; 1; 2; 3; 4; 5; 6; 7; 8; 9].

(** The four weights [CatmullRomWeights] leaves in the buffer, for a segment
    [x0, x1] with neighbouring nodes [xm] (before) and [xp] (after) and
    parameter [t]; [first] says that the segment is the first one
    ([idx == 0]) and [last] that it is the last one ([idx + 2 == size]). *)
Definition w0_local (first : bool) (x0 x1 xm t : Float) : Float :=
  let t2 := t * t in
  let t3 := t2 * t in
  if first then t3 - 2 * t2 + t
  else (t3 - 2 * t2 + t) * (x1 - x0) / (x1 - xm).

Definition w3_local (last : bool) (x0 x1 xp t : Float) : Float :=
  let t2 := t * t in
  let t3 := t2 * t in
  if last then t3 - t2
  else (t3 - t2) * (x1 - x0) / (xp - x0).

Definition final_weights (first last : bool) (x0 x1 xm xp t : Float)
  : list Float :=
  let t2 := t * t in
  let t3 := t2 * t in
  let w0 := w0_local first x0 x1 xm t in
  let w3 := w3_local last x0 x1 xp t in
  [ if first then 0 else - w0;
    (if first then 2 * t3 - 3 * t2 + 1 - w0 else 2 * t3 - 3 * t2 + 1) - w3;
    if last then -2 * t3 + 3 * t2 + w0 + w3 else -2 * t3 + 3 * t2 + w0;
    if last then 0 else w3 ].

(** The segment data every spline routine looks up for index [idx]. *)
Record segment : Type := mkSegment {
  seg_x0 : Float; seg_x1 : Float;
  seg_f0 : Float; seg_f1 : Float;
  seg_d0 : Float; seg_d1 : Float
}.

Definition lookup_segment (x f : list Float) (idx : Z) : option segment :=
  x0 <- aref x idx ;;
  x1 <- aref x (idx + 1) ;;
  f0 <- aref f idx ;;
  f1 <- aref f (idx + 1) ;;
  d0 <- deriv0 x f idx x0 x1 f0 f1 ;;
  d1 <- deriv1 x f idx x0 x1 f0 f1 ;;
  Some (mkSegment x0 x1 f0 f1 d0 d1).

(** The closed-form integral of the Hermite cubic over a segment, as the
    specification writes it: [((d0 - d1) / 12 + (f0 + f1) / 2) * width]. *)
Definition segment_integral (s : segment) : Float :=
  ((seg_d0 s - seg_d1 s) / 12 + (seg_f0 s + seg_f1 s) / 2)
  * (seg_x1 s - seg_x0 s).

(** ** Executable stand-ins for the missing helpers

    Rational instances of the parameters of the routines, used where a
    statement is evaluated at concrete inputs. *)

(** [sqrt(max(0, x))], rounded down to a multiple of [1 / (den * 2^24)]. *)
Definition SafeSqrt_approx (x : Float) : Float :=
  if Qle_bool x 0 then 0
  else Z.sqrt (Qnum x * Zpos (Qden x) * 2 ^ 48) # (Qden x * 2 ^ 24).

(** The cosine by its Taylor polynomial of degree 8. *)
Definition cos_approx (x : Float) : Float :=
  let x2 := x * x in
  1 - x2 / 2 * (1 - x2 / 12 * (1 - x2 / 30 * (1 - x2 / 56))).

(** The literal of [Pi] in pbrt, and [Inv2Pi] as its exact reciprocal. *)
Definition Pi_approx : Float := 3.14159265358979323846.
Definition Inv2Pi_approx : Float := 1 / (2 * Pi_approx).

(** The numbers the [float] constants [Pi] and [Inv2Pi] of pbrt are: the
    binary32 numbers nearest to [3.14159265358979323846] and to
    [0.15915494309189533577]. *)
Definition Pi_float : Float := 13176795 # 4194304.
Definition Inv2Pi_float : Float := 10680707 # 67108864.

(** Bracket widths after which [n] further halvings end below [1e-6]. *)
Fixpoint width_bound (n : nat) : Float :=
  match n with
  | O => 2 * tolerance
  | S n' => 2 * width_bound n'
  end.

(** Iterate bounds growing by the factor [5/3] from [1/1000]. *)
Fixpoint shrink_bound (n : nat) : Float :=
  match n with
  | O => 0.001
  | S n' => (5 # 3) * shrink_bound n'
  end.

(** The boundary scenario of the specification. *)
Definition scenario_nodes : list Float := [0; 1; 2; 3].
Definition scenario_values : list Float := [0; 1; 0; 1].

(** The Chebyshev polynomials [T_(k-1)] and [T_k] at [c]; with
    [c = cos(phi)], [T_k(c) = cos(k phi)]. *)
Fixpoint chebyshev_pair (k : nat) (c : Float) : Float * Float :=
  match k with
  | O => (c, 1)
  | S k' => let '(p, q) := chebyshev_pair k' c in (q, 2 * c * q - p)
  end.

Definition chebyshev (k : nat) (c : Float) : Float :=
  snd (chebyshev_pair k c).

(** [sum_j a_j * T_(k+j)(c)] over the coefficients [a]. *)
Fixpoint chebyshev_sum (a : list Float) (k : nat) (c : Float) : Float :=
  match a with
  | [] => 0
  | ak :: tl => ak * chebyshev k c + chebyshev_sum tl (S k) c
  end.

(** ** Tables and relations used in the further properties *)

(** A table sampled from the affine function [v -> m * v + c] at the
    nodes. *)
Definition affine_values (m c : Float) (nodes : list Float) : list Float :=
  map (fun v => m * v + c) nodes.


(** Row [k] of a table stored row by row, with rows of length [n2]. *)
Definition table_row (n2 : Z) (array : list Float) (k : Z) : list Float :=
  firstn (Z.to_nat n2) (skipn (Z.to_nat (k * n2)) array).

(** [a[i]], read as 0 outside the array. *)
Definition read_or_zero (a : list Float) (i : Z) : Float :=
  match aref a i with
  | Some v => v
  | None => 0
  end.

(** The entrywise combination [ca * v[i] + cb * w[i]] of two tables. *)
Fixpoint combine_values (ca cb : Float) (v w : list Float) : list Float :=
  match v, w with
  | a :: v', b :: w' => (ca * a + cb * b) :: combine_values ca cb v' w'
  | _, _ => []
  end.

(** [SafeSqrt_approx] on the reduced fraction, so that equal rationals have
    equal roots. *)
Definition SafeSqrt_reduced (x : Float) : Float := SafeSqrt_approx (Qred x).

(** Two runs are related when both fail or both return, with equal
    rationals. *)
Definition related (r r' : option (Float * Float)) : Prop :=
  match r, r' with
  | Some (p, f), Some (p', f') => p == p' /\ f == f'
  | None, None => True
  | _, _ => False
  end.

(** The values [F] and [f] that one iteration of the loop of
    [SampleFourier] computes at the angle [phi], up to and including
    [F -= u * ak[0] * Pi]. *)
Definition fourier_residual (SafeSqrt cos : Float -> Float) (Pi : Float)
    (ak recip : list Float) (u phi : Float) : option (Float * Float) :=
  let cosPhi := cos phi in
  let sinPhi := SafeSqrt (1 - cosPhi * cosPhi) in
  ak0 <- aref ak 0 ;;
  r <- fourier_terms (Z.to_nat (size ak - 1)) ak recip 1 cosPhi
         (- sinPhi) 0 cosPhi 1 (ak0 * phi) ak0 ;;
  let '(F, f) := r in
  Some (F - u * ak0 * Pi, f).

(** A two-row table over the nodes [{0,1}] and [{0,1,2}]: the rows hold the
    constants 1 and 2, the cdf rows their running integrals. *)
Definition grid_nodes1 : list Float := [0; 1].
Definition grid_nodes2 : list Float := [0; 1; 2].
Definition grid_values : list Float := [1; 1; 1; 2; 2; 2].
Definition grid_cdf : list Float := [0; 1; 2; 0; 2; 4].

(** ** Lemmas on arrays *)

Lemma aref_Some_range a i v : aref a i = Some v -> (0 <= i < size a)%Z.
Proof.
  unfold aref, size. destruct (Z.ltb_spec i 0); [discriminate|].
  intros E. assert (Z.to_nat i < length a)%nat.
  { apply nth_error_Some. congruence. }
  lia.
Qed.

Lemma aref_in_range a i : (0 <= i < size a)%Z -> exists v, aref a i = Some v.
Proof.
  unfold aref, size. intros H. destruct (Z.ltb_spec i 0); [lia|].
  destruct (nth_error a (Z.to_nat i)) eqn:E; [eauto|].
  apply nth_error_None in E. lia.
Qed.

Lemma aref_cons h tl i :
  (0 <= i)%Z -> aref (h :: tl) (i + 1) = aref tl i.
Proof.
  intros H. unfold aref.
  destruct (Z.ltb_spec (i + 1) 0); [lia|].
  destruct (Z.ltb_spec i 0); [lia|].
  replace (Z.to_nat (i + 1)) with (S (Z.to_nat i)) by lia. reflexivity.
Qed.

Lemma size_cons h tl : size (h :: tl) = (size tl + 1)%Z.
Proof. unfold size. simpl length. lia. Qed.

Lemma Qltb_lt a b : Qltb a b = true <-> a < b.
Proof.
  unfold Qltb. rewrite negb_true_iff.
  destruct (Qle_bool b a) eqn:E.
  - apply Qle_bool_iff in E. split; [discriminate|]. intros. lra.
  - split; [|reflexivity]. intros _.
    destruct (Qlt_le_dec a b) as [L|L]; [exact L|].
    apply Qle_bool_iff in L. congruence.
Qed.

Lemma Qltb_false a b : Qltb a b = false <-> b <= a.
Proof.
  unfold Qltb. rewrite negb_false_iff. apply Qle_bool_iff.
Qed.

Lemma Qle_bool_false a b : Qle_bool a b = false <-> b < a.
Proof.
  rewrite <- Qltb_lt. unfold Qltb. rewrite negb_true_iff. tauto.
Qed.

Lemma quotient_defined x y : ~ y == 0 -> quotient x y = Some (x / y).
Proof.
  intros H. unfold quotient. destruct (Qeq_bool y 0) eqn:E; [|reflexivity].
  apply Qeq_bool_iff in E. contradiction.
Qed.

Lemma newton_step_defined t r fhat :
  ~ fhat == 0 -> newton_step t r fhat = Some (t - r / fhat).
Proof.
  intros H. unfold newton_step. rewrite quotient_defined by exact H.
  reflexivity.
Qed.

Lemma fallback_inside inside a b t :
  inside a b t = true -> fallback inside a b (Some t) = t.
Proof. intros H. unfold fallback. rewrite H. reflexivity. Qed.

Lemma fallback_outside inside a b t :
  inside a b t = false -> fallback inside a b (Some t) = 0.5 * (a + b).
Proof. intros H. unfold fallback. rewrite H. reflexivity. Qed.

Lemma increasingb_sound a : increasingb a = true -> increasing a.
Proof.
  induction a as [|h tl IH]; intros Hb i j u v Hi Hij Eu Ev.
  - unfold aref in Eu. destruct (i <? 0)%Z; [discriminate|].
    destruct (Z.to_nat i); discriminate.
  - simpl in Hb. destruct tl as [|h' tl'].
    + apply aref_Some_range in Ev. unfold size in Ev. simpl in Ev. lia.
    + apply andb_true_iff in Hb. destruct Hb as [Hlt Hb].
      apply Qltb_lt in Hlt. specialize (IH Hb).
      replace j with ((j - 1) + 1)%Z in Ev by lia.
      rewrite aref_cons in Ev by lia.
      destruct (Z.eq_dec i 0) as [->|Hne].
      * unfold aref in Eu. simpl in Eu. injection Eu as <-.
        destruct (Z.eq_dec (j - 1) 0) as [E0|Hj].
        -- rewrite E0 in Ev. unfold aref in Ev. simpl in Ev.
           injection Ev as <-. exact Hlt.
        -- assert (Hh' : aref (h' :: tl') 0 = Some h') by reflexivity.
           assert (h' < v) by (apply (IH 0%Z (j - 1)%Z); auto; lia).
           lra.
      * replace i with ((i - 1) + 1)%Z in Eu by lia.
        rewrite aref_cons in Eu by lia.
        apply (IH (i - 1)%Z (j - 1)%Z); auto; lia.
Qed.

(** ** Lemmas on the interval search *)

Lemma Clamp_range v lo hi : (lo <= hi)%Z -> (lo <= Clamp v lo hi <= hi)%Z.
Proof.
  intros H. unfold Clamp.
  destruct (Z.ltb_spec v lo); [lia|].
  destruct (Z.gtb_spec v hi); lia.
Qed.

Lemma Clamp_id v lo hi : (lo <= v <= hi)%Z -> Clamp v lo hi = v.
Proof.
  intros H. unfold Clamp.
  destruct (Z.ltb_spec v lo); [lia|].
  destruct (Z.gtb_spec v hi); lia.
Qed.

Lemma shiftr1_bounds len : (0 < len)%Z -> (0 <= Z.shiftr len 1 < len)%Z.
Proof.
  intros H. rewrite Z.shiftr_div_pow2 by lia. change (2 ^ 1)%Z with 2%Z.
  split; [apply Z.div_pos; lia | apply Z.div_lt; lia].
Qed.

(** The search stops on a boundary: the index just below the returned
    position satisfies the predicate, the returned position does not. *)
Lemma find_loop_boundary (n : Z) (P : Z -> bool) :
  forall (fuel : nat) (first len : Z),
    (0 <= first)%Z -> (0 <= len)%Z -> (first + len <= n)%Z ->
    (len <= Z.of_nat fuel)%Z ->
    ((0 < first)%Z -> P (first - 1)%Z = true) ->
    ((first + len < n)%Z -> P (first + len)%Z = false) ->
    let r := find_loop fuel P first len in
    (first <= r <= first + len)%Z /\
    (0 < r -> P (r - 1)%Z = true)%Z /\
    (r < n -> P r = false)%Z.
Proof.
  induction fuel as [|fuel IH]; intros first len Hf Hl Hn Hfuel Hlo Hhi.
  - simpl. assert (len = 0%Z) by lia. subst len.
    rewrite Z.add_0_r in *. repeat split; auto; lia.
  - simpl. destruct (Z.gtb_spec len 0) as [Hpos|Hz].
    + pose proof (shiftr1_bounds len Hpos) as Hh.
      set (half := Z.shiftr len 1) in *.
      destruct (P (first + half)%Z) eqn:EP.
      * specialize (IH (first + half + 1)%Z (len - (half + 1))%Z).
        simpl in IH.
        destruct IH as (R1 & R2 & R3); try lia.
        -- intros _. replace (first + half + 1 - 1)%Z with (first + half)%Z by lia.
           exact EP.
        -- intros Hlt.
           replace (first + half + 1 + (len - (half + 1)))%Z
             with (first + len)%Z in * by lia.
           apply Hhi. exact Hlt.
        -- repeat split; auto; lia.
      * specialize (IH first half). simpl in IH.
        destruct IH as (R1 & R2 & R3); try lia; auto.
        repeat split; auto; lia.
    + assert (len = 0%Z) by lia. subst len.
      rewrite Z.add_0_r in *. repeat split; auto; lia.
Qed.

(** The search probes the predicate only at indices of the range it was
    given: two predicates that agree there give the same answer. *)
Lemma find_loop_ext (P P' : Z -> bool) :
  forall (fuel : nat) (first len : Z),
    (forall i, (first <= i < first + len)%Z -> P i = P' i) ->
    find_loop fuel P first len = find_loop fuel P' first len.
Proof.
  induction fuel as [|fuel IH]; intros first len Hagree; [reflexivity|].
  simpl. destruct (Z.gtb_spec len 0) as [Hpos|Hz]; [|reflexivity].
  pose proof (shiftr1_bounds len Hpos) as Hh.
  rewrite <- (Hagree (first + Z.shiftr len 1)%Z) by lia.
  destruct (P (first + Z.shiftr len 1)%Z); apply IH; intros i Hi;
    apply Hagree; lia.
Qed.

Lemma GetIntArrayerval_ext (n : Z) (P P' : Z -> bool) :
  (forall i, (0 <= i < n)%Z -> P i = P' i) ->
  GetIntArrayerval n P = GetIntArrayerval n P'.
Proof.
  intros Hagree. unfold GetIntArrayerval.
  rewrite (find_loop_ext P P' (Z.to_nat n) 0 n); [reflexivity|].
  intros i Hi. apply Hagree. lia.
Qed.

Lemma GetIntArrayerval_boundary (n : Z) (P : Z -> bool) :
  (0 <= n)%Z ->
  let r := find_loop (Z.to_nat n) P 0 n in
  (0 <= r <= n)%Z /\
  (0 < r -> P (r - 1)%Z = true)%Z /\
  (r < n -> P r = false)%Z.
Proof.
  intros Hn.
  pose proof (find_loop_boundary n P (Z.to_nat n) 0 n) as H.
  simpl in H. apply H; try lia.
Qed.

Lemma GetIntArrayerval_range (n : Z) (P : Z -> bool) :
  (2 <= n)%Z -> (0 <= GetIntArrayerval n P <= n - 2)%Z.
Proof. intros H. unfold GetIntArrayerval. apply Clamp_range. lia. Qed.

(** For a predicate that is true exactly on the indices up to [m], the
    search returns [m] clamped to [0, n-2]. *)
Lemma GetIntArrayerval_threshold (n : Z) (P : Z -> bool) (m : Z) :
  (2 <= n)%Z -> (-1 <= m < n)%Z ->
  (forall i, (0 <= i < n)%Z -> (P i = true <-> (i <= m)%Z)) ->
  GetIntArrayerval n P = Clamp m 0 (n - 2).
Proof.
  intros Hn Hm HP. unfold GetIntArrayerval.
  destruct (GetIntArrayerval_boundary n P) as (R1 & R2 & R3); [lia|].
  set (r := find_loop (Z.to_nat n) P 0 n) in *.
  assert (r = (m + 1)%Z) as ->.
  { assert (r <= m + 1)%Z.
    { destruct (Z_lt_le_dec 0 r) as [Hr|Hr]; [|lia].
      specialize (R2 Hr). apply HP in R2; lia. }
    assert (m + 1 <= r)%Z.
    { destruct (Z_lt_le_dec r n) as [Hr|Hr]; [|lia].
      specialize (R3 Hr).
      destruct (Z_lt_le_dec m r) as [Hmr|Hmr]; [lia|].
      assert (P r = true) by (apply HP; lia). congruence. }
    lia. }
  f_equal. lia.
Qed.

(** C2.  For a size [n >= 2] and a predicate that is true exactly on the
    prefix of indices [0..m] ([m = -1] when it is true nowhere), the interval
    search returns [m], the largest index satisfying the predicate, clamped
    to [0, n-2].  On the sorted array [{0,...,9}] with the predicate
    [a[i] <= v] it returns [0] for [v] below the first element, [n-2] for
    [v] beyond the last one, and the index of the containing segment for
    [v = i], [v = i + 0.5] and [v = i - 0.5]. *)
Theorem GetIntArrayerval_largest_true :
  (forall (n : Z) (P : Z -> bool) (m : Z),
      (2 <= n)%Z -> (-1 <= m < n)%Z ->
      (forall i, (0 <= i < n)%Z -> (P i = true <-> (i <= m)%Z)) ->
      GetIntArrayerval n P = Clamp m 0 (n - 2)) /\
  GetIntArrayerval (size test_array) (le_pred test_array (-1)) = 0%Z /\
  GetIntArrayerval (size test_array) (le_pred test_array 100)
    = (size test_array - 2)%Z /\
  (forall i : Z, (0 <= i < size test_array - 1)%Z ->
      GetIntArrayerval (size test_array) (le_pred test_array (inject_Z i)) = i /\
      GetIntArrayerval (size test_array)
        (le_pred test_array (inject_Z i + 0.5)) = i /\
      ((0 < i)%Z ->
       GetIntArrayerval (size test_array)
         (le_pred test_array (inject_Z i - 0.5)) = (i - 1)%Z)).
Proof.
  split; [exact GetIntArrayerval_threshold|].
  split; [reflexivity|]. split; [reflexivity|].
  intros i Hi. change (size test_array) with 10%Z in *.
  assert (i = 0 \/ i = 1 \/ i = 2 \/ i = 3 \/ i = 4 \/ i = 5 \/ i = 6 \/
          i = 7 \/ i = 8)%Z as Hcases by lia.
  repeat (destruct Hcases as [->|Hcases]); try subst i;
    (split; [vm_compute; reflexivity|]);
    (split; [vm_compute; reflexivity|]);
    intros Hpos; try lia; vm_compute; reflexivity.
Qed.

(** ** Locating the segment of a strictly increasing node sequence *)

Lemma le_pred_at a v i ai :
  aref a i = Some ai -> le_pred a v i = Qle_bool ai v.
Proof. intros E. unfold le_pred. rewrite E. reflexivity. Qed.

Lemma segment_locate (nodes : list Float) (x lo hi : Float) :
  increasing nodes -> (2 <= size nodes)%Z ->
  front nodes = Some lo -> back nodes = Some hi ->
  lo <= x -> x <= hi ->
  let idx := GetIntArrayerval (size nodes) (le_pred nodes x) in
  (0 <= idx <= size nodes - 2)%Z /\
  exists x0 x1,
    aref nodes idx = Some x0 /\ aref nodes (idx + 1) = Some x1 /\
    x0 <= x /\ x <= x1 /\ x0 < x1.
Proof.
  intros Hinc Hn Hlo Hhi Hlx Hxh idx.
  pose proof (GetIntArrayerval_range (size nodes) (le_pred nodes x) Hn) as Hr.
  fold idx in Hr. split; [exact Hr|].
  destruct (aref_in_range nodes idx) as [x0 E0]; [lia|].
  destruct (aref_in_range nodes (idx + 1)) as [x1 E1]; [lia|].
  exists x0, x1. split; [exact E0|]. split; [exact E1|].
  assert (H01 : x0 < x1) by (apply (Hinc idx (idx + 1)%Z); auto; lia).
  destruct (GetIntArrayerval_boundary (size nodes) (le_pred nodes x))
    as (R1 & R2 & R3); [lia|].
  unfold idx, GetIntArrayerval in E0, E1.
  set (r := find_loop (Z.to_nat (size nodes)) (le_pred nodes x) 0 (size nodes)) in *.
  assert (Hr1 : (1 <= r)%Z).
  { destruct (Z_lt_le_dec 0 r) as [H|H]; [lia|].
    assert (r = 0%Z) by lia.
    assert (Hf : le_pred nodes x r = false) by (apply R3; lia).
    rewrite H0 in Hf. rewrite (le_pred_at _ _ _ _ Hlo) in Hf.
    apply Qle_bool_false in Hf. lra. }
  assert (HPr : le_pred nodes x (r - 1) = true) by (apply R2; lia).
  destruct (Z.eq_dec r (size nodes)) as [Heq|Hne].
  - rewrite Heq in HPr. unfold back in Hhi.
    rewrite (le_pred_at _ _ _ _ Hhi) in HPr. apply Qle_bool_iff in HPr.
    assert (Eclamp : Clamp (r - 1) 0 (size nodes - 2) = (size nodes - 2)%Z).
    { unfold Clamp. destruct (Z.ltb_spec (r - 1) 0); [lia|].
      destruct (Z.gtb_spec (r - 1) (size nodes - 2)); lia. }
    rewrite Eclamp in E0, E1.
    replace (size nodes - 2 + 1)%Z with (size nodes - 1)%Z in E1 by lia.
    assert (x1 = hi) by congruence. subst x1.
    repeat split; auto; lra.
  - rewrite Clamp_id in E0, E1 by lia.
    replace (r - 1 + 1)%Z with r in E1 by lia.
    rewrite (le_pred_at _ _ _ _ E0) in HPr. apply Qle_bool_iff in HPr.
    assert (Hf : le_pred nodes x r = false) by (apply R3; lia).
    rewrite (le_pred_at _ _ _ _ E1) in Hf. apply Qle_bool_false in Hf.
    repeat split; auto; lra.
Qed.

(** ** Arrays and buffers in the binary32 embedding *)

Lemma at32_in_range (a : list Binary32.float32) (i : Z) :
  (0 <= i < Binary32.size32 a)%Z ->
  exists v, Binary32.at32 a i = Binary32.Returned v.
Proof.
  unfold Binary32.at32, Binary32.size32. intros H.
  destruct (Z.ltb_spec i 0); [lia|].
  destruct (nth_error a (Z.to_nat i)) eqn:E; [eauto|].
  apply nth_error_None in E. lia.
Qed.

Lemma at32_Returned_range (a : list Binary32.float32) (i : Z) v :
  Binary32.at32 a i = Binary32.Returned v ->
  (0 <= i < Binary32.size32 a)%Z.
Proof.
  unfold Binary32.at32, Binary32.size32.
  destruct (Z.ltb_spec i 0); [discriminate|].
  destruct (nth_error a (Z.to_nat i)) eqn:E; [|discriminate].
  intros _. assert (Z.to_nat i < length a)%nat.
  { apply nth_error_Some. congruence. }
  lia.
Qed.

Lemma set32_spec (a : list Binary32.float32) :
  forall (n : nat) (v : Binary32.float32), (n < length a)%nat ->
    exists a', Binary32.set32 a n v = Binary32.Returned a' /\
               length a' = length a /\
               nth_error a' n = Some v /\
               (forall m, m <> n -> nth_error a' m = nth_error a m).
Proof.
  induction a as [|h tl IH]; intros n v Hn; simpl in Hn; [lia|].
  destruct n as [|n].
  - exists (v :: tl). simpl. repeat split; auto.
    intros [|m] Hm; [congruence|reflexivity].
  - destruct (IH n v) as (tl' & E & L & G & O); [lia|].
    exists (h :: tl'). simpl. rewrite E. simpl. repeat split; auto.
    intros [|m] Hm; [reflexivity|]. simpl. apply O. congruence.
Qed.

Lemma aset32_spec (a : list Binary32.float32) (i : Z) (v : Binary32.float32) :
  (0 <= i < Binary32.size32 a)%Z ->
  exists a', Binary32.aset32 a i v = Binary32.Returned a' /\
             Binary32.size32 a' = Binary32.size32 a /\
             Binary32.at32 a' i = Binary32.Returned v /\
             (forall j, j <> i -> Binary32.at32 a' j = Binary32.at32 a j).
Proof.
  intros Hi. unfold Binary32.aset32, Binary32.at32, Binary32.size32 in *.
  destruct (Z.ltb_spec i 0); [lia|].
  destruct (set32_spec a (Z.to_nat i) v) as (a' & E & L & G & O); [lia|].
  exists a'. rewrite L, G. repeat split; auto.
  intros j Hj. destruct (Z.ltb_spec j 0); [reflexivity|].
  rewrite O by lia. reflexivity.
Qed.

Lemma deriv0_binary32_defined x f idx x0 x1 f0 f1 :
  Binary32.size32 x = Binary32.size32 f ->
  (0 <= idx <= Binary32.size32 x - 2)%Z ->
  exists d0, Binary32.deriv0 x f idx x0 x1 f0 f1 = Binary32.Returned d0.
Proof.
  intros Hs Hi. unfold Binary32.deriv0.
  destruct (Z.gtb_spec idx 0); [|eauto].
  destruct (at32_in_range f (idx - 1)) as [fm ->]; [lia|].
  destruct (at32_in_range x (idx - 1)) as [xm ->]; [lia|].
  simpl. eauto.
Qed.

Lemma deriv1_binary32_defined x f idx x0 x1 f0 f1 :
  Binary32.size32 x = Binary32.size32 f ->
  (0 <= idx <= Binary32.size32 x - 2)%Z ->
  exists d1, Binary32.deriv1 x f idx x0 x1 f0 f1 = Binary32.Returned d1.
Proof.
  intros Hs Hi. unfold Binary32.deriv1.
  destruct (Z.ltb_spec (idx + 2) (Binary32.size32 x)); [|eauto].
  destruct (at32_in_range f (idx + 2)) as [fp ->]; [lia|].
  destruct (at32_in_range x (idx + 2)) as [xp ->]; [lia|].
  simpl. eauto.
Qed.

Lemma lookup_segment_binary32_defined x f idx :
  Binary32.size32 x = Binary32.size32 f ->
  (0 <= idx <= Binary32.size32 x - 2)%Z ->
  exists s, Binary32.lookup_segment x f idx = Binary32.Returned s.
Proof.
  intros Hs Hi. unfold Binary32.lookup_segment.
  destruct (at32_in_range x idx) as [x0 ->]; [lia|].
  destruct (at32_in_range x (idx + 1)) as [x1 ->]; [lia|].
  destruct (at32_in_range f idx) as [f0 ->]; [lia|].
  destruct (at32_in_range f (idx + 1)) as [f1 ->]; [lia|].
  destruct (deriv0_binary32_defined x f idx x0 x1 f0 f1 Hs Hi) as [d0 E0].
  destruct (deriv1_binary32_defined x f idx x0 x1 f0 f1 Hs Hi) as [d1 E1].
  simpl. rewrite E0. simpl. rewrite E1. simpl. eauto.
Qed.

(** What a located segment holds: the two nodes and values of the segment
    and the derivative estimates, by the one-sided difference
    [f1 - f0] at an end of the table and by the difference quotient over
    the two neighbouring segments elsewhere. *)
Lemma lookup_segment_binary32_inv x f idx s :
  Binary32.lookup_segment x f idx = Binary32.Returned s ->
  Binary32.at32 x idx = Binary32.Returned (Binary32.seg_x0 s) /\
  Binary32.at32 x (idx + 1) = Binary32.Returned (Binary32.seg_x1 s) /\
  Binary32.at32 f idx = Binary32.Returned (Binary32.seg_f0 s) /\
  Binary32.at32 f (idx + 1) = Binary32.Returned (Binary32.seg_f1 s) /\
  Binary32.deriv0 x f idx (Binary32.seg_x0 s) (Binary32.seg_x1 s)
    (Binary32.seg_f0 s) (Binary32.seg_f1 s)
    = Binary32.Returned (Binary32.seg_d0 s) /\
  Binary32.deriv1 x f idx (Binary32.seg_x0 s) (Binary32.seg_x1 s)
    (Binary32.seg_f0 s) (Binary32.seg_f1 s)
    = Binary32.Returned (Binary32.seg_d1 s).
Proof.
  unfold Binary32.lookup_segment.
  destruct (Binary32.at32 x idx) as [x0| |]; try discriminate.
  destruct (Binary32.at32 x (idx + 1)) as [x1| |]; try discriminate.
  destruct (Binary32.at32 f idx) as [f0| |]; try discriminate.
  destruct (Binary32.at32 f (idx + 1)) as [f1| |]; try discriminate.
  simpl.
  destruct (Binary32.deriv0 x f idx x0 x1 f0 f1) as [d0| |] eqn:E0;
    try discriminate.
  destruct (Binary32.deriv1 x f idx x0 x1 f0 f1) as [d1| |] eqn:E1;
    try discriminate.
  simpl. intros H. injection H as <-. simpl. repeat split; assumption.
Qed.

Lemma deriv0_binary32_inv x f idx x0 x1 f0 f1 d0 :
  Binary32.deriv0 x f idx x0 x1 f0 f1 = Binary32.Returned d0 ->
  if (idx >? 0)%Z
  then exists fm xm,
         Binary32.at32 f (idx - 1) = Binary32.Returned fm /\
         Binary32.at32 x (idx - 1) = Binary32.Returned xm /\
         d0 = Binary32.fdiv
                (Binary32.fmul (Binary32.fsub x1 x0) (Binary32.fsub f1 fm))
                (Binary32.fsub x1 xm)
  else d0 = Binary32.fsub f1 f0.
Proof.
  unfold Binary32.deriv0. destruct (idx >? 0)%Z.
  - destruct (Binary32.at32 f (idx - 1)) as [fm| |]; try discriminate.
    destruct (Binary32.at32 x (idx - 1)) as [xm| |]; try discriminate.
    simpl. intros H. injection H as <-. eauto.
  - intros H. injection H as <-. reflexivity.
Qed.

Lemma deriv1_binary32_inv x f idx x0 x1 f0 f1 d1 :
  Binary32.deriv1 x f idx x0 x1 f0 f1 = Binary32.Returned d1 ->
  if (idx + 2 <? Binary32.size32 x)%Z
  then exists fp xp,
         Binary32.at32 f (idx + 2) = Binary32.Returned fp /\
         Binary32.at32 x (idx + 2) = Binary32.Returned xp /\
         d1 = Binary32.fdiv
                (Binary32.fmul (Binary32.fsub x1 x0) (Binary32.fsub fp f0))
                (Binary32.fsub xp x0)
  else d1 = Binary32.fsub f1 f0.
Proof.
  unfold Binary32.deriv1. destruct (idx + 2 <? Binary32.size32 x)%Z.
  - destruct (Binary32.at32 f (idx + 2)) as [fp| |]; try discriminate.
    destruct (Binary32.at32 x (idx + 2)) as [xp| |]; try discriminate.
    simpl. intros H. injection H as <-. eauto.
  - intros H. injection H as <-. reflexivity.
Qed.

(** ** The running integral in binary32 *)


Lemma integrate_loop_binary32_step k x values i sum cdf :
  Binary32.integrate_loop (S k) x values i sum cdf =
  Binary32.obind (Binary32.lookup_segment x values i) (fun s =>
   let sum' :=
     (sum + ((Binary32.seg_d0 s - Binary32.seg_d1 s)
             * (Binary32.f1_ / Binary32.of_Z 12)
             + (Binary32.seg_f0 s + Binary32.seg_f1 s) * Binary32.half)
            * (Binary32.seg_x1 s - Binary32.seg_x0 s))%f32 in
   Binary32.obind (Binary32.aset32 cdf (i + 1) sum') (fun cdf' =>
   Binary32.integrate_loop k x values (i + 1)%Z sum' cdf')).
Proof.
  simpl. unfold Binary32.lookup_segment.
  destruct (Binary32.at32 x i) as [x0| |]; try reflexivity.
  destruct (Binary32.at32 x (i + 1)) as [x1| |]; try reflexivity.
  destruct (Binary32.at32 values i) as [f0| |]; try reflexivity.
  destruct (Binary32.at32 values (i + 1)) as [f1| |]; try reflexivity.
  simpl.
  destruct (Binary32.deriv0 x values i x0 x1 f0 f1) as [d0| |];
    try reflexivity.
  destruct (Binary32.deriv1 x values i x0 x1 f0 f1) as [d1| |]; reflexivity.
Qed.

Lemma integrate_loop_binary32_spec x values :
  Binary32.size32 x = Binary32.size32 values ->
  forall (k : nat) (i : Z) (sum : Binary32.float32)
         (cdf : list Binary32.float32),
    (0 <= i)%Z -> (i + Z.of_nat k <= Binary32.size32 x - 1)%Z ->
    (Binary32.size32 x <= Binary32.size32 cdf)%Z ->
    Binary32.at32 cdf i = Binary32.Returned sum ->
    exists total cdf',
      Binary32.integrate_loop k x values i sum cdf
        = Binary32.Returned (total, cdf') /\
      Binary32.size32 cdf' = Binary32.size32 cdf /\
      (forall j, (j <= i \/ i + Z.of_nat k < j)%Z ->
                 Binary32.at32 cdf' j = Binary32.at32 cdf j) /\
      (forall j, (i <= j < i + Z.of_nat k)%Z ->
         exists s cj cj1,
           Binary32.lookup_segment x values j = Binary32.Returned s /\
           Binary32.at32 cdf' j = Binary32.Returned cj /\
           Binary32.at32 cdf' (j + 1) = Binary32.Returned cj1 /\
           cj1 = (cj + ((Binary32.seg_d0 s - Binary32.seg_d1 s)
                        * (Binary32.f1_ / Binary32.of_Z 12)
                        + (Binary32.seg_f0 s + Binary32.seg_f1 s)
                          * Binary32.half)
                       * (Binary32.seg_x1 s - Binary32.seg_x0 s))%f32) /\
      Binary32.at32 cdf' (i + Z.of_nat k) = Binary32.Returned total.
Proof.
  intros Hs. induction k as [|k IH]; intros i sum cdf Hi Hik Hc Hsum.
  - exists sum, cdf. simpl. rewrite Z.add_0_r.
    repeat split; auto. intros j Hj. lia.
  - rewrite integrate_loop_binary32_step.
    destruct (lookup_segment_binary32_defined x values i Hs) as [s Hseg];
      [lia|].
    rewrite Hseg. unfold Binary32.obind at 1. cbv zeta.
    set (sum' := Binary32.fadd sum _).
    destruct (aset32_spec cdf (i + 1) sum') as (cdf1 & E1 & L1 & G1 & O1);
      [lia|].
    rewrite E1. unfold Binary32.obind at 1.
    destruct (IH (i + 1)%Z sum' cdf1)
      as (total & cdf' & Er & Lr & Pr & Sr & Tr); try lia; auto.
    exists total, cdf'. split; [exact Er|]. split; [congruence|].
    split; [|split].
    + intros j Hj. rewrite Pr by lia. apply O1. lia.
    + intros j Hj. destruct (Z.eq_dec j i) as [->|Hne].
      * exists s, sum, sum'. split; [exact Hseg|].
        split; [rewrite Pr by lia; rewrite O1 by lia; exact Hsum|].
        split; [rewrite Pr by lia; exact G1|].
        reflexivity.
      * apply Sr. lia.
    + replace (i + Z.of_nat (S k))%Z with (i + 1 + Z.of_nat k)%Z by lia.
      exact Tr.
Qed.

(** [IntegrateCatmullRom] in binary32: the recurrence the buffer satisfies,
    with every operation rounded as the code rounds it. *)
Lemma IntegrateCatmullRom_binary32_recurrence
    (x values cdf0 : list Binary32.float32) :
  (1 <= Binary32.size32 x)%Z ->
  Binary32.size32 x = Binary32.size32 values ->
  (Binary32.size32 x <= Binary32.size32 cdf0)%Z ->
  exists total cdf,
    Binary32.IntegrateCatmullRom x values cdf0
      = Binary32.Returned (total, cdf) /\
    Binary32.size32 cdf = Binary32.size32 cdf0 /\
    Binary32.at32 cdf 0 = Binary32.Returned Binary32.f0_ /\
    (forall i, (0 <= i <= Binary32.size32 x - 2)%Z ->
       exists s ci ci1,
         Binary32.lookup_segment x values i = Binary32.Returned s /\
         Binary32.at32 cdf i = Binary32.Returned ci /\
         Binary32.at32 cdf (i + 1) = Binary32.Returned ci1 /\
         ci1 = (ci + ((Binary32.seg_d0 s - Binary32.seg_d1 s)
                      * (Binary32.f1_ / Binary32.of_Z 12)
                      + (Binary32.seg_f0 s + Binary32.seg_f1 s)
                        * Binary32.half)
                     * (Binary32.seg_x1 s - Binary32.seg_x0 s))%f32) /\
    Binary32.at32 cdf (Binary32.size32 x - 1) = Binary32.Returned total /\
    (forall j, (Binary32.size32 x <= j)%Z ->
               Binary32.at32 cdf j = Binary32.at32 cdf0 j).
Proof.
  intros Hn Hs Hc.
  unfold Binary32.IntegrateCatmullRom. rewrite Hs, Z.eqb_refl. rewrite <- Hs.
  simpl negb. cbv iota.
  destruct (aset32_spec cdf0 0 Binary32.f0_) as (cdf1 & E1 & L1 & G1 & O1);
    [lia|].
  rewrite E1. unfold Binary32.obind at 1.
  destruct (Z.eqb_spec (Binary32.size32 x) 0); [lia|].
  destruct (integrate_loop_binary32_spec x values Hs
              (Z.to_nat (Binary32.size32 x - 1)) 0 Binary32.f0_ cdf1)
    as (total & cdf & Er & Lr & Pr & Sr & Tr); try lia; auto.
  exists total, cdf. split; [exact Er|]. split; [congruence|].
  split; [rewrite Pr by lia; exact G1|]. split; [|split].
  - intros i Hi. apply Sr. lia.
  - replace (Binary32.size32 x - 1)%Z
      with (0 + Z.of_nat (Z.to_nat (Binary32.size32 x - 1)))%Z by lia.
    exact Tr.
  - intros j Hj. rewrite Pr by lia. apply O1. lia.
Qed.

(** ** The weights in binary32: the domain test and the buffer *)

Lemma CatmullRomWeights_binary32_run
    (nodes : list Binary32.float32) (x : Binary32.float32) (off : Z)
    (ws : list Binary32.float32) :
  (2 <= Binary32.size32 nodes)%Z -> (4 <= Binary32.size32 ws)%Z ->
  let idx := GetIntArrayerval (Binary32.size32 nodes)
               (Binary32.le_pred32 nodes x) in
  exists lo hi,
    Binary32.at32 nodes 0 = Binary32.Returned lo /\
    Binary32.at32 nodes (Binary32.size32 nodes - 1) = Binary32.Returned hi /\
    (Binary32.fle lo x && Binary32.fle x hi = false ->
     Binary32.CatmullRomWeights nodes x off ws
       = Binary32.Returned (false, off, ws)) /\
    (Binary32.fle lo x && Binary32.fle x hi = true ->
     exists w0 w1 w2 w3,
       Binary32.CatmullRomWeights nodes x off ws
         = Binary32.Returned
             (true, (idx - 1)%Z, w0 :: w1 :: w2 :: w3 :: skipn 4 ws) /\
       (idx = 0%Z -> w0 = Binary32.f0_) /\
       ((idx + 2)%Z = Binary32.size32 nodes -> w3 = Binary32.f0_)).
Proof.
  intros Hn Hw idx.
  destruct (at32_in_range nodes 0) as [lo Hlo]; [lia|].
  destruct (at32_in_range nodes (Binary32.size32 nodes - 1)) as [hi Hhi];
    [lia|].
  exists lo, hi. split; [exact Hlo|]. split; [exact Hhi|].
  assert (Hsz : (Binary32.size32 ws <? 4)%Z = false) by (apply Z.ltb_ge; lia).
  split.
  - intros Hout. unfold Binary32.CatmullRomWeights.
    rewrite Hsz, Hlo, Hhi. unfold Binary32.obind. rewrite Hout. reflexivity.
  - intros Hin. unfold Binary32.CatmullRomWeights.
    rewrite Hsz, Hlo, Hhi. unfold Binary32.obind at 1 2. rewrite Hin.
    simpl negb. cbv iota zeta.
    pose proof (GetIntArrayerval_range (Binary32.size32 nodes)
                  (Binary32.le_pred32 nodes x) Hn) as Hidx.
    fold idx in Hidx |- *.
    destruct (at32_in_range nodes idx) as [x0 E0]; [lia|].
    destruct (at32_in_range nodes (idx + 1)) as [x1 E1]; [lia|].
    rewrite E0, E1. unfold Binary32.obind at 1 2.
    destruct ws as [|a0 [|a1 [|a2 [|a3 rest]]]];
      try (unfold Binary32.size32 in Hw; simpl in Hw; lia).
    destruct (Z.gtb_spec idx 0) as [Hpos|Hz];
      destruct (Z.ltb_spec (idx + 2) (Binary32.size32 nodes)) as [Hlt|Hge].
    + destruct (at32_in_range nodes (idx - 1)) as [xm Em]; [lia|].
      destruct (at32_in_range nodes (idx + 2)) as [xp Ep]; [lia|].
      rewrite Em, Ep. do 4 eexists. split; [reflexivity|]. split; lia.
    + destruct (at32_in_range nodes (idx - 1)) as [xm Em]; [lia|].
      rewrite Em. do 4 eexists. split; [reflexivity|].
      split; [lia|reflexivity].
    + destruct (at32_in_range nodes (idx + 2)) as [xp Ep]; [lia|].
      rewrite Ep. do 4 eexists. split; [reflexivity|].
      split; [reflexivity|lia].
    + do 4 eexists. split; [reflexivity|]. split; reflexivity.
Qed.

(** The weighted evaluation reads no value entry out of bounds: a weight
    that stands on a missing neighbour is the literal zero, which the test
    [weights[j] != 0] skips. *)
Lemma weighted_sum_binary32_defined
    (values : list Binary32.float32) (idx : Z)
    (w0 w1 w2 w3 : Binary32.float32) (rest : list Binary32.float32) :
  (0 <= idx <= Binary32.size32 values - 2)%Z ->
  (idx = 0%Z -> w0 = Binary32.f0_) ->
  ((idx + 2)%Z = Binary32.size32 values -> w3 = Binary32.f0_) ->
  exists v,
    Binary32.weighted_sum (w0 :: w1 :: w2 :: w3 :: rest) values (idx - 1)
      = Binary32.Returned v.
Proof.
  intros Hidx H0 H3. unfold Binary32.weighted_sum.
  assert (T0 : exists s,
             Binary32.weighted_term (w0 :: w1 :: w2 :: w3 :: rest) values
               (idx - 1) 0 = Binary32.Returned s).
  { unfold Binary32.weighted_term.
    change (Binary32.at32 (w0 :: w1 :: w2 :: w3 :: rest) 0)
      with (Binary32.Returned w0).
    unfold Binary32.obind at 1.
    destruct (Z.eq_dec idx 0) as [Hz|Hnz].
    - rewrite (H0 Hz). change (Binary32.feq Binary32.f0_ Binary32.f0_)
        with true. eauto.
    - destruct (Binary32.feq w0 Binary32.f0_); [eauto|].
      destruct (at32_in_range values (idx - 1 + 0)) as [v ->]; [lia|].
      simpl. eauto. }
  assert (T1 : exists s,
             Binary32.weighted_term (w0 :: w1 :: w2 :: w3 :: rest) values
               (idx - 1) 1 = Binary32.Returned s).
  { unfold Binary32.weighted_term.
    change (Binary32.at32 (w0 :: w1 :: w2 :: w3 :: rest) 1)
      with (Binary32.Returned w1).
    unfold Binary32.obind at 1.
    destruct (Binary32.feq w1 Binary32.f0_); [eauto|].
    destruct (at32_in_range values (idx - 1 + 1)) as [v ->]; [lia|].
    simpl. eauto. }
  assert (T2 : exists s,
             Binary32.weighted_term (w0 :: w1 :: w2 :: w3 :: rest) values
               (idx - 1) 2 = Binary32.Returned s).
  { unfold Binary32.weighted_term.
    change (Binary32.at32 (w0 :: w1 :: w2 :: w3 :: rest) 2)
      with (Binary32.Returned w2).
    unfold Binary32.obind at 1.
    destruct (Binary32.feq w2 Binary32.f0_); [eauto|].
    destruct (at32_in_range values (idx - 1 + 2)) as [v ->]; [lia|].
    simpl. eauto. }
  assert (T3 : exists s,
             Binary32.weighted_term (w0 :: w1 :: w2 :: w3 :: rest) values
               (idx - 1) 3 = Binary32.Returned s).
  { unfold Binary32.weighted_term.
    change (Binary32.at32 (w0 :: w1 :: w2 :: w3 :: rest) 3)
      with (Binary32.Returned w3).
    unfold Binary32.obind at 1.
    destruct (Z.eq_dec (idx + 2) (Binary32.size32 values)) as [Hz|Hnz].
    - rewrite (H3 Hz). change (Binary32.feq Binary32.f0_ Binary32.f0_)
        with true. eauto.
    - destruct (Binary32.feq w3 Binary32.f0_); [eauto|].
      destruct (at32_in_range values (idx - 1 + 3)) as [v ->]; [lia|].
      simpl. eauto. }
  destruct T0 as [s0 ->]. destruct T1 as [s1 ->].
  destruct T2 as [s2 ->]. destruct T3 as [s3 ->].
  simpl. eauto.
Qed.

(** ** Point evaluation in binary32 outside the domain *)


(** Inside the domain [CatmullRom] returns: no array is read out of
    bounds, and the result is the Hermite cubic of the located segment. *)
Lemma CatmullRom_binary32_inside
    (nodes values : list Binary32.float32) (x lo hi : Binary32.float32) :
  (2 <= Binary32.size32 nodes)%Z ->
  Binary32.size32 nodes = Binary32.size32 values ->
  Binary32.at32 nodes 0 = Binary32.Returned lo ->
  Binary32.at32 nodes (Binary32.size32 nodes - 1) = Binary32.Returned hi ->
  Binary32.fle lo x && Binary32.fle x hi = true ->
  exists s,
    Binary32.lookup_segment nodes values
      (GetIntArrayerval (Binary32.size32 nodes) (Binary32.le_pred32 nodes x))
      = Binary32.Returned s /\
    Binary32.CatmullRom nodes values x =
      Binary32.Returned
        (Binary32.Fhat_hermite (Binary32.seg_f0 s) (Binary32.seg_f1 s)
           (Binary32.seg_d0 s) (Binary32.seg_d1 s)
           ((x - Binary32.seg_x0 s)
            / (Binary32.seg_x1 s - Binary32.seg_x0 s))%f32).
Proof.
  intros Hn Hs Hlo Hhi Hin.
  destruct (lookup_segment_binary32_defined nodes values
              (GetIntArrayerval (Binary32.size32 nodes)
                 (Binary32.le_pred32 nodes x)) Hs) as [s Hseg].
  { apply GetIntArrayerval_range. exact Hn. }
  exists s. split; [exact Hseg|].
  apply lookup_segment_binary32_inv in Hseg.
  destruct Hseg as (E0 & E1 & E2 & E3 & E4 & E5).
  unfold Binary32.CatmullRom.
  rewrite Hs, Z.eqb_refl. rewrite <- Hs. simpl negb. cbv iota.
  rewrite Hlo, Hhi. unfold Binary32.obind at 1 2. rewrite Hin.
  simpl negb. cbv iota zeta.
  rewrite E0, E1, E2, E3. unfold Binary32.obind at 1 2 3 4.
  rewrite E4, E5. reflexivity.
Qed.

(** ** The 1D sampler in binary32 *)


(** ** The loops in binary32: what an exit knows *)




(** ** The routines in binary32 at concrete inputs *)

Lemma weights_binary32_at_2_6 :
  exists ws v c,
    Binary32.CatmullRomWeights Binary32.scenario_nodes Binary32.x_2_6 0
      [Binary32.f0_; Binary32.f0_; Binary32.f0_; Binary32.f0_]
      = Binary32.Returned (true, 1%Z, ws) /\
    Binary32.weighted_sum ws Binary32.scenario_values 1 = Binary32.Returned v /\
    Binary32.CatmullRom Binary32.scenario_nodes Binary32.scenario_values
      Binary32.x_2_6 = Binary32.Returned c /\
    v = S754_finite false 8455714 (-24) /\
    c = S754_finite false 8455715 (-24) /\
    Binary32.feq v c = false.
Proof.
  do 3 eexists. split; [vm_compute; reflexivity|].
  split; [vm_compute; reflexivity|].
  split; [vm_compute; reflexivity|].
  split; [reflexivity|]. split; reflexivity.
Qed.

Lemma weights_binary32_large :
  exists ws v c,
    Binary32.CatmullRomWeights Binary32.large_nodes (Binary32.of_Z (2 ^ 66)) 0
      [Binary32.f0_; Binary32.f0_; Binary32.f0_; Binary32.f0_]
      = Binary32.Returned (true, 0%Z, ws) /\
    Binary32.weighted_sum ws Binary32.large_values 0 = Binary32.Returned v /\
    Binary32.CatmullRom Binary32.large_nodes Binary32.large_values
      (Binary32.of_Z (2 ^ 66)) = Binary32.Returned c /\
    v = Binary32.of_Z (2 ^ 63) /\
    c = S754_nan.
Proof.
  do 3 eexists. split; [vm_compute; reflexivity|].
  split; [vm_compute; reflexivity|].
  split; [vm_compute; reflexivity|].
  split; reflexivity.
Qed.

Lemma CatmullRomWeights_binary32_domain
    (nodes : list Binary32.float32) (x : Binary32.float32) (off : Z)
    (ws : list Binary32.float32) (lo hi : Binary32.float32) :
  (2 <= Binary32.size32 nodes)%Z -> (4 <= Binary32.size32 ws)%Z ->
  Binary32.at32 nodes 0 = Binary32.Returned lo ->
  Binary32.at32 nodes (Binary32.size32 nodes - 1) = Binary32.Returned hi ->
  exists (ok : bool) (off' : Z) (ws' : list Binary32.float32),
    Binary32.CatmullRomWeights nodes x off ws
      = Binary32.Returned (ok, off', ws') /\
    (ok = true <-> Binary32.fle lo x = true /\ Binary32.fle x hi = true) /\
    (ok = false -> off' = off /\ ws' = ws) /\
    (ok = true ->
     off' = (GetIntArrayerval (Binary32.size32 nodes)
               (Binary32.le_pred32 nodes x) - 1)%Z /\
     exists w0 w1 w2 w3, ws' = w0 :: w1 :: w2 :: w3 :: skipn 4 ws).
Proof.
  intros Hn Hw Hlo Hhi.
  destruct (CatmullRomWeights_binary32_run nodes x off ws Hn Hw)
    as (lo' & hi' & Elo & Ehi & Hout & Hin).
  assert (lo' = lo) by congruence. assert (hi' = hi) by congruence. subst.
  destruct (Binary32.fle lo x && Binary32.fle x hi) eqn:E.
  - destruct (Hin eq_refl) as (w0 & w1 & w2 & w3 & Hrun & _).
    eexists true, _, _. split; [exact Hrun|].
    apply andb_true_iff in E.
    split; [tauto|]. split; [discriminate|]. intros _.
    split; [reflexivity|]. exists w0, w1, w2, w3. reflexivity.
  - exists false, off, ws. split; [exact (Hout eq_refl)|].
    split; [|split; [auto|discriminate]].
    split; [discriminate|]. intros H. apply andb_true_iff in H. congruence.
Qed.

Lemma CatmullRomWeights_binary32_evaluates
    (nodes values : list Binary32.float32) (x : Binary32.float32) (off : Z)
    (ws : list Binary32.float32) (lo hi : Binary32.float32) :
  (2 <= Binary32.size32 nodes)%Z ->
  Binary32.size32 nodes = Binary32.size32 values ->
  (4 <= Binary32.size32 ws)%Z ->
  Binary32.at32 nodes 0 = Binary32.Returned lo ->
  Binary32.at32 nodes (Binary32.size32 nodes - 1) = Binary32.Returned hi ->
  Binary32.fle lo x = true -> Binary32.fle x hi = true ->
  exists (off' : Z) (ws' : list Binary32.float32) (v c : Binary32.float32),
    Binary32.CatmullRomWeights nodes x off ws
      = Binary32.Returned (true, off', ws') /\
    Binary32.weighted_sum ws' values off' = Binary32.Returned v /\
    Binary32.CatmullRom nodes values x = Binary32.Returned c.
Proof.
  intros Hn Hs Hw Hlo Hhi Hlx Hxh.
  assert (E : Binary32.fle lo x && Binary32.fle x hi = true)
    by (rewrite Hlx, Hxh; reflexivity).
  destruct (CatmullRomWeights_binary32_run nodes x off ws Hn Hw)
    as (lo' & hi' & Elo & Ehi & _ & Hin).
  assert (lo' = lo) by congruence. assert (hi' = hi) by congruence. subst.
  destruct (Hin E) as (w0 & w1 & w2 & w3 & Hrun & Hz0 & Hz3).
  pose proof (GetIntArrayerval_range (Binary32.size32 nodes)
                (Binary32.le_pred32 nodes x) Hn) as Hidx.
  destruct (weighted_sum_binary32_defined values
              (GetIntArrayerval (Binary32.size32 nodes)
                 (Binary32.le_pred32 nodes x))
              w0 w1 w2 w3 (skipn 4 ws)) as [v Hv].
  - rewrite <- Hs. exact Hidx.
  - exact Hz0.
  - rewrite <- Hs. exact Hz3.
  - destruct (CatmullRom_binary32_inside nodes values x lo hi Hn Hs Hlo Hhi E)
      as (s & _ & Hc).
    eexists _, _, v, _. split; [exact Hrun|]. split; [exact Hv|exact Hc].
Qed.




Lemma weights_binary32_at_0_325 :
  exists w0 w1 w2 w3 q0 q1 q2 q3,
    Binary32.CatmullRomWeights Binary32.scenario_nodes Binary32.x_0_325 0
      [Binary32.f0_; Binary32.f0_; Binary32.f0_; Binary32.f0_]
      = Binary32.Returned (true, (-1)%Z, [w0; w1; w2; w3]) /\
    Binary32.feq (w0 + w1 + w2 + w3)%f32 Binary32.f1_ = false /\
    Binary32.to_Q w0 = Some q0 /\ Binary32.to_Q w1 = Some q1 /\
    Binary32.to_Q w2 = Some q2 /\ Binary32.to_Q w3 = Some q3 /\
    (q0 + q1 + q2 + q3 == 33554429 # 33554432)%Q.
Proof.
  do 8 eexists. split; [vm_compute; reflexivity|].
  split; [vm_compute; reflexivity|].
  do 4 (split; [reflexivity|]).
  vm_compute. reflexivity.
Qed.

Lemma integrate_binary32_scenario :
  exists total cdf c1 q1,
    Binary32.IntegrateCatmullRom Binary32.scenario_nodes
      Binary32.scenario_values
      [Binary32.f0_; Binary32.f0_; Binary32.f0_; Binary32.f0_]
      = Binary32.Returned (total, cdf) /\
    Binary32.at32 cdf 1 = Binary32.Returned c1 /\
    c1 = S754_finite false 9786709 (-24) /\
    Binary32.to_Q c1 = Some q1 /\ (q1 < 7 # 12)%Q.
Proof.
  do 4 eexists. split; [vm_compute; reflexivity|].
  split; [vm_compute; reflexivity|]. split; [reflexivity|].
  split; [reflexivity|]. vm_compute. reflexivity.
Qed.


(** ** The Fourier sampler in binary64 and binary32, single coefficient *)




(** ** Running the spline routines on a located segment *)

Lemma deriv0_defined x f idx x0 x1 f0 f1 :
  size x = size f -> (0 <= idx <= size x - 2)%Z ->
  exists d0, deriv0 x f idx x0 x1 f0 f1 = Some d0.
Proof.
  intros Hs Hi. unfold deriv0.
  destruct (Z.gtb_spec idx 0); [|eauto].
  destruct (aref_in_range f (idx - 1)) as [fm ->]; [lia|].
  destruct (aref_in_range x (idx - 1)) as [xm ->]; [lia|].
  simpl. eauto.
Qed.

Lemma deriv1_defined x f idx x0 x1 f0 f1 :
  size x = size f -> (0 <= idx <= size x - 2)%Z ->
  exists d1, deriv1 x f idx x0 x1 f0 f1 = Some d1.
Proof.
  intros Hs Hi. unfold deriv1.
  destruct (Z.ltb_spec (idx + 2) (size x)); [|eauto].
  destruct (aref_in_range f (idx + 2)) as [fp ->]; [lia|].
  destruct (aref_in_range x (idx + 2)) as [xp ->]; [lia|].
  simpl. eauto.
Qed.

Lemma lookup_segment_defined x f idx :
  size x = size f -> (0 <= idx <= size x - 2)%Z ->
  exists s, lookup_segment x f idx = Some s.
Proof.
  intros Hs Hi. unfold lookup_segment.
  destruct (aref_in_range x idx) as [x0 ->]; [lia|].
  destruct (aref_in_range x (idx + 1)) as [x1 ->]; [lia|].
  destruct (aref_in_range f idx) as [f0 ->]; [lia|].
  destruct (aref_in_range f (idx + 1)) as [f1 ->]; [lia|].
  destruct (deriv0_defined x f idx x0 x1 f0 f1 Hs Hi) as [d0 E0].
  destruct (deriv1_defined x f idx x0 x1 f0 f1 Hs Hi) as [d1 E1].
  simpl. rewrite E0. simpl. rewrite E1. simpl. eauto.
Qed.

Lemma lookup_segment_inv x f idx s :
  lookup_segment x f idx = Some s ->
  aref x idx = Some (seg_x0 s) /\ aref x (idx + 1) = Some (seg_x1 s) /\
  aref f idx = Some (seg_f0 s) /\ aref f (idx + 1) = Some (seg_f1 s) /\
  deriv0 x f idx (seg_x0 s) (seg_x1 s) (seg_f0 s) (seg_f1 s) = Some (seg_d0 s) /\
  deriv1 x f idx (seg_x0 s) (seg_x1 s) (seg_f0 s) (seg_f1 s) = Some (seg_d1 s).
Proof.
  unfold lookup_segment.
  destruct (aref x idx) as [x0|]; [|discriminate].
  destruct (aref x (idx + 1)) as [x1|]; [|discriminate].
  destruct (aref f idx) as [f0|]; [|discriminate].
  destruct (aref f (idx + 1)) as [f1|]; [|discriminate].
  simpl.
  destruct (deriv0 x f idx x0 x1 f0 f1) as [d0|] eqn:E0; [|discriminate].
  destruct (deriv1 x f idx x0 x1 f0 f1) as [d1|] eqn:E1; [|discriminate].
  simpl. intros H. injection H as <-. simpl. repeat split; assumption.
Qed.

(** [CatmullRom] inside the domain: the Hermite cubic of the located
    segment at [t = (x - x0) / (x1 - x0)]. *)
Lemma CatmullRom_segment nodes values x lo hi s :
  size nodes = size values ->
  front nodes = Some lo -> back nodes = Some hi ->
  in_domain lo hi x = true ->
  lookup_segment nodes values
    (GetIntArrayerval (size nodes) (le_pred nodes x)) = Some s ->
  CatmullRom nodes values x =
    Some (Fhat_hermite (seg_f0 s) (seg_f1 s) (seg_d0 s) (seg_d1 s)
            ((x - seg_x0 s) / (seg_x1 s - seg_x0 s))).
Proof.
  intros Hs Hlo Hhi Hin Hseg.
  apply lookup_segment_inv in Hseg.
  destruct Hseg as (E0 & E1 & E2 & E3 & E4 & E5).
  unfold CatmullRom. rewrite Hs, Z.eqb_refl. simpl negb. cbv iota.
  rewrite <- Hs. rewrite Hlo, Hhi. unfold bind at 1 2. rewrite Hin.
  simpl negb. cbv iota zeta.
  rewrite E0, E1, E2, E3. unfold bind at 1 2 3 4.
  rewrite E4, E5. reflexivity.
Qed.

Lemma in_domain_true lo hi x : in_domain lo hi x = true <-> lo <= x /\ x <= hi.
Proof.
  unfold in_domain. rewrite andb_true_iff, !Qle_bool_iff. tauto.
Qed.

(** [CatmullRomWeights] inside the domain: the offset and the buffer it
    leaves behind. *)
Lemma CatmullRomWeights_run nodes x off a0 a1 a2 a3 rest lo hi x0 x1 xm xp :
  front nodes = Some lo -> back nodes = Some hi ->
  in_domain lo hi x = true ->
  let idx := GetIntArrayerval (size nodes) (le_pred nodes x) in
  aref nodes idx = Some x0 -> aref nodes (idx + 1) = Some x1 ->
  ((0 < idx)%Z -> aref nodes (idx - 1) = Some xm) ->
  ((idx + 2 < size nodes)%Z -> aref nodes (idx + 2) = Some xp) ->
  CatmullRomWeights nodes x off (a0 :: a1 :: a2 :: a3 :: rest) =
    Some (true, (idx - 1)%Z,
          final_weights (negb (idx >? 0)%Z) (negb (idx + 2 <? size nodes)%Z)
            x0 x1 xm xp ((x - x0) / (x1 - x0)) ++ rest).
Proof.
  intros Hlo Hhi Hin idx E0 E1 Em Ep.
  unfold CatmullRomWeights.
  assert (Hsz : (size (a0 :: a1 :: a2 :: a3 :: rest) <? 4)%Z = false).
  { apply Z.ltb_ge. unfold size. simpl length. lia. }
  rewrite Hsz. rewrite Hlo, Hhi. unfold bind at 1 2. rewrite Hin.
  simpl negb. cbv iota zeta. fold idx.
  rewrite E0, E1. unfold bind at 1 2.
  unfold final_weights, w0_local, w3_local.
  destruct (Z.gtb_spec idx 0) as [Hpos|Hz];
    destruct (Z.ltb_spec (idx + 2) (size nodes)) as [Hlt|Hge];
    try rewrite (Em Hpos); try rewrite (Ep Hlt); reflexivity.
Qed.

Lemma size_ge4 (ws : list Float) :
  (4 <= size ws)%Z -> exists a0 a1 a2 a3 rest, ws = a0 :: a1 :: a2 :: a3 :: rest.
Proof.
  unfold size. intros H.
  destruct ws as [|a0 [|a1 [|a2 [|a3 rest]]]]; simpl in H; try lia.
  eauto 6.
Qed.

(** Everything the weight routine looks up for a query inside the domain of
    a strictly increasing node sequence. *)
Lemma located_weights nodes x off ws lo hi :
  increasing nodes -> (2 <= size nodes)%Z -> (4 <= size ws)%Z ->
  front nodes = Some lo -> back nodes = Some hi ->
  lo <= x -> x <= hi ->
  let idx := GetIntArrayerval (size nodes) (le_pred nodes x) in
  exists x0 x1 xm xp,
    CatmullRomWeights nodes x off ws =
      Some (true, (idx - 1)%Z,
            final_weights (negb (idx >? 0)%Z) (negb (idx + 2 <? size nodes)%Z)
              x0 x1 xm xp ((x - x0) / (x1 - x0)) ++ skipn 4 ws) /\
    (0 <= idx <= size nodes - 2)%Z /\
    aref nodes idx = Some x0 /\ aref nodes (idx + 1) = Some x1 /\
    x0 <= x /\ x <= x1 /\ x0 < x1 /\
    ((0 < idx)%Z -> aref nodes (idx - 1) = Some xm /\ xm < x0) /\
    ((idx + 2 < size nodes)%Z -> aref nodes (idx + 2) = Some xp /\ x1 < xp).
Proof.
  intros Hinc Hn Hw Hlo Hhi Hlx Hxh idx.
  destruct (size_ge4 ws Hw) as (a0 & a1 & a2 & a3 & rest & ->).
  destruct (segment_locate nodes x lo hi Hinc Hn Hlo Hhi Hlx Hxh)
    as (Hidx & x0 & x1 & E0 & E1 & H0x & Hx1 & H01).
  fold idx in Hidx, E0, E1.
  assert (Hm : exists xm, (0 < idx)%Z -> aref nodes (idx - 1) = Some xm /\ xm < x0).
  { destruct (Z_lt_le_dec 0 idx) as [Hp|Hp].
    - destruct (aref_in_range nodes (idx - 1)) as [xm Em]; [lia|].
      exists xm. intros _. split; [exact Em|].
      apply (Hinc (idx - 1)%Z idx); auto; lia.
    - exists 0. intros. lia. }
  assert (Hp : exists xp, (idx + 2 < size nodes)%Z ->
                          aref nodes (idx + 2) = Some xp /\ x1 < xp).
  { destruct (Z_lt_le_dec (idx + 2) (size nodes)) as [Hl|Hl].
    - destruct (aref_in_range nodes (idx + 2)) as [xp Ep]; [lia|].
      exists xp. intros _. split; [exact Ep|].
      apply (Hinc (idx + 1)%Z (idx + 2)%Z); auto; lia.
    - exists 0. intros. lia. }
  destruct Hm as [xm Hm]. destruct Hp as [xp Hp].
  exists x0, x1, xm, xp.
  split.
  { simpl skipn.
    apply (CatmullRomWeights_run nodes x off a0 a1 a2 a3 rest lo hi); auto.
    - apply in_domain_true. auto.
    - intros H. apply Hm. exact H.
    - intros H. apply Hp. exact H. }
  split; [exact Hidx|]. split; [exact E0|]. split; [exact E1|].
  split; [exact H0x|]. split; [exact Hx1|]. split; [exact H01|].
  split; assumption.
Qed.

Lemma final_weights_sum first last x0 x1 xm xp t :
  exists w0 w1 w2 w3,
    final_weights first last x0 x1 xm xp t = [w0; w1; w2; w3] /\
    w0 + w1 + w2 + w3 == 1.
Proof.
  unfold final_weights. do 4 eexists. split; [reflexivity|].
  destruct first, last; cbv zeta; ring.
Qed.

(** In exact arithmetic the four weights sum to 1. *)
Lemma CatmullRomWeights_exact_sum :
  forall (nodes : list Float) (x : Float) (off : Z) (ws : list Float)
         (lo hi : Float),
    increasing nodes -> (2 <= size nodes)%Z -> (4 <= size ws)%Z ->
    front nodes = Some lo -> back nodes = Some hi ->
    exists (ok : bool) (off' : Z) (ws' : list Float),
      CatmullRomWeights nodes x off ws = Some (ok, off', ws') /\
      (ok = true <-> lo <= x /\ x <= hi) /\
      (ok = false -> off' = off /\ ws' = ws) /\
      (ok = true ->
       exists w0 w1 w2 w3,
         ws' = w0 :: w1 :: w2 :: w3 :: skipn 4 ws /\
         w0 + w1 + w2 + w3 == 1).
Proof.
  intros nodes x off ws lo hi Hinc Hn Hw Hlo Hhi.
  destruct (in_domain lo hi x) eqn:Hin.
  - apply in_domain_true in Hin. destruct Hin as [Hlx Hxh].
    destruct (located_weights nodes x off ws lo hi Hinc Hn Hw Hlo Hhi Hlx Hxh)
      as (x0 & x1 & xm & xp & Hrun & _).
    destruct (final_weights_sum
      (negb (GetIntArrayerval (size nodes) (le_pred nodes x) >? 0)%Z)
      (negb (GetIntArrayerval (size nodes) (le_pred nodes x) + 2 <? size nodes)%Z)
      x0 x1 xm xp ((x - x0) / (x1 - x0))) as (w0 & w1 & w2 & w3 & Efw & Hsum).
    rewrite Efw in Hrun.
    eexists true, _, _. split; [exact Hrun|].
    split; [tauto|]. split; [discriminate|]. intros _.
    exists w0, w1, w2, w3. split; [reflexivity|exact Hsum].
  - exists false, off, ws. split.
    + unfold CatmullRomWeights.
      assert (Hsz : (size ws <? 4)%Z = false) by (apply Z.ltb_ge; lia).
      rewrite Hsz, Hlo, Hhi. unfold bind. rewrite Hin. reflexivity.
    + split; [|split; [auto|discriminate]].
      split; [discriminate|]. intros H. apply in_domain_true in H. congruence.
Qed.

(** C6 (as amended).  For a node sequence of length at least 2 and a weight
    buffer of capacity at least 4, [CatmullRomWeights] returns [true]
    exactly when [x] lies in [[nodes.front(), nodes.back()]], and when it
    returns [false] the offset and the buffer are left as they were: in the
    binary32 arithmetic of the code, whatever the rounding does (first
    part), and in exact arithmetic (second part).  When it returns [true]
    the four weights it wrote sum to 1 in exact arithmetic, for strictly
    increasing nodes (second part); in binary32 the routine writes the
    offset [idx - 1] and four weights, whose sum can differ from 1 by
    rounding. *)
Theorem CatmullRomWeights_domain_and_sum :
  (forall (nodes : list Binary32.float32) (x : Binary32.float32) (off : Z)
          (ws : list Binary32.float32) (lo hi : Binary32.float32),
     (2 <= Binary32.size32 nodes)%Z -> (4 <= Binary32.size32 ws)%Z ->
     Binary32.at32 nodes 0 = Binary32.Returned lo ->
     Binary32.at32 nodes (Binary32.size32 nodes - 1) = Binary32.Returned hi ->
     exists (ok : bool) (off' : Z) (ws' : list Binary32.float32),
       Binary32.CatmullRomWeights nodes x off ws
         = Binary32.Returned (ok, off', ws') /\
       (ok = true <->
        Binary32.fle lo x = true /\ Binary32.fle x hi = true) /\
       (ok = false -> off' = off /\ ws' = ws) /\
       (ok = true ->
        off' = (GetIntArrayerval (Binary32.size32 nodes)
                  (Binary32.le_pred32 nodes x) - 1)%Z /\
        exists w0 w1 w2 w3, ws' = w0 :: w1 :: w2 :: w3 :: skipn 4 ws)) /\
  (forall (nodes : list Float) (x : Float) (off : Z) (ws : list Float)
          (lo hi : Float),
     increasing nodes -> (2 <= size nodes)%Z -> (4 <= size ws)%Z ->
     front nodes = Some lo -> back nodes = Some hi ->
     exists (ok : bool) (off' : Z) (ws' : list Float),
       CatmullRomWeights nodes x off ws = Some (ok, off', ws') /\
       (ok = true <-> lo <= x /\ x <= hi) /\
       (ok = false -> off' = off /\ ws' = ws) /\
       (ok = true ->
        exists w0 w1 w2 w3,
          ws' = w0 :: w1 :: w2 :: w3 :: skipn 4 ws /\
          w0 + w1 + w2 + w3 == 1)).
Proof.
  split.
  - exact CatmullRomWeights_binary32_domain.
  - exact CatmullRomWeights_exact_sum.
Qed.

(** C6, the claim as stated, fails in the binary32 arithmetic of the code:
    for the nodes [{0,1,2,3}] and [x = 0.325f] the routine returns [true]
    and the four weights it wrote do not sum to 1, neither accumulated in
    binary32 nor as the numbers they are, whose sum is
    [33554429 / 33554432]. *)
Lemma CatmullRomWeights_sum_not_one :
  exists w0 w1 w2 w3 q0 q1 q2 q3,
    Binary32.CatmullRomWeights Binary32.scenario_nodes Binary32.x_0_325 0
      [Binary32.f0_; Binary32.f0_; Binary32.f0_; Binary32.f0_]
      = Binary32.Returned (true, (-1)%Z, [w0; w1; w2; w3]) /\
    Binary32.feq (w0 + w1 + w2 + w3)%f32 Binary32.f1_ = false /\
    Binary32.to_Q w0 = Some q0 /\ Binary32.to_Q w1 = Some q1 /\
    Binary32.to_Q w2 = Some q2 /\ Binary32.to_Q w3 = Some q3 /\
    q0 + q1 + q2 + q3 == 33554429 # 33554432 /\
    ~ q0 + q1 + q2 + q3 == 1.
Proof.
  destruct weights_binary32_at_0_325
    as (w0 & w1 & w2 & w3 & q0 & q1 & q2 & q3 & H & Hs & E0 & E1 & E2 & E3 & Hq).
  exists w0, w1, w2, w3, q0, q1, q2, q3.
  do 7 (split; [assumption|]).
  rewrite Hq. intros H1. vm_compute in H1. discriminate.
Qed.

(** ** Point evaluation at the nodes and outside the domain *)

Lemma hermite_at_0 f0 f1 d0 d1 t :
  t == 0 -> Fhat_hermite f0 f1 d0 d1 t == f0.
Proof. intros H. unfold Fhat_hermite. cbv zeta. rewrite H. ring. Qed.

Lemma hermite_at_1 f0 f1 d0 d1 t :
  t == 1 -> Fhat_hermite f0 f1 d0 d1 t == f1.
Proof. intros H. unfold Fhat_hermite. cbv zeta. rewrite H. ring. Qed.

Lemma increasing_le nodes i j u v :
  increasing nodes -> (0 <= i <= j)%Z ->
  aref nodes i = Some u -> aref nodes j = Some v -> u <= v.
Proof.
  intros Hinc Hij Eu Ev.
  destruct (Z.eq_dec i j) as [->|Hne].
  - assert (u = v) by congruence. subst. lra.
  - apply Qlt_le_weak. apply (Hinc i j); auto; lia.
Qed.

(** For a query equal to node [i], the predicate [nodes[j] <= x] is true
    exactly on the indices up to [i]. *)
Lemma le_pred_node_threshold nodes x i xi :
  increasing nodes -> aref nodes i = Some xi -> x == xi ->
  forall j, (0 <= j < size nodes)%Z ->
    (le_pred nodes x j = true <-> (j <= i)%Z).
Proof.
  intros Hinc Ei Hx j Hj.
  destruct (aref_in_range nodes j Hj) as [xj Ej].
  rewrite (le_pred_at _ _ _ _ Ej). rewrite Qle_bool_iff.
  pose proof (aref_Some_range _ _ _ Ei) as Hi.
  split.
  - intros Hle. destruct (Z_le_gt_dec j i) as [H|H]; [exact H|].
    assert (xi < xj) by (apply (Hinc i j); auto; lia). lra.
  - intros Hle.
    assert (xj <= xi) by (apply (increasing_le nodes j i); auto; lia). lra.
Qed.




(** ** Weighted evaluation *)

Lemma weighted_term_spec ws values off j w v :
  aref ws j = Some w ->
  (~ w == 0 -> aref values (off + j) = Some v) ->
  exists s, weighted_term ws values off j = Some s /\ s == w * v.
Proof.
  intros Ew Ev. unfold weighted_term. rewrite Ew. unfold bind at 1.
  destruct (Qeq_bool w 0) eqn:E.
  - apply Qeq_bool_iff in E. exists 0. split; [reflexivity|].
    rewrite E. ring.
  - apply Qeq_bool_neq in E. rewrite (Ev E). simpl. eexists. split; reflexivity.
Qed.

Lemma interpolate_step ws off n2 array idx i js value w :
  aref ws i = Some w ->
  (~ w == 0 -> exists v, aref array ((off + i) * n2 + idx) = Some v) ->
  exists value',
    interpolate_from ws off n2 array idx (i :: js) value =
    interpolate_from ws off n2 array idx js value'.
Proof.
  intros Ew Ev. simpl. rewrite Ew. unfold bind at 1.
  destruct (Qeq_bool w 0) eqn:E; simpl.
  - eauto.
  - apply Qeq_bool_neq in E. destruct (Ev E) as [v ->]. simpl. eauto.
Qed.

(** Reads guarded by non-zero weights stay inside a value array once every
    index [off + j] with [ws[j] != 0] is in bounds. *)
Lemma guarded_weighted_sum_defined ws off values :
  (4 <= size ws)%Z ->
  (forall j w, (0 <= j <= 3)%Z -> aref ws j = Some w -> ~ w == 0 ->
               (0 <= off + j < size values)%Z) ->
  exists v, weighted_sum ws values off = Some v.
Proof.
  intros Hw Hb. unfold weighted_sum.
  assert (Hterm : forall j, (0 <= j <= 3)%Z ->
            exists s, weighted_term ws values off j = Some s).
  { intros j Hj. destruct (aref_in_range ws j) as [w Ew]; [lia|].
    destruct (Qeq_bool w 0) eqn:E.
    - unfold weighted_term. rewrite Ew. simpl. rewrite E. eauto.
    - apply Qeq_bool_neq in E.
      destruct (aref_in_range values (off + j)) as [v Ev]; [eapply Hb; eauto|].
      destruct (weighted_term_spec ws values off j w v Ew) as (s & Es & _);
        eauto. }
  destruct (Hterm 0%Z) as [s0 ->]; [lia|].
  destruct (Hterm 1%Z) as [s1 ->]; [lia|].
  destruct (Hterm 2%Z) as [s2 ->]; [lia|].
  destruct (Hterm 3%Z) as [s3 ->]; [lia|].
  simpl. eauto.
Qed.

Lemma guarded_interpolate_defined ws off n n2 array idx :
  (4 <= size ws)%Z ->
  (forall j w, (0 <= j <= 3)%Z -> aref ws j = Some w -> ~ w == 0 ->
               (0 <= off + j < n)%Z) ->
  (0 <= idx < n2)%Z -> size array = (n * n2)%Z ->
  exists v, interpolate ws off n2 array idx = Some v.
Proof.
  intros Hw Hb Hidx Hsz. unfold interpolate.
  assert (Hstep : forall i js value, (0 <= i <= 3)%Z ->
            exists value',
              interpolate_from ws off n2 array idx (i :: js) value =
              interpolate_from ws off n2 array idx js value').
  { intros i js value Hi. destruct (aref_in_range ws i) as [w Ew]; [lia|].
    apply (interpolate_step ws off n2 array idx i js value w Ew).
    intros Hne. apply aref_in_range.
    pose proof (Hb i w Hi Ew Hne). rewrite Hsz. nia. }
  destruct (Hstep 0%Z [1; 2; 3]%Z 0) as [v0 ->]; [lia|].
  destruct (Hstep 1%Z [2; 3]%Z v0) as [v1 ->]; [lia|].
  destruct (Hstep 2%Z [3]%Z v1) as [v2 ->]; [lia|].
  destruct (Hstep 3%Z [] v2) as [v3 ->]; [lia|].
  simpl. eauto.
Qed.

Lemma aref_app_small (l rest : list Float) j :
  (0 <= j < size l)%Z -> aref (l ++ rest) j = aref l j.
Proof.
  unfold aref, size. intros H. destruct (Z.ltb_spec j 0); [lia|].
  apply nth_error_app1. lia.
Qed.

(** C10.  For a strictly increasing node sequence of length [n >= 2] and a
    query inside its domain, [CatmullRomWeights] produces an offset in
    [[-1, n-3]], with [weights[0] = 0] whenever the offset is [-1] and
    [weights[3] = 0] whenever [offset + 3 = n]; hence every index
    [offset + j] with [weights[j] != 0] lies in [[0, n-1]], and the weighted
    evaluation and the [interpolate] helper of the 2D sampler, which skip
    zero weights, read no value entry out of bounds. *)
Theorem CatmullRomWeights_offset_in_bounds :
  forall (nodes : list Float) (x : Float) (off : Z) (ws : list Float)
         (lo hi : Float),
    increasing nodes -> (2 <= size nodes)%Z -> (4 <= size ws)%Z ->
    front nodes = Some lo -> back nodes = Some hi ->
    lo <= x -> x <= hi ->
    exists (off' : Z) (ws' : list Float),
      CatmullRomWeights nodes x off ws = Some (true, off', ws') /\
      (-1 <= off' <= size nodes - 3)%Z /\
      (off' = (-1)%Z -> aref ws' 0 = Some 0) /\
      ((off' + 3)%Z = size nodes -> aref ws' 3 = Some 0) /\
      (forall j w, (0 <= j <= 3)%Z -> aref ws' j = Some w -> ~ w == 0 ->
                   (0 <= off' + j <= size nodes - 1)%Z) /\
      (forall values, size values = size nodes ->
                      exists v, weighted_sum ws' values off' = Some v) /\
      (forall n2 array idx,
          (0 <= idx < n2)%Z -> size array = (size nodes * n2)%Z ->
          exists v, interpolate ws' off' n2 array idx = Some v).
Proof.
  intros nodes x off ws lo hi Hinc Hn Hw Hlo Hhi Hlx Hxh.
  destruct (located_weights nodes x off ws lo hi Hinc Hn Hw Hlo Hhi Hlx Hxh)
    as (x0 & x1 & xm & xp & Hrun & Hidx & _).
  set (idx := GetIntArrayerval (size nodes) (le_pred nodes x)) in *.
  eexists _, _. split; [exact Hrun|].
  set (fw := final_weights _ _ x0 x1 xm xp _).
  assert (H0 : (idx - 1)%Z = (-1)%Z -> aref (fw ++ skipn 4 ws) 0 = Some 0).
  { intros H. assert (Hz : (idx >? 0)%Z = false) by (destruct (Z.gtb_spec idx 0); [lia|reflexivity]).
    unfold fw. rewrite Hz. reflexivity. }
  assert (H3 : (idx - 1 + 3)%Z = size nodes -> aref (fw ++ skipn 4 ws) 3 = Some 0).
  { intros H. assert (Hz : (idx + 2 <? size nodes)%Z = false) by (apply Z.ltb_ge; lia).
    unfold fw. rewrite Hz. reflexivity. }
  assert (Hb : forall j w, (0 <= j <= 3)%Z -> aref (fw ++ skipn 4 ws) j = Some w ->
                 ~ w == 0 -> (0 <= idx - 1 + j <= size nodes - 1)%Z).
  { intros j w Hj Ew Hne.
    destruct (Z.eq_dec j 0) as [->|Hj0].
    - destruct (Z.eq_dec idx 0) as [Hi0|Hi0]; [|lia].
      rewrite H0 in Ew by lia. injection Ew as <-. exfalso. apply Hne. reflexivity.
    - destruct (Z.eq_dec j 3) as [->|Hj3]; [|lia].
      destruct (Z.eq_dec (idx + 2) (size nodes)) as [Hl|Hl]; [|lia].
      rewrite H3 in Ew by lia. injection Ew as <-. exfalso. apply Hne. reflexivity. }
  assert (Hsz : (4 <= size (fw ++ skipn 4 ws))%Z).
  { unfold size. rewrite length_app. unfold fw, final_weights. simpl length. lia. }
  split; [lia|]. split; [exact H0|]. split; [exact H3|]. split; [exact Hb|].
  split.
  - intros values Hv. apply guarded_weighted_sum_defined; [exact Hsz|].
    intros j w Hj Ew Hne. rewrite Hv. pose proof (Hb j w Hj Ew Hne). lia.
  - intros n2 array i Hi Harr.
    apply (guarded_interpolate_defined _ _ (size nodes)); auto.
    intros j w Hj Ew Hne. pose proof (Hb j w Hj Ew Hne). lia.
Qed.

(** ** The weights reproduce point evaluation *)

Lemma deriv0_inv x f idx x0 x1 f0 f1 d0 :
  deriv0 x f idx x0 x1 f0 f1 = Some d0 ->
  if (idx >? 0)%Z
  then exists fm xm, aref f (idx - 1) = Some fm /\ aref x (idx - 1) = Some xm /\
                     d0 = (x1 - x0) * (f1 - fm) / (x1 - xm)
  else d0 = f1 - f0.
Proof.
  unfold deriv0. destruct (idx >? 0)%Z.
  - destruct (aref f (idx - 1)) as [fm|]; [|discriminate].
    destruct (aref x (idx - 1)) as [xm|]; [|discriminate].
    simpl. intros H. injection H as <-. eauto.
  - intros H. injection H as <-. reflexivity.
Qed.

Lemma deriv1_inv x f idx x0 x1 f0 f1 d1 :
  deriv1 x f idx x0 x1 f0 f1 = Some d1 ->
  if (idx + 2 <? size x)%Z
  then exists fp xp, aref f (idx + 2) = Some fp /\ aref x (idx + 2) = Some xp /\
                     d1 = (x1 - x0) * (fp - f0) / (xp - x0)
  else d1 = f1 - f0.
Proof.
  unfold deriv1. destruct (idx + 2 <? size x)%Z.
  - destruct (aref f (idx + 2)) as [fp|]; [|discriminate].
    destruct (aref x (idx + 2)) as [xp|]; [|discriminate].
    simpl. intros H. injection H as <-. eauto.
  - intros H. injection H as <-. reflexivity.
Qed.

(** In exact arithmetic the weighted sum is the value of [CatmullRom]. *)
Lemma CatmullRomWeights_exact_reproduces :
  forall (nodes values : list Float) (x : Float) (off : Z) (ws : list Float)
         (lo hi : Float),
    increasing nodes -> (2 <= size nodes)%Z -> size nodes = size values ->
    (4 <= size ws)%Z ->
    front nodes = Some lo -> back nodes = Some hi ->
    lo <= x -> x <= hi ->
    exists (off' : Z) (ws' : list Float) (v c : Float),
      CatmullRomWeights nodes x off ws = Some (true, off', ws') /\
      weighted_sum ws' values off' = Some v /\
      CatmullRom nodes values x = Some c /\
      v == c.
Proof.
  intros nodes values x off ws lo hi Hinc Hn Hs Hw Hlo Hhi Hlx Hxh.
  destruct (located_weights nodes x off ws lo hi Hinc Hn Hw Hlo Hhi Hlx Hxh)
    as (x0 & x1 & xm & xp & Hrun & Hidx & E0 & E1 & _ & _ & H01 & Hm & Hp).
  set (idx := GetIntArrayerval (size nodes) (le_pred nodes x)) in *.
  destruct (lookup_segment_defined nodes values idx Hs Hidx) as [s Hseg].
  assert (Hin : in_domain lo hi x = true) by (apply in_domain_true; auto).
  pose proof (CatmullRom_segment nodes values x lo hi s Hs Hlo Hhi Hin Hseg) as HCR.
  apply lookup_segment_inv in Hseg.
  destruct Hseg as (S0 & S1 & S2 & S3 & S4 & S5).
  destruct s as [sx0 sx1 f0 f1 d0 d1]. simpl in S0, S1, S2, S3, S4, S5, HCR.
  assert (sx0 = x0) by congruence. assert (sx1 = x1) by congruence.
  subst sx0 sx1.
  apply deriv0_inv in S4. apply deriv1_inv in S5.
  set (t := (x - x0) / (x1 - x0)) in *.
  (* the value entries next to the segment, where they exist *)
  assert (Hfm : exists fm, (0 < idx)%Z -> aref values (idx - 1) = Some fm).
  { destruct (Z_lt_le_dec 0 idx).
    - destruct (aref_in_range values (idx - 1)) as [fm E]; [lia|]. eauto.
    - exists 0. intros. lia. }
  assert (Hfp : exists fp, (idx + 2 < size nodes)%Z ->
                           aref values (idx + 2) = Some fp).
  { destruct (Z_lt_le_dec (idx + 2) (size nodes)).
    - destruct (aref_in_range values (idx + 2)) as [fp E]; [lia|]. eauto.
    - exists 0. intros. lia. }
  destruct Hfm as [fm Hfm]. destruct Hfp as [fp Hfp].
  set (fw := final_weights (negb (idx >? 0)%Z) (negb (idx + 2 <? size nodes)%Z)
               x0 x1 xm xp t) in *.
  destruct (final_weights_sum (negb (idx >? 0)%Z) (negb (idx + 2 <? size nodes)%Z)
              x0 x1 xm xp t) as (w0 & w1 & w2 & w3 & Efw & _).
  fold fw in Efw.
  assert (A0 : aref (fw ++ skipn 4 ws) 0 = Some w0) by (rewrite Efw; reflexivity).
  assert (A1 : aref (fw ++ skipn 4 ws) 1 = Some w1) by (rewrite Efw; reflexivity).
  assert (A2 : aref (fw ++ skipn 4 ws) 2 = Some w2) by (rewrite Efw; reflexivity).
  assert (A3 : aref (fw ++ skipn 4 ws) 3 = Some w3) by (rewrite Efw; reflexivity).
  unfold fw, final_weights in Efw. injection Efw as W0 W1 W2 W3.
  destruct (weighted_term_spec _ values (idx - 1) 0 w0 fm A0) as (s0 & T0 & V0).
  { intros Hne. replace (idx - 1 + 0)%Z with (idx - 1)%Z by lia. apply Hfm.
    destruct (Z.gtb_spec idx 0) as [G|G]; [lia|].
    simpl in W0. exfalso. apply Hne. rewrite <- W0. reflexivity. }
  destruct (weighted_term_spec _ values (idx - 1) 1 w1 f0 A1) as (s1 & T1 & V1).
  { intros _. replace (idx - 1 + 1)%Z with idx by lia. exact S2. }
  destruct (weighted_term_spec _ values (idx - 1) 2 w2 f1 A2) as (s2 & T2 & V2).
  { intros _. replace (idx - 1 + 2)%Z with (idx + 1)%Z by lia. exact S3. }
  destruct (weighted_term_spec _ values (idx - 1) 3 w3 fp A3) as (s3 & T3 & V3).
  { intros Hne. replace (idx - 1 + 3)%Z with (idx + 2)%Z by lia. apply Hfp.
    destruct (Z.ltb_spec (idx + 2) (size nodes)) as [G|G]; [lia|].
    simpl in W3. exfalso. apply Hne. rewrite <- W3. reflexivity. }
  eexists _, _, _, _. split; [exact Hrun|]. split.
  { unfold weighted_sum. rewrite T0, T1, T2, T3. reflexivity. }
  split; [exact HCR|].
  rewrite V0, V1, V2, V3. rewrite <- W0, <- W1, <- W2, <- W3.
  unfold Fhat_hermite, w0_local, w3_local. cbv zeta.
  destruct (Z.gtb_spec idx 0) as [G0|G0];
    destruct (Z.ltb_spec (idx + 2) (size nodes)) as [G1|G1]; simpl negb; cbv iota.
  - destruct S4 as (fm' & xm' & Efm & Exm & ->).
    destruct S5 as (fp' & xp' & Efp & Exp & ->).
    destruct (Hm G0) as [Exm2 Hlt0]. destruct (Hp G1) as [Exp2 Hlt1].
    rewrite (Hfm G0) in Efm. rewrite (Hfp G1) in Efp.
    assert (xm' = xm) by congruence. assert (xp' = xp) by congruence.
    assert (fm' = fm) by congruence. assert (fp' = fp) by congruence.
    subst. field. repeat split; lra.
  - destruct S4 as (fm' & xm' & Efm & Exm & ->). subst d1.
    destruct (Hm G0) as [Exm2 Hlt0].
    rewrite (Hfm G0) in Efm.
    assert (xm' = xm) by congruence. assert (fm' = fm) by congruence.
    subst. field. repeat split; lra.
  - subst d0. destruct S5 as (fp' & xp' & Efp & Exp & ->).
    destruct (Hp G1) as [Exp2 Hlt1].
    rewrite (Hfp G1) in Efp.
    assert (xp' = xp) by congruence. assert (fp' = fp) by congruence.
    subst. field. repeat split; lra.
  - subst d0 d1. ring.
Qed.

(** C1 (as amended).  For a node sequence of length at least 2, a value
    sequence of the same length and [x] in
    [[nodes.front(), nodes.back()]], [CatmullRomWeights] returns [true]
    with an offset and four weights for which the sum over [j] in
    [{0,1,2,3}] with [weights[j] != 0] of
    [weights[j] * values[offset + j]] reads no entry out of bounds, and
    [CatmullRom(nodes, values, x)] returns: in the binary32 arithmetic of
    the code, whatever the rounding does (first part).  For strictly
    increasing nodes the sum equals [CatmullRom(nodes, values, x)] in exact
    arithmetic (second part); in binary32 the two can differ, by rounding,
    or because one of them is a NaN where an intermediate overflows. *)
Theorem CatmullRomWeights_reproduces_CatmullRom :
  (forall (nodes values : list Binary32.float32) (x : Binary32.float32)
          (off : Z) (ws : list Binary32.float32)
          (lo hi : Binary32.float32),
     (2 <= Binary32.size32 nodes)%Z ->
     Binary32.size32 nodes = Binary32.size32 values ->
     (4 <= Binary32.size32 ws)%Z ->
     Binary32.at32 nodes 0 = Binary32.Returned lo ->
     Binary32.at32 nodes (Binary32.size32 nodes - 1) = Binary32.Returned hi ->
     Binary32.fle lo x = true -> Binary32.fle x hi = true ->
     exists (off' : Z) (ws' : list Binary32.float32)
            (v c : Binary32.float32),
       Binary32.CatmullRomWeights nodes x off ws
         = Binary32.Returned (true, off', ws') /\
       Binary32.weighted_sum ws' values off' = Binary32.Returned v /\
       Binary32.CatmullRom nodes values x = Binary32.Returned c) /\
  (forall (nodes values : list Float) (x : Float) (off : Z)
          (ws : list Float) (lo hi : Float),
     increasing nodes -> (2 <= size nodes)%Z -> size nodes = size values ->
     (4 <= size ws)%Z ->
     front nodes = Some lo -> back nodes = Some hi ->
     lo <= x -> x <= hi ->
     exists (off' : Z) (ws' : list Float) (v c : Float),
       CatmullRomWeights nodes x off ws = Some (true, off', ws') /\
       weighted_sum ws' values off' = Some v /\
       CatmullRom nodes values x = Some c /\
       v == c).
Proof.
  split.
  - exact CatmullRomWeights_binary32_evaluates.
  - exact CatmullRomWeights_exact_reproduces.
Qed.

(** C1, the claim as stated, fails in the binary32 arithmetic of the code.
    For the nodes [{0,1,2,3}], the values [{0,1,0,1}] and [x = 2.6f] the
    weighted sum is [8455714 * 2^-24] and [CatmullRom] returns
    [8455715 * 2^-24]; for the nodes [{0, 2^66, 2^67}], the values
    [{0, 2^63, 2^64}] and [x = 2^66] the weighted sum is [2^63] and
    [CatmullRom] returns a NaN. *)
Lemma CatmullRomWeights_differs_from_CatmullRom :
  (exists ws v c,
     Binary32.CatmullRomWeights Binary32.scenario_nodes Binary32.x_2_6 0
       [Binary32.f0_; Binary32.f0_; Binary32.f0_; Binary32.f0_]
       = Binary32.Returned (true, 1%Z, ws) /\
     Binary32.weighted_sum ws Binary32.scenario_values 1
       = Binary32.Returned v /\
     Binary32.CatmullRom Binary32.scenario_nodes Binary32.scenario_values
       Binary32.x_2_6 = Binary32.Returned c /\
     v = S754_finite false 8455714 (-24) /\
     c = S754_finite false 8455715 (-24) /\
     Binary32.feq v c = false) /\
  (exists ws v c,
     Binary32.CatmullRomWeights Binary32.large_nodes
       (Binary32.of_Z (2 ^ 66)) 0
       [Binary32.f0_; Binary32.f0_; Binary32.f0_; Binary32.f0_]
       = Binary32.Returned (true, 0%Z, ws) /\
     Binary32.weighted_sum ws Binary32.large_values 0
       = Binary32.Returned v /\
     Binary32.CatmullRom Binary32.large_nodes Binary32.large_values
       (Binary32.of_Z (2 ^ 66)) = Binary32.Returned c /\
     v = Binary32.of_Z (2 ^ 63) /\
     c = S754_nan /\
     Binary32.feq v c = false).
Proof.
  split.
  - exact weights_binary32_at_2_6.
  - destruct weights_binary32_large as (ws & v & c & H1 & H2 & H3 & -> & ->).
    exists ws, (Binary32.of_Z (2 ^ 63)), S754_nan.
    repeat (split; [assumption || reflexivity|]). reflexivity.
Qed.

(** ** Writes to a buffer *)

Lemma set_nth_spec (a : list Float) :
  forall (n : nat) (v : Float), (n < length a)%nat ->
    exists a', set_nth a n v = Some a' /\ length a' = length a /\
               nth_error a' n = Some v /\
               (forall m, m <> n -> nth_error a' m = nth_error a m).
Proof.
  induction a as [|h tl IH]; intros n v Hn; simpl in Hn; [lia|].
  destruct n as [|n].
  - exists (v :: tl). simpl. repeat split; auto.
    intros [|m] Hm; [congruence|reflexivity].
  - destruct (IH n v) as (tl' & E & L & G & O); [lia|].
    exists (h :: tl'). simpl. rewrite E. simpl. repeat split; auto.
    intros [|m] Hm; [reflexivity|]. simpl. apply O. congruence.
Qed.

Lemma aset_spec (a : list Float) (i : Z) (v : Float) :
  (0 <= i < size a)%Z ->
  exists a', aset a i v = Some a' /\ size a' = size a /\
             aref a' i = Some v /\
             (forall j, j <> i -> aref a' j = aref a j).
Proof.
  intros Hi. unfold aset, aref, size in *.
  destruct (Z.ltb_spec i 0); [lia|].
  destruct (set_nth_spec a (Z.to_nat i) v) as (a' & E & L & G & O); [lia|].
  exists a'. rewrite L. repeat split; auto.
  intros j Hj. destruct (Z.ltb_spec j 0); [reflexivity|].
  apply O. lia.
Qed.

(** ** The running integral *)

Lemma integrate_loop_step k x values i sum cdf :
  integrate_loop (S k) x values i sum cdf =
  (s <- lookup_segment x values i ;;
   let sum' := sum + ((seg_d0 s - seg_d1 s) * (1 / 12)
                      + (seg_f0 s + seg_f1 s) * 0.5)
                     * (seg_x1 s - seg_x0 s) in
   cdf' <- aset cdf (i + 1) sum' ;;
   integrate_loop k x values (i + 1)%Z sum' cdf').
Proof.
  simpl. unfold lookup_segment.
  destruct (aref x i) as [x0|]; [|reflexivity].
  destruct (aref x (i + 1)) as [x1|]; [|reflexivity].
  destruct (aref values i) as [f0|]; [|reflexivity].
  destruct (aref values (i + 1)) as [f1|]; [|reflexivity].
  simpl.
  destruct (deriv0 x values i x0 x1 f0 f1) as [d0|]; [|reflexivity].
  destruct (deriv1 x values i x0 x1 f0 f1) as [d1|]; reflexivity.
Qed.

Lemma integrate_loop_spec x values :
  size x = size values ->
  forall (k : nat) (i : Z) (sum : Float) (cdf : list Float),
    (0 <= i)%Z -> (i + Z.of_nat k <= size x - 1)%Z ->
    size cdf = size x -> aref cdf i = Some sum ->
    exists total cdf',
      integrate_loop k x values i sum cdf = Some (total, cdf') /\
      size cdf' = size x /\
      (forall j, (0 <= j <= i)%Z -> aref cdf' j = aref cdf j) /\
      (forall j, (i <= j < i + Z.of_nat k)%Z ->
         exists s cj cj1,
           lookup_segment x values j = Some s /\
           aref cdf' j = Some cj /\ aref cdf' (j + 1) = Some cj1 /\
           cj1 == cj + segment_integral s) /\
      aref cdf' (i + Z.of_nat k) = Some total.
Proof.
  intros Hs. induction k as [|k IH]; intros i sum cdf Hi Hik Hc Hsum.
  - exists sum, cdf. simpl. rewrite Z.add_0_r.
    repeat split; auto. intros j Hj. lia.
  - rewrite integrate_loop_step.
    destruct (lookup_segment_defined x values i Hs) as [s Hseg]; [lia|].
    rewrite Hseg. unfold bind at 1. cbv zeta.
    set (sum' := sum + _).
    destruct (aset_spec cdf (i + 1) sum') as (cdf1 & E1 & L1 & G1 & O1); [lia|].
    rewrite E1. unfold bind at 1.
    destruct (IH (i + 1)%Z sum' cdf1) as (total & cdf' & Er & Lr & Pr & Sr & Tr);
      try lia; auto.
    exists total, cdf'. split; [exact Er|]. split; [exact Lr|].
    split; [|split].
    + intros j Hj. rewrite Pr by lia. apply O1. lia.
    + intros j Hj. destruct (Z.eq_dec j i) as [->|Hne].
      * exists s, sum, sum'. split; [exact Hseg|].
        split; [rewrite Pr by lia; rewrite O1 by lia; exact Hsum|].
        split; [rewrite Pr by lia; exact G1|].
        unfold sum', segment_integral. field.
      * apply Sr. lia.
    + replace (i + Z.of_nat (S k))%Z with (i + 1 + Z.of_nat k)%Z by lia.
      exact Tr.
Qed.

(** In exact arithmetic, with the segments as the routines look them up. *)
Lemma IntegrateCatmullRom_exact_recurrence :
  forall (x values cdf0 : list Float),
    increasing x -> (2 <= size x)%Z -> size x = size values ->
    size cdf0 = size x ->
    exists (total : Float) (cdf : list Float),
      IntegrateCatmullRom x values cdf0 = Some (total, cdf) /\
      size cdf = size x /\
      aref cdf 0 = Some 0 /\
      (forall i, (0 <= i <= size x - 2)%Z ->
         exists s ci ci1,
           lookup_segment x values i = Some s /\
           aref cdf i = Some ci /\ aref cdf (i + 1) = Some ci1 /\
           ci1 == ci + ((seg_d0 s - seg_d1 s) / 12 + (seg_f0 s + seg_f1 s) / 2)
                       * (seg_x1 s - seg_x0 s) /\
           (i = 0%Z -> seg_d0 s = seg_f1 s - seg_f0 s) /\
           (i = (size x - 2)%Z -> seg_d1 s = seg_f1 s - seg_f0 s)) /\
      aref cdf (size x - 1) = Some total.
Proof.
  intros x values cdf0 _ Hn Hs Hc.
  unfold IntegrateCatmullRom. rewrite Hs, Z.eqb_refl. rewrite <- Hs.
  simpl negb. cbv iota.
  destruct (aset_spec cdf0 0 0) as (cdf1 & E1 & L1 & G1 & O1); [lia|].
  rewrite E1. unfold bind at 1.
  destruct (Z.eqb_spec (size x) 0); [lia|].
  destruct (integrate_loop_spec x values Hs (Z.to_nat (size x - 1)) 0 0 cdf1)
    as (total & cdf & Er & Lr & Pr & Sr & Tr); try lia; auto.
  exists total, cdf. split; [exact Er|]. split; [exact Lr|].
  split; [rewrite Pr by lia; exact G1|]. split.
  - intros i Hi. destruct (Sr i) as (s & ci & ci1 & Hseg & Ei & Ei1 & Heq); [lia|].
    exists s, ci, ci1. repeat split; auto.
    + intros ->. apply lookup_segment_inv in Hseg.
      destruct Hseg as (_ & _ & _ & _ & D0 & _).
      apply deriv0_inv in D0. simpl in D0. exact D0.
    + intros ->. apply lookup_segment_inv in Hseg.
      destruct Hseg as (_ & _ & _ & _ & _ & D1).
      apply deriv1_inv in D1.
      destruct (Z.ltb_spec (size x - 2 + 2) (size x)); [lia|]. exact D1.
  - replace (size x - 1)%Z with (0 + Z.of_nat (Z.to_nat (size x - 1)))%Z by lia.
    exact Tr.
Qed.

(** [IntegrateCatmullRom] in binary32, with the data of every segment
    spelled out. *)
Lemma IntegrateCatmullRom_binary32_segments
    (x values cdf0 : list Binary32.float32) :
  (2 <= Binary32.size32 x)%Z ->
  Binary32.size32 x = Binary32.size32 values ->
  Binary32.size32 cdf0 = Binary32.size32 x ->
  exists (total : Binary32.float32) (cdf : list Binary32.float32),
    Binary32.IntegrateCatmullRom x values cdf0
      = Binary32.Returned (total, cdf) /\
    Binary32.size32 cdf = Binary32.size32 x /\
    Binary32.at32 cdf 0 = Binary32.Returned Binary32.f0_ /\
    (forall i, (0 <= i <= Binary32.size32 x - 2)%Z ->
       exists x0 x1 f0 f1 d0 d1 ci ci1,
         Binary32.at32 x i = Binary32.Returned x0 /\
         Binary32.at32 x (i + 1) = Binary32.Returned x1 /\
         Binary32.at32 values i = Binary32.Returned f0 /\
         Binary32.at32 values (i + 1) = Binary32.Returned f1 /\
         (i = 0%Z -> d0 = (f1 - f0)%f32) /\
         ((0 < i)%Z ->
          exists xm fm,
            Binary32.at32 x (i - 1) = Binary32.Returned xm /\
            Binary32.at32 values (i - 1) = Binary32.Returned fm /\
            d0 = ((x1 - x0) * (f1 - fm) / (x1 - xm))%f32) /\
         (i = (Binary32.size32 x - 2)%Z -> d1 = (f1 - f0)%f32) /\
         ((i < Binary32.size32 x - 2)%Z ->
          exists xp fp,
            Binary32.at32 x (i + 2) = Binary32.Returned xp /\
            Binary32.at32 values (i + 2) = Binary32.Returned fp /\
            d1 = ((x1 - x0) * (fp - f0) / (xp - x0))%f32) /\
         Binary32.at32 cdf i = Binary32.Returned ci /\
         Binary32.at32 cdf (i + 1) = Binary32.Returned ci1 /\
         ci1 = (ci + ((d0 - d1) * (Binary32.f1_ / Binary32.of_Z 12)
                      + (f0 + f1) * Binary32.half)
                     * (x1 - x0))%f32) /\
    Binary32.at32 cdf (Binary32.size32 x - 1) = Binary32.Returned total.
Proof.
  intros Hn Hs Hc.
  destruct (IntegrateCatmullRom_binary32_recurrence x values cdf0)
    as (total & cdf & Hrun & Hsize & H0 & Hrec & Htot & _); try lia.
  exists total, cdf. split; [exact Hrun|]. split; [congruence|].
  split; [exact H0|]. split; [|exact Htot].
  intros i Hi. destruct (Hrec i Hi) as (s & ci & ci1 & Hseg & Ei & Ei1 & Eq).
  apply lookup_segment_binary32_inv in Hseg.
  destruct Hseg as (E0 & E1 & E2 & E3 & D0 & D1).
  apply deriv0_binary32_inv in D0. apply deriv1_binary32_inv in D1.
  exists (Binary32.seg_x0 s), (Binary32.seg_x1 s), (Binary32.seg_f0 s),
         (Binary32.seg_f1 s), (Binary32.seg_d0 s), (Binary32.seg_d1 s),
         ci, ci1.
  do 4 (split; [assumption|]).
  split; [|split; [|split; [|split]]].
  - intros ->. exact D0.
  - intros Hpos. destruct (Z.gtb_spec i 0); [|lia].
    destruct D0 as (fm & xm & Efm & Exm & Ed).
    exists xm, fm. auto.
  - intros ->.
    destruct (Z.ltb_spec (Binary32.size32 x - 2 + 2) (Binary32.size32 x));
      [lia|exact D1].
  - intros Hlt. destruct (Z.ltb_spec (i + 2) (Binary32.size32 x)); [|lia].
    destruct D1 as (fp & xp & Efp & Exp & Ed).
    exists xp, fp. auto.
  - split; [exact Ei|]. split; [exact Ei1|exact Eq].
Qed.

(** In exact arithmetic, with the data of every segment spelled out. *)
Lemma IntegrateCatmullRom_exact_segments :
  forall (x values cdf0 : list Float),
    increasing x -> (2 <= size x)%Z -> size x = size values ->
    size cdf0 = size x ->
    exists (total : Float) (cdf : list Float),
      IntegrateCatmullRom x values cdf0 = Some (total, cdf) /\
      size cdf = size x /\
      aref cdf 0 = Some 0 /\
      (forall i, (0 <= i <= size x - 2)%Z ->
         exists x0 x1 f0 f1 d0 d1 ci ci1,
           aref x i = Some x0 /\ aref x (i + 1) = Some x1 /\
           aref values i = Some f0 /\ aref values (i + 1) = Some f1 /\
           (i = 0%Z -> d0 = f1 - f0) /\
           ((0 < i)%Z ->
            exists xm fm,
              aref x (i - 1) = Some xm /\ aref values (i - 1) = Some fm /\
              d0 = (x1 - x0) * (f1 - fm) / (x1 - xm)) /\
           (i = (size x - 2)%Z -> d1 = f1 - f0) /\
           ((i < size x - 2)%Z ->
            exists xp fp,
              aref x (i + 2) = Some xp /\ aref values (i + 2) = Some fp /\
              d1 = (x1 - x0) * (fp - f0) / (xp - x0)) /\
           aref cdf i = Some ci /\ aref cdf (i + 1) = Some ci1 /\
           ci1 == ci + ((d0 - d1) / 12 + (f0 + f1) / 2) * (x1 - x0)) /\
      aref cdf (size x - 1) = Some total.
Proof.
  intros x values cdf0 Hinc Hn Hs Hc.
  destruct (IntegrateCatmullRom_exact_recurrence x values cdf0 Hinc Hn Hs Hc)
    as (total & cdf & Hrun & Hsize & H0 & Hrec & Htot).
  exists total, cdf. split; [exact Hrun|]. split; [exact Hsize|].
  split; [exact H0|]. split; [|exact Htot].
  intros i Hi.
  destruct (Hrec i Hi) as (s & ci & ci1 & Hseg & Ei & Ei1 & Eq & _ & _).
  apply lookup_segment_inv in Hseg.
  destruct Hseg as (E0 & E1 & E2 & E3 & D0 & D1).
  apply deriv0_inv in D0. apply deriv1_inv in D1.
  exists (seg_x0 s), (seg_x1 s), (seg_f0 s), (seg_f1 s), (seg_d0 s),
         (seg_d1 s), ci, ci1.
  do 4 (split; [assumption|]).
  split; [|split; [|split; [|split]]].
  - intros ->. exact D0.
  - intros Hpos. destruct (Z.gtb_spec i 0); [|lia].
    destruct D0 as (fm & xm & Efm & Exm & Ed).
    exists xm, fm. auto.
  - intros ->.
    destruct (Z.ltb_spec (size x - 2 + 2) (size x)); [lia|exact D1].
  - intros Hlt. destruct (Z.ltb_spec (i + 2) (size x)); [|lia].
    destruct D1 as (fp & xp & Efp & Exp & Ed).
    exists xp, fp. auto.
  - split; [exact Ei|]. split; [exact Ei1|exact Eq].
Qed.

(** C3 (as amended).  For node and value sequences [x] and [values] of the
    same length [n >= 2] and a [cdf] buffer of length [n],
    [IntegrateCatmullRom] writes [cdf[0] = 0] and, for each segment [i]
    from [0] to [n-2],
    [cdf[i+1] = cdf[i] + ((d0-d1)*(1.f/12.f) + (f0+f1)*.5f) * (x[i+1]-x[i])]
    with every operation rounded to binary32, where [f0], [f1] are
    [values[i]], [values[i+1]] and [d0], [d1] the finite-difference
    derivatives of segment [i]:
    [d0 = (x[i+1]-x[i]) * (f1 - values[i-1]) / (x[i+1] - x[i-1])], and
    [f1 - f0] for [i = 0];
    [d1 = (x[i+1]-x[i]) * (values[i+2] - f0) / (x[i+2] - x[i])], and
    [f1 - f0] for [i = n-2]; it returns [cdf[n-1]] (first part, in the
    binary32 arithmetic of the code).  In exact arithmetic, for strictly
    increasing [x], this is
    [cdf[i+1] = cdf[i] + ((d0-d1)/12 + (f0+f1)/2) * (x[i+1]-x[i])]
    (second part). *)
Theorem IntegrateCatmullRom_running_integral :
  (forall (x values cdf0 : list Binary32.float32),
     (2 <= Binary32.size32 x)%Z ->
     Binary32.size32 x = Binary32.size32 values ->
     Binary32.size32 cdf0 = Binary32.size32 x ->
     exists (total : Binary32.float32) (cdf : list Binary32.float32),
       Binary32.IntegrateCatmullRom x values cdf0
         = Binary32.Returned (total, cdf) /\
       Binary32.size32 cdf = Binary32.size32 x /\
       Binary32.at32 cdf 0 = Binary32.Returned Binary32.f0_ /\
       (forall i, (0 <= i <= Binary32.size32 x - 2)%Z ->
          exists x0 x1 f0 f1 d0 d1 ci ci1,
            Binary32.at32 x i = Binary32.Returned x0 /\
            Binary32.at32 x (i + 1) = Binary32.Returned x1 /\
            Binary32.at32 values i = Binary32.Returned f0 /\
            Binary32.at32 values (i + 1) = Binary32.Returned f1 /\
            (i = 0%Z -> d0 = (f1 - f0)%f32) /\
            ((0 < i)%Z ->
             exists xm fm,
               Binary32.at32 x (i - 1) = Binary32.Returned xm /\
               Binary32.at32 values (i - 1) = Binary32.Returned fm /\
               d0 = ((x1 - x0) * (f1 - fm) / (x1 - xm))%f32) /\
            (i = (Binary32.size32 x - 2)%Z -> d1 = (f1 - f0)%f32) /\
            ((i < Binary32.size32 x - 2)%Z ->
             exists xp fp,
               Binary32.at32 x (i + 2) = Binary32.Returned xp /\
               Binary32.at32 values (i + 2) = Binary32.Returned fp /\
               d1 = ((x1 - x0) * (fp - f0) / (xp - x0))%f32) /\
            Binary32.at32 cdf i = Binary32.Returned ci /\
            Binary32.at32 cdf (i + 1) = Binary32.Returned ci1 /\
            ci1 = (ci + ((d0 - d1) * (Binary32.f1_ / Binary32.of_Z 12)
                         + (f0 + f1) * Binary32.half)
                        * (x1 - x0))%f32) /\
       Binary32.at32 cdf (Binary32.size32 x - 1) = Binary32.Returned total) /\
  (forall (x values cdf0 : list Float),
     increasing x -> (2 <= size x)%Z -> size x = size values ->
     size cdf0 = size x ->
     exists (total : Float) (cdf : list Float),
       IntegrateCatmullRom x values cdf0 = Some (total, cdf) /\
       size cdf = size x /\
       aref cdf 0 = Some 0 /\
       (forall i, (0 <= i <= size x - 2)%Z ->
          exists x0 x1 f0 f1 d0 d1 ci ci1,
            aref x i = Some x0 /\ aref x (i + 1) = Some x1 /\
            aref values i = Some f0 /\ aref values (i + 1) = Some f1 /\
            (i = 0%Z -> d0 = f1 - f0) /\
            ((0 < i)%Z ->
             exists xm fm,
               aref x (i - 1) = Some xm /\ aref values (i - 1) = Some fm /\
               d0 = (x1 - x0) * (f1 - fm) / (x1 - xm)) /\
            (i = (size x - 2)%Z -> d1 = f1 - f0) /\
            ((i < size x - 2)%Z ->
             exists xp fp,
               aref x (i + 2) = Some xp /\ aref values (i + 2) = Some fp /\
               d1 = (x1 - x0) * (fp - f0) / (xp - x0)) /\
            aref cdf i = Some ci /\ aref cdf (i + 1) = Some ci1 /\
            ci1 == ci + ((d0 - d1) / 12 + (f0 + f1) / 2) * (x1 - x0)) /\
       aref cdf (size x - 1) = Some total).
Proof.
  split.
  - exact IntegrateCatmullRom_binary32_segments.
  - exact IntegrateCatmullRom_exact_segments.
Qed.

(** C3, the claim as stated, fails in the binary32 arithmetic of the code.
    For the nodes [{0,1,2,3}] and the values [{0,25,0,0}] the first segment
    has [f0 = 0], [f1 = 25], [d0 = 25], [d1 = 0] and width 1; the routine
    writes [cdf[1] = 15291734 * 2^-20], which is neither the number
    [175/12] the formula of the claim stands for, nor that formula
    evaluated in binary32, [15291733 * 2^-20].  For the values [{0,1,0,1}]
    it writes [cdf[1] = 9786709 * 2^-24], below [7/12]. *)
Lemma IntegrateCatmullRom_not_the_formula :
  (exists total cdf s c0 c1 q1,
     Binary32.IntegrateCatmullRom Binary32.scenario_nodes
       Binary32.peak_values
       [Binary32.f0_; Binary32.f0_; Binary32.f0_; Binary32.f0_]
       = Binary32.Returned (total, cdf) /\
     Binary32.lookup_segment Binary32.scenario_nodes Binary32.peak_values 0
       = Binary32.Returned s /\
     Binary32.at32 cdf 0 = Binary32.Returned c0 /\
     Binary32.at32 cdf 1 = Binary32.Returned c1 /\
     c1 = S754_finite false 15291734 (-20) /\
     Binary32.feq c1
       (c0 + ((Binary32.seg_d0 s - Binary32.seg_d1 s) / Binary32.of_Z 12
              + (Binary32.seg_f0 s + Binary32.seg_f1 s) / Binary32.f2_)
             * (Binary32.seg_x1 s - Binary32.seg_x0 s))%f32 = false /\
     Binary32.to_Q c1 = Some q1 /\
     ~ q1 == 0 + ((25 - 0) / 12 + (0 + 25) / 2) * (1 - 0)) /\
  (exists total cdf c1 q1,
     Binary32.IntegrateCatmullRom Binary32.scenario_nodes
       Binary32.scenario_values
       [Binary32.f0_; Binary32.f0_; Binary32.f0_; Binary32.f0_]
       = Binary32.Returned (total, cdf) /\
     Binary32.at32 cdf 1 = Binary32.Returned c1 /\
     c1 = S754_finite false 9786709 (-24) /\
     Binary32.to_Q c1 = Some q1 /\ q1 < 7 # 12).
Proof.
  split.
  - do 6 eexists. split; [vm_compute; reflexivity|].
    split; [vm_compute; reflexivity|].
    split; [vm_compute; reflexivity|].
    split; [vm_compute; reflexivity|].
    split; [reflexivity|]. split; [vm_compute; reflexivity|].
    split; [reflexivity|]. intros H. vm_compute in H. discriminate.
  - exact integrate_binary32_scenario.
Qed.

(** ** Sampling a single-coefficient Fourier series *)

Lemma Qabs_zero_small (F : Q) : F == 0 -> Qltb (Qabs F) tolerance = true.
Proof.
  intros H. apply Qltb_lt. rewrite H. reflexivity.
Qed.

Section SingleCoefficient.

Variable SafeSqrt : Float -> Float.
Variable cos : Float -> Float.
Variable Pi : Float.
Variable c : Float.
Variable recip : list Float.
Variable u : Float.
Hypothesis c_nonzero : ~ c == 0.




End SingleCoefficient.


(** ** The Newton-bisection loop keeps its iterate inside the bracket *)

Lemma in_open_true a b t : in_open a b t = true <-> a < t /\ t < b.
Proof. unfold in_open. rewrite andb_true_iff, !Qltb_lt. tauto. Qed.

Lemma open_clamp a b t :
  a < b ->
  let t' := fallback in_open a b t in
  a < t' /\ t' < b.
Proof.
  intros Hab. destruct t as [t|]; simpl; [|split; lra].
  destruct (in_open a b t) eqn:E; simpl.
  - apply in_open_true in E. exact E.
  - split; lra.
Qed.

Lemma newton_bisection_step inside Fh fh u fuel t a b :
  newton_bisection inside Fh fh u (S fuel) t a b =
  let t := fallback inside a b t in
  let Fhat := Fh t in
  let fhat := fh t in
  if Qltb (Qabs (Fhat - u)) tolerance || Qltb (b - a) tolerance
  then Some (t, Fhat, fhat)
  else
    let a' := if Qltb (Fhat - u) 0 then t else a in
    let b' := if Qltb (Fhat - u) 0 then b else t in
    newton_bisection inside Fh fh u fuel (newton_step t (Fhat - u) fhat)
      a' b'.
Proof. reflexivity. Qed.

Lemma newton_open_result (Fh fh : Float -> Float) (u : Float) :
  forall (fuel : nat) (t : option Float) (a b tt FF ff : Float),
    a < b ->
    newton_bisection in_open Fh fh u fuel t a b = Some (tt, FF, ff) ->
    a < tt /\ tt < b /\ FF = Fh tt /\ ff = fh tt.
Proof.
  induction fuel as [|fuel IH]; intros t a b tt FF ff Hab; [discriminate|].
  rewrite newton_bisection_step. cbv zeta.
  pose proof (open_clamp a b t Hab) as Hc. cbv zeta in Hc.
  set (t' := fallback in_open a b t) in *.
  destruct Hc as [Hat Htb].
  destruct (Qltb (Qabs (Fh t' - u)) tolerance || Qltb (b - a) tolerance).
  - intros H. injection H as <- <- <-. auto.
  - destruct (Qltb (Fh t' - u) 0); intros H; apply IH in H; auto;
      destruct H as (H1 & H2 & H3 & H4); repeat split; auto; lra.
Qed.

(** ** Running the one-dimensional sampler *)

Lemma SampleCatmullRom_unfold SafeSqrt fuel x f F u fval pdf Fb s Fi :
  size x = size f -> size f = size F ->
  back F = Some Fb ->
  let i := GetIntArrayerval (size F) (le_pred F (u * Fb)) in
  lookup_segment x f i = Some s ->
  aref F i = Some Fi ->
  let width := seg_x1 s - seg_x0 s in
  let u' := (u * Fb - Fi) / width in
  SampleCatmullRom SafeSqrt fuel x f F u fval pdf =
  (r <- newton_bisection in_open
          (Fhat_horner (seg_f0 s) (seg_f1 s) (seg_d0 s) (seg_d1 s))
          (fhat_horner (seg_f0 s) (seg_f1 s) (seg_d0 s) (seg_d1 s))
          u' fuel (initial_guess SafeSqrt (seg_f0 s) (seg_f1 s) u') 0 1 ;;
   let '(t, _, fhat) := r in
   Some (mkSample (seg_x0 s + width * t) (store fval fhat)
           (store pdf (fhat / Fb)))).
Proof.
  intros Hxf HfF HFb i Hseg HFi width u'.
  apply lookup_segment_inv in Hseg.
  destruct Hseg as (E0 & E1 & E2 & E3 & E4 & E5).
  unfold SampleCatmullRom.
  rewrite Hxf, HfF, Z.eqb_refl. simpl negb. cbv iota.
  rewrite HFb. unfold bind at 1. cbv zeta. fold i.
  rewrite E0, E1, E2, E3. unfold bind at 1 2 3 4.
  rewrite E4, E5. unfold bind at 1 2. rewrite HFi. unfold bind at 1.
  reflexivity.
Qed.

Lemma hermite_horner f0 f1 d0 d1 t t' :
  t' == t ->
  Fhat_hermite f0 f1 d0 d1 t' == fhat_horner f0 f1 d0 d1 t.
Proof.
  intros H. unfold Fhat_hermite, fhat_horner. cbv zeta. rewrite H. ring.
Qed.

(** A position strictly inside segment [i] is located in segment [i]. *)
Lemma locate_inside x i x0 x1 p :
  increasing x -> (2 <= size x)%Z -> (0 <= i <= size x - 2)%Z ->
  aref x i = Some x0 -> aref x (i + 1) = Some x1 ->
  x0 < p -> p < x1 ->
  GetIntArrayerval (size x) (le_pred x p) = i.
Proof.
  intros Hinc Hn Hi E0 E1 H0 H1.
  rewrite (GetIntArrayerval_threshold (size x) (le_pred x p) i); try lia.
  - apply Clamp_id. lia.
  - intros j Hj. destruct (aref_in_range x j Hj) as [xj Ej].
    rewrite (le_pred_at _ _ _ _ Ej), Qle_bool_iff. split.
    + intros Hle. destruct (Z_le_gt_dec j i) as [H|H]; [exact H|].
      assert (x1 <= xj) by (apply (increasing_le x (i + 1) j); auto; lia).
      lra.
    + intros Hle.
      assert (xj <= x0) by (apply (increasing_le x j i); auto; lia). lra.
Qed.




(** ** The boundary scenario: sampling with [u = 0] *)

Lemma Qsquare_nonneg (x : Q) : 0 <= x * x.
Proof. nra. Qed.

Section ScenarioLoop.

Variables f0 f1 d0 d1 u : Float.
Hypothesis Hf0 : f0 == 0.
Hypothesis Hf1 : f1 == 1.
Hypothesis Hd0 : d0 == 1.
Hypothesis Hd1 : d1 == 0.
Hypothesis Hu : u == 0.

Lemma scenario_Fhat t :
  Fhat_horner f0 f1 d0 d1 t - u == t * t * (0.5 + t * ((1 # 3) - 0.25 * t)).
Proof. unfold Fhat_horner. rewrite Hf0, Hf1, Hd0, Hd1, Hu. field. Qed.

Lemma scenario_fhat t :
  fhat_horner f0 f1 d0 d1 t == t * (1 + t * (1 - t)).
Proof. unfold fhat_horner. rewrite Hf0, Hf1, Hd0, Hd1. ring. Qed.

(** On the first segment of the scenario the residual is about [t^2 / 2]:
    every Newton step keeps at most [3/5] of the iterate, and the loop stops
    at a strictly positive [t]. *)
Lemma scenario_loop :
  forall (n fuel : nat) (t : option Float) (b : Float),
    (n + 1 <= fuel)%nat -> 0 < b -> b <= 1 ->
    fallback in_open 0 b t <= shrink_bound n ->
    exists tt FF ff,
      newton_bisection in_open (Fhat_horner f0 f1 d0 d1)
        (fhat_horner f0 f1 d0 d1) u fuel t 0 b = Some (tt, FF, ff) /\
      0 < tt /\ tt < 0.0015.
Proof.
  induction n as [|n IH]; intros fuel t b Hfuel Hb0 Hb1 Hte;
    (destruct fuel as [|fuel]; [lia|]);
    rewrite newton_bisection_step; cbv zeta;
    pose proof (open_clamp 0 b t Hb0) as Hc; cbv zeta in Hc;
    set (te := fallback in_open 0 b t) in *;
    destruct Hc as [Hte0 Hteb];
    pose proof (scenario_Fhat te) as HF;
    pose proof (scenario_fhat te) as Hf;
    set (R := Fhat_horner f0 f1 d0 d1 te - u) in *;
    set (D := fhat_horner f0 f1 d0 d1 te) in *;
    set (G := 0.5 + te * ((1 # 3) - 0.25 * te)) in *;
    assert (Hsq : 0 < te * te) by nra;
    assert (HG0 : 0.5 <= G) by (unfold G; nra);
    assert (HG1 : G <= 0.62)
      by (unfold G; pose proof (Qsquare_nonneg (te - (2 # 3))); nra);
    assert (HR0 : 0 <= R) by (rewrite HF; nra);
    assert (HRlow : 0.5 * (te * te) <= R) by (rewrite HF; nra);
    simpl in Hte.
  - (* the residual is already below the tolerance *)
    assert (E : Qltb (Qabs R) tolerance = true).
    { apply Qltb_lt. rewrite Qabs_pos by exact HR0. rewrite HF.
      assert (Hsmall : te * te <= 0.000001) by nra.
      assert (te * te * G <= 0.000001 * 0.62) by nra.
      lra. }
    rewrite E. simpl orb. cbv iota.
    exists te, (Fhat_horner f0 f1 d0 d1 te), D. split; [reflexivity|].
    split; lra.
  - destruct (Qltb (Qabs R) tolerance || Qltb (b - 0) tolerance) eqn:Ebreak.
    + exists te, (Fhat_horner f0 f1 d0 d1 te), D. split; [reflexivity|].
      split; [exact Hte0|].
      apply orb_true_iff in Ebreak. destruct Ebreak as [E|E];
        apply Qltb_lt in E.
      * rewrite Qabs_pos in E by exact HR0.
        destruct (Qlt_le_dec te 0.0015) as [H|H]; [exact H|]. nra.
      * lra.
    + assert (E0 : Qltb R 0 = false) by (apply Qltb_false; exact HR0).
      rewrite E0.
      assert (HD : 0 < D) by (rewrite Hf; nra).
      rewrite newton_step_defined by lra.
      apply IH; try lia; try lra.
      unfold fallback.
      destruct (in_open 0 te (te - R / D)) eqn:Ein; simpl negb; cbv iota.
      * assert (Hq : 0.4 * te <= R / D).
        { apply Qle_shift_div_l; [exact HD|]. rewrite HF, Hf.
          assert (0 <= (te * te) * (0.1 - (1 # 15) * te + 0.15 * (te * te)))
            by nra.
          unfold G. nra. }
        lra.
      * lra.
Qed.

End ScenarioLoop.

Lemma scenario_sample (SafeSqrt : Float -> Float) (fuel : nat) :
  (15 <= fuel)%nat ->
  exists total cdf r,
    IntegrateCatmullRom scenario_nodes scenario_values [0; 0; 0; 0]
      = Some (total, cdf) /\
    SampleCatmullRom SafeSqrt fuel scenario_nodes scenario_values cdf 0
      true true = Some r /\
    0 < s_pos r /\ s_pos r < 0.0015.
Proof.
  intros Hfuel.
  destruct (IntegrateCatmullRom scenario_nodes scenario_values [0; 0; 0; 0])
    as [[total cdf]|] eqn:EI; [|vm_compute in EI; discriminate].
  vm_compute in EI. injection EI as Etotal Ecdf.
  eassert (Hrun : SampleCatmullRom SafeSqrt fuel scenario_nodes scenario_values
                    cdf 0 true true = _).
  { rewrite <- Ecdf.
    eapply SampleCatmullRom_unfold;
      [ reflexivity | reflexivity | vm_compute; reflexivity
        | vm_compute; reflexivity | vm_compute; reflexivity ]. }
  cbv zeta in Hrun.
  match type of Hrun with
  | context [newton_bisection in_open (Fhat_horner ?f0 ?f1 ?d0 ?d1) _ ?u
               fuel ?t 0 1] =>
      assert (A0 : f0 == 0) by reflexivity;
      assert (A1 : f1 == 1) by reflexivity;
      assert (A2 : d0 == 1) by reflexivity;
      assert (A3 : d1 == 0) by reflexivity;
      assert (A4 : u == 0) by reflexivity;
      pose proof (open_clamp 0 1 t ltac:(reflexivity)) as Hc;
      cbv zeta in Hc;
      destruct (scenario_loop f0 f1 d0 d1 u A0 A1 A2 A3 A4 14%nat fuel t 1)
        as (tt & FF & ff & Eloop & Ht0 & Ht1)
  end.
  - lia.
  - reflexivity.
  - discriminate.
  - assert (H1 : 1 <= shrink_bound 14) by (vm_compute; discriminate).
    lra.
  - rewrite Eloop in Hrun. simpl in Hrun.
    eexists _, _, _. split; [reflexivity|]. split; [exact Hrun|].
    simpl. split; lra.
Qed.

Lemma scenario_sample_binary32 :
  exists total cdf fv,
    Binary32.IntegrateCatmullRom Binary32.scenario_nodes
      Binary32.scenario_values
      [Binary32.f0_; Binary32.f0_; Binary32.f0_; Binary32.f0_]
      = Binary32.Returned (total, cdf) /\
    Binary32.SampleCatmullRom 32 Binary32.scenario_nodes
      Binary32.scenario_values cdf Binary32.f0_
      = Binary32.Returned (S754_finite false 9733361 (-33), fv).
Proof.
  destruct (Binary32.IntegrateCatmullRom Binary32.scenario_nodes
              Binary32.scenario_values _) as [[total cdf]| |] eqn:EI;
    vm_compute in EI; try discriminate.
  injection EI as <- <-.
  match goal with
  | |- exists total cdf fv, Binary32.Returned (?t, ?c) = _ /\ _ =>
      destruct (Binary32.SampleCatmullRom 32 Binary32.scenario_nodes
                  Binary32.scenario_values c Binary32.f0_)
        as [[x fv]| |] eqn:ES;
      vm_compute in ES; try discriminate;
      exists t, c, fv; split; [reflexivity|]
  end.
  injection ES as <- <-. reflexivity.
Qed.

(** C5 (as amended).  For nodes [{0,1,2,3}] and values [{0,1,0,1}], with
    the cdf sequence produced by [IntegrateCatmullRom] for them,
    [SampleCatmullRom] called with [u = 0] returns a position close to 0
    within the tolerance of the root finder, not 0 itself: in exact
    arithmetic it stops within 15 iterations, for every initial guess, at a
    position [x] with [0 < x < 0.0015]; in binary32 arithmetic it returns
    [9733361 * 2^-33], about [0.00113]. *)
Theorem SampleCatmullRom_scenario_u0 :
  (forall (SafeSqrt : Float -> Float),
   exists total cdf r,
     IntegrateCatmullRom scenario_nodes scenario_values [0; 0; 0; 0]
       = Some (total, cdf) /\
     SampleCatmullRom SafeSqrt 15 scenario_nodes scenario_values cdf 0
       true true = Some r /\
     0 < s_pos r /\ s_pos r < 0.0015) /\
  (exists total cdf fv,
     Binary32.IntegrateCatmullRom Binary32.scenario_nodes
       Binary32.scenario_values
       [Binary32.f0_; Binary32.f0_; Binary32.f0_; Binary32.f0_]
       = Binary32.Returned (total, cdf) /\
     Binary32.SampleCatmullRom 32 Binary32.scenario_nodes
       Binary32.scenario_values cdf Binary32.f0_
       = Binary32.Returned (S754_finite false 9733361 (-33), fv)).
Proof.
  split.
  - intros SafeSqrt. exact (scenario_sample SafeSqrt 15 (le_n 15)).
  - exact scenario_sample_binary32.
Qed.

(** C5, the claim as stated, fails: with [u = 0] the sampler returns a
    position different from 0, in exact arithmetic as in binary32. *)
Lemma SampleCatmullRom_scenario_u0_not_zero :
  (exists total cdf r,
     IntegrateCatmullRom scenario_nodes scenario_values [0; 0; 0; 0]
       = Some (total, cdf) /\
     SampleCatmullRom SafeSqrt_approx 15 scenario_nodes scenario_values cdf 0
       true true = Some r /\
     ~ s_pos r == 0) /\
  (exists total cdf x fv,
     Binary32.IntegrateCatmullRom Binary32.scenario_nodes
       Binary32.scenario_values
       [Binary32.f0_; Binary32.f0_; Binary32.f0_; Binary32.f0_]
       = Binary32.Returned (total, cdf) /\
     Binary32.SampleCatmullRom 32 Binary32.scenario_nodes
       Binary32.scenario_values cdf Binary32.f0_
       = Binary32.Returned (x, fv) /\
     Binary32.feq x Binary32.f0_ = false).
Proof.
  split.
  - destruct (scenario_sample SafeSqrt_approx 15 (le_n 15))
      as (total & cdf & r & HI & HS & Hpos & _).
    exists total, cdf, r. split; [exact HI|]. split; [exact HS|]. lra.
  - destruct scenario_sample_binary32 as (total & cdf & fv & HI & HS).
    exists total, cdf, (S754_finite false 9733361 (-33)), fv.
    split; [exact HI|]. split; [exact HS|]. reflexivity.
Qed.

(** ** The theorems at concrete inputs *)

Lemma scenario_nodes_increasing : increasing scenario_nodes.
Proof. apply increasingb_sound. reflexivity. Qed.

Lemma CatmullRomWeights_reproduces_CatmullRom_witness :
  (exists (off' : Z) (ws' : list Binary32.float32) (v c : Binary32.float32),
     Binary32.CatmullRomWeights Binary32.scenario_nodes Binary32.x_2_6 0
       [Binary32.f0_; Binary32.f0_; Binary32.f0_; Binary32.f0_]
       = Binary32.Returned (true, off', ws') /\
     Binary32.weighted_sum ws' Binary32.scenario_values off'
       = Binary32.Returned v /\
     Binary32.CatmullRom Binary32.scenario_nodes Binary32.scenario_values
       Binary32.x_2_6 = Binary32.Returned c) /\
  (exists (off' : Z) (ws' : list Float) (v c : Float),
     CatmullRomWeights scenario_nodes 1.5 0 [0; 0; 0; 0]
       = Some (true, off', ws') /\
     weighted_sum ws' scenario_values off' = Some v /\
     CatmullRom scenario_nodes scenario_values 1.5 = Some c /\
     v == c).
Proof.
  split.
  - apply (proj1 CatmullRomWeights_reproduces_CatmullRom
             Binary32.scenario_nodes Binary32.scenario_values Binary32.x_2_6
             0%Z [Binary32.f0_; Binary32.f0_; Binary32.f0_; Binary32.f0_]
             (Binary32.of_Z 0) (Binary32.of_Z 3)).
    + vm_compute. discriminate.
    + reflexivity.
    + vm_compute. discriminate.
    + reflexivity.
    + reflexivity.
    + reflexivity.
    + reflexivity.
  - apply (proj2 CatmullRomWeights_reproduces_CatmullRom
             scenario_nodes scenario_values 1.5 0%Z [0; 0; 0; 0] 0 3).
    + exact scenario_nodes_increasing.
    + vm_compute. discriminate.
    + reflexivity.
    + vm_compute. discriminate.
    + reflexivity.
    + reflexivity.
    + vm_compute. discriminate.
    + vm_compute. discriminate.
Defined.

Lemma IntegrateCatmullRom_running_integral_witness :
  (exists (total : Binary32.float32) (cdf : list Binary32.float32),
     Binary32.IntegrateCatmullRom Binary32.scenario_nodes
       Binary32.scenario_values
       [Binary32.f0_; Binary32.f0_; Binary32.f0_; Binary32.f0_]
       = Binary32.Returned (total, cdf) /\
     Binary32.size32 cdf = Binary32.size32 Binary32.scenario_nodes /\
     Binary32.at32 cdf 0 = Binary32.Returned Binary32.f0_ /\
     (forall i, (0 <= i <= Binary32.size32 Binary32.scenario_nodes - 2)%Z ->
        exists x0 x1 f0 f1 d0 d1 ci ci1,
          Binary32.at32 Binary32.scenario_nodes i = Binary32.Returned x0 /\
          Binary32.at32 Binary32.scenario_nodes (i + 1)
            = Binary32.Returned x1 /\
          Binary32.at32 Binary32.scenario_values i = Binary32.Returned f0 /\
          Binary32.at32 Binary32.scenario_values (i + 1)
            = Binary32.Returned f1 /\
          (i = 0%Z -> d0 = (f1 - f0)%f32) /\
          ((0 < i)%Z ->
           exists xm fm,
             Binary32.at32 Binary32.scenario_nodes (i - 1)
               = Binary32.Returned xm /\
             Binary32.at32 Binary32.scenario_values (i - 1)
               = Binary32.Returned fm /\
             d0 = ((x1 - x0) * (f1 - fm) / (x1 - xm))%f32) /\
          (i = (Binary32.size32 Binary32.scenario_nodes - 2)%Z ->
           d1 = (f1 - f0)%f32) /\
          ((i < Binary32.size32 Binary32.scenario_nodes - 2)%Z ->
           exists xp fp,
             Binary32.at32 Binary32.scenario_nodes (i + 2)
               = Binary32.Returned xp /\
             Binary32.at32 Binary32.scenario_values (i + 2)
               = Binary32.Returned fp /\
             d1 = ((x1 - x0) * (fp - f0) / (xp - x0))%f32) /\
          Binary32.at32 cdf i = Binary32.Returned ci /\
          Binary32.at32 cdf (i + 1) = Binary32.Returned ci1 /\
          ci1 = (ci + ((d0 - d1) * (Binary32.f1_ / Binary32.of_Z 12)
                       + (f0 + f1) * Binary32.half)
                      * (x1 - x0))%f32) /\
     Binary32.at32 cdf (Binary32.size32 Binary32.scenario_nodes - 1)
       = Binary32.Returned total) /\
  (exists (total : Float) (cdf : list Float),
       IntegrateCatmullRom scenario_nodes scenario_values [0; 0; 0; 0]
         = Some (total, cdf) /\
       size cdf = size scenario_nodes /\
       aref cdf 0 = Some 0 /\
       (forall i, (0 <= i <= size scenario_nodes - 2)%Z ->
          exists x0 x1 f0 f1 d0 d1 ci ci1,
            aref scenario_nodes i = Some x0 /\
            aref scenario_nodes (i + 1) = Some x1 /\
            aref scenario_values i = Some f0 /\
            aref scenario_values (i + 1) = Some f1 /\
            (i = 0%Z -> d0 = f1 - f0) /\
            ((0 < i)%Z ->
             exists xm fm,
               aref scenario_nodes (i - 1) = Some xm /\
               aref scenario_values (i - 1) = Some fm /\
               d0 = (x1 - x0) * (f1 - fm) / (x1 - xm)) /\
            (i = (size scenario_nodes - 2)%Z -> d1 = f1 - f0) /\
            ((i < size scenario_nodes - 2)%Z ->
             exists xp fp,
               aref scenario_nodes (i + 2) = Some xp /\
               aref scenario_values (i + 2) = Some fp /\
               d1 = (x1 - x0) * (fp - f0) / (xp - x0)) /\
            aref cdf i = Some ci /\ aref cdf (i + 1) = Some ci1 /\
            ci1 == ci + ((d0 - d1) / 12 + (f0 + f1) / 2) * (x1 - x0)) /\
       aref cdf (size scenario_nodes - 1) = Some total).
Proof.
  split.
  - apply (proj1 IntegrateCatmullRom_running_integral
             Binary32.scenario_nodes Binary32.scenario_values
             [Binary32.f0_; Binary32.f0_; Binary32.f0_; Binary32.f0_]).
    + vm_compute. discriminate.
    + reflexivity.
    + reflexivity.
  - apply (proj2 IntegrateCatmullRom_running_integral
             scenario_nodes scenario_values [0; 0; 0; 0]).
    + exact scenario_nodes_increasing.
    + vm_compute. discriminate.
    + reflexivity.
    + reflexivity.
Defined.


Lemma CatmullRomWeights_domain_and_sum_witness :
  (exists (ok : bool) (off' : Z) (ws' : list Binary32.float32),
     Binary32.CatmullRomWeights Binary32.scenario_nodes Binary32.x_0_325 0
       [Binary32.f0_; Binary32.f0_; Binary32.f0_; Binary32.f0_]
       = Binary32.Returned (ok, off', ws') /\
     (ok = true <->
      Binary32.fle (Binary32.of_Z 0) Binary32.x_0_325 = true /\
      Binary32.fle Binary32.x_0_325 (Binary32.of_Z 3) = true) /\
     (ok = false ->
      off' = 0%Z /\
      ws' = [Binary32.f0_; Binary32.f0_; Binary32.f0_; Binary32.f0_]) /\
     (ok = true ->
      off' = (GetIntArrayerval (Binary32.size32 Binary32.scenario_nodes)
                (Binary32.le_pred32 Binary32.scenario_nodes
                   Binary32.x_0_325) - 1)%Z /\
      exists w0 w1 w2 w3,
        ws' = w0 :: w1 :: w2 :: w3
              :: skipn 4 [Binary32.f0_; Binary32.f0_; Binary32.f0_;
                          Binary32.f0_])) /\
  (exists (ok : bool) (off' : Z) (ws' : list Float),
     CatmullRomWeights scenario_nodes 1.5 0 [0; 0; 0; 0]
       = Some (ok, off', ws') /\
     (ok = true <-> 0 <= 1.5 /\ 1.5 <= 3) /\
     (ok = false -> off' = 0%Z /\ ws' = [0; 0; 0; 0]) /\
     (ok = true ->
      exists w0 w1 w2 w3,
        ws' = w0 :: w1 :: w2 :: w3 :: skipn 4 [0; 0; 0; 0] /\
        w0 + w1 + w2 + w3 == 1)).
Proof.
  split.
  - apply (proj1 CatmullRomWeights_domain_and_sum
             Binary32.scenario_nodes Binary32.x_0_325 0%Z
             [Binary32.f0_; Binary32.f0_; Binary32.f0_; Binary32.f0_]
             (Binary32.of_Z 0) (Binary32.of_Z 3)).
    + vm_compute. discriminate.
    + vm_compute. discriminate.
    + reflexivity.
    + reflexivity.
  - apply (proj2 CatmullRomWeights_domain_and_sum
             scenario_nodes 1.5 0%Z [0; 0; 0; 0] 0 3).
    + exact scenario_nodes_increasing.
    + vm_compute. discriminate.
    + vm_compute. discriminate.
    + reflexivity.
    + reflexivity.
Defined.



Lemma CatmullRomWeights_offset_in_bounds_witness :
  exists (off' : Z) (ws' : list Float),
    CatmullRomWeights scenario_nodes 1.5 0 [0; 0; 0; 0] = Some (true, off', ws') /\
    (-1 <= off' <= size scenario_nodes - 3)%Z /\
    (off' = (-1)%Z -> aref ws' 0 = Some 0) /\
    ((off' + 3)%Z = size scenario_nodes -> aref ws' 3 = Some 0) /\
    (forall j w, (0 <= j <= 3)%Z -> aref ws' j = Some w -> ~ w == 0 ->
                 (0 <= off' + j <= size scenario_nodes - 1)%Z) /\
    (forall values, size values = size scenario_nodes ->
                    exists v, weighted_sum ws' values off' = Some v) /\
    (forall n2 array idx,
        (0 <= idx < n2)%Z -> size array = (size scenario_nodes * n2)%Z ->
        exists v, interpolate ws' off' n2 array idx = Some v).
Proof.
  apply (CatmullRomWeights_offset_in_bounds scenario_nodes 1.5 0 [0; 0; 0; 0] 0 3).
  - exact scenario_nodes_increasing.
  - vm_compute. discriminate.
  - vm_compute. discriminate.
  - reflexivity.
  - reflexivity.
  - vm_compute. discriminate.
  - vm_compute. discriminate.
Defined.

(** ** The root-finding loops in binary32 arithmetic *)

Lemma newton_bisection32_step closed Fh fh u fuel s :
  Binary32.newton_bisection closed Fh fh u (S fuel) s =
  match Binary32.iteration closed Fh fh u s with
  | inl r => Binary32.Returned r
  | inr s' => Binary32.newton_bisection closed Fh fh u fuel s'
  end.
Proof. reflexivity. Qed.

(** A state that an iteration maps to itself is never left. *)
Lemma newton_bisection32_stuck closed Fh fh u s :
  Binary32.iteration closed Fh fh u s = inr s ->
  forall fuel,
    Binary32.newton_bisection closed Fh fh u fuel s = Binary32.Running.
Proof.
  intros Hfix. induction fuel as [|fuel IH]; [reflexivity|].
  rewrite newton_bisection32_step, Hfix. exact IH.
Qed.

Lemma SampleCatmullRom2D_binary32_stuck (fuel : nat) :
  Binary32.SampleCatmullRom2D fuel Binary32.steep_nodes Binary32.steep_nodes
    Binary32.steep_values2D Binary32.steep_cdf2D
    (Binary32.of_Z 0) Binary32.half
  = Binary32.Running.
Proof.
  unfold Binary32.SampleCatmullRom2D.
  destruct (Binary32.SampleCatmullRom2D_entry _ _ _ _ _ _) as [[e|]| |] eqn:E;
    vm_compute in E; try discriminate.
  injection E as <-.
  destruct fuel as [|fuel]; [reflexivity|].
  unfold Binary32.obind at 1. unfold Binary32.sample_from.
  rewrite newton_bisection32_step.
  match goal with
  | |- context [Binary32.iteration ?c ?Fh ?fh ?u ?s] =>
      destruct (Binary32.iteration c Fh fh u s) as [r|s'] eqn:Eit;
      vm_compute in Eit; [discriminate|]; injection Eit as <-
  end.
  rewrite newton_bisection32_stuck; [reflexivity|].
  vm_compute. reflexivity.
Qed.

(** C9 fails for the 2D sampler, in the binary32 arithmetic of the code.
    The steep table is a valid input: its rows hold the values [{0,128}]
    over the nodes [{0,1}], and [{0,64}] is the cdf that
    [IntegrateCatmullRom] computes for them.  With [alpha = 0] and
    [u = 0.5] the loop of [SampleCatmullRom2D] never reaches its [break]:
    the initial guess [t = 0.70710677] has a residual of about [-1.9e-6],
    so it becomes the lower end [a] of the bracket; the Newton correction
    of about [2e-8] is less than half a unit in the last place of [t] and
    rounds away; and the closed test [t >= a && t <= b] accepts [t = a], so
    the next iteration starts from the very same state.  The 1D sampler on
    a row of the same table and the same [u] returns: its strict test
    [t > a && t < b] rejects [t = a] and the loop bisects. *)
Theorem SampleCatmullRom2D_binary32_never_returns :
  Binary32.IntegrateCatmullRom Binary32.steep_nodes Binary32.steep_values
    [Binary32.f0_; Binary32.f0_]
    = Binary32.Returned (Binary32.of_Z 64, Binary32.steep_cdf) /\
  (forall fuel : nat,
     Binary32.SampleCatmullRom2D fuel Binary32.steep_nodes Binary32.steep_nodes
       Binary32.steep_values2D Binary32.steep_cdf2D
       (Binary32.of_Z 0) Binary32.half
     = Binary32.Running) /\
  (exists r,
     Binary32.SampleCatmullRom 32 Binary32.steep_nodes Binary32.steep_values
       Binary32.steep_cdf Binary32.half
     = Binary32.Returned r).
Proof.
  split; [vm_compute; reflexivity|]. split.
  - exact SampleCatmullRom2D_binary32_stuck.
  - destruct (Binary32.SampleCatmullRom 32 _ _ _ _) as [r| |] eqn:E;
      vm_compute in E; try discriminate.
    exists r. reflexivity.
Qed.


(** ** Further properties of the routines *)

(** X1.  In exact arithmetic, one iteration of the Newton-bisection loop
    of [SampleCatmullRom] and [InvertCatmullRom], entered with a bracket
    [a < b]: the iterate that is evaluated lies strictly inside the
    bracket, and either the loop stops there or it goes on with a bracket
    that is contained in the old one and strictly narrower. *)
Theorem newton_bisection_bracket_shrinks :
  forall (Fh fh : Float -> Float) (u : Float) (fuel : nat)
         (t : option Float) (a b : Float),
    a < b ->
    exists t',
      a < t' /\ t' < b /\
      (newton_bisection in_open Fh fh u (S fuel) t a b
         = Some (t', Fh t', fh t') \/
       exists t'' a' b',
         a <= a' /\ a' < b' /\ b' <= b /\ b' - a' < b - a /\
         newton_bisection in_open Fh fh u (S fuel) t a b
           = newton_bisection in_open Fh fh u fuel t'' a' b').
Proof.
  intros Fh fh u fuel t a b Hab.
  rewrite newton_bisection_step. cbv zeta.
  pose proof (open_clamp a b t Hab) as Hc. cbv zeta in Hc.
  set (t' := fallback in_open a b t) in *.
  destruct Hc as [Hat Htb].
  exists t'. split; [exact Hat|]. split; [exact Htb|].
  destruct (Qltb (Qabs (Fh t' - u)) tolerance || Qltb (b - a) tolerance).
  - left. reflexivity.
  - right. destruct (Qltb (Fh t' - u) 0).
    + exists (newton_step t' (Fh t' - u) (fh t')), t', b.
      repeat split; try lra.
    + exists (newton_step t' (Fh t' - u) (fh t')), a, t'.
      repeat split; try lra.
Qed.

Lemma newton_bisection_bracket_shrinks_witness :
  exists t',
    0 < t' /\ t' < 1 /\
    (newton_bisection in_open (fun t => t) (fun _ => 1) 0.25 1 (Some 0.5) 0 1
       = Some (t', t', 1) \/
     exists t'' a' b',
       0 <= a' /\ a' < b' /\ b' <= 1 /\ b' - a' < 1 - 0 /\
       newton_bisection in_open (fun t => t) (fun _ => 1) 0.25 1 (Some 0.5)
         0 1
         = newton_bisection in_open (fun t => t) (fun _ => 1) 0.25 0 t'' a' b').
Proof.
  apply (newton_bisection_bracket_shrinks (fun t => t) (fun _ => 1) 0.25 0%nat
           (Some 0.5) 0 1).
  reflexivity.
Defined.

(** X2.  [InvertCatmullRom] clamps at the ends of the value range: for
    [u <= values.front()] it returns [x.front()], and for
    [u >= values.back()] (and [u > values.front()]) it returns [x.back()],
    without entering the loop. *)
Theorem InvertCatmullRom_clamps :
  forall (fuel : nat) (x values : list Float) (u vfront vback : Float),
    front values = Some vfront -> back values = Some vback ->
    (u <= vfront -> InvertCatmullRom fuel x values u = front x) /\
    (vfront < u -> vback <= u -> InvertCatmullRom fuel x values u = back x).
Proof.
  intros fuel x values u vfront vback Hf Hb. split.
  - intros Hle. apply Qltb_false in Hle.
    unfold InvertCatmullRom. rewrite Hf. unfold bind at 1.
    rewrite Hle. reflexivity.
  - intros Hlt Hge. apply Qltb_lt in Hlt. apply Qltb_false in Hge.
    unfold InvertCatmullRom. rewrite Hf. unfold bind at 1.
    rewrite Hlt. simpl negb. cbv iota. rewrite Hb. unfold bind at 1.
    rewrite Hge. reflexivity.
Qed.

Lemma InvertCatmullRom_clamps_witness :
  (0 <= 0 -> InvertCatmullRom 0 [0; 1] [0; 1] 0 = front [0; 1]) /\
  (0 < 0 -> 1 <= 0 -> InvertCatmullRom 0 [0; 1] [0; 1] 0 = back [0; 1]).
Proof.
  apply (InvertCatmullRom_clamps 0%nat [0; 1] [0; 1] 0 0 1); reflexivity.
Defined.

Lemma Fourier_loop_chebyshev (a : list Float) (c : Float) :
  forall (k : nat) (value p q : Float),
    p == fst (chebyshev_pair k c) -> q == snd (chebyshev_pair k c) ->
    Fourier_loop a c value p q == value + chebyshev_sum a k c.
Proof.
  unfold Float in *.
  induction a as [|ak tl IH]; intros k value p q Hp Hq; simpl.
  - ring.
  - rewrite (IH (S k)).
    + unfold chebyshev. rewrite Hq. symmetry. apply Qplus_assoc.
    + simpl. destruct (chebyshev_pair k c) as [p' q']. simpl in *. exact Hq.
    + simpl. destruct (chebyshev_pair k c) as [p' q']. simpl in *.
      rewrite Hp, Hq. reflexivity.
Qed.

(** X3.  [Fourier(a, cosPhi)] is the sum of [a_k * T_k(cosPhi)] over the
    coefficients, where [T_k] is the Chebyshev polynomial given by the
    three-term recurrence [T_(k+1) = 2 c T_k - T_(k-1)], that is
    [cos(k phi)] at [c = cos(phi)]. *)
Theorem Fourier_chebyshev_sum :
  forall (a : list Float) (cosPhi : Float),
    Fourier a cosPhi == chebyshev_sum a 0 cosPhi.
Proof.
  intros a c. unfold Fourier.
  rewrite (Fourier_loop_chebyshev a c 0%nat 0 c 1); simpl; try reflexivity.
  ring.
Qed.

(** X4.  [SampleCatmullRom2D] returns 0 at once, writing neither [*fval]
    nor [*pdf], when [alpha] lies outside the domain of [nodes1]. *)
Theorem SampleCatmullRom2D_out_of_range :
  forall (SafeSqrt : Float -> Float) (fuel : nat)
         (nodes1 nodes2 values cdf : list Float) (alpha u : Float)
         (fval pdf : bool) (lo hi : Float),
    front nodes1 = Some lo -> back nodes1 = Some hi ->
    ~ (lo <= alpha /\ alpha <= hi) ->
    SampleCatmullRom2D SafeSqrt fuel nodes1 nodes2 values cdf alpha u fval pdf
      = Some (mkSample 0 None None).
Proof.
  intros SafeSqrt fuel nodes1 nodes2 values cdf alpha u fval pdf lo hi
         Hlo Hhi Hout.
  assert (Hin : in_domain lo hi alpha = false).
  { destruct (in_domain lo hi alpha) eqn:E; [|reflexivity].
    apply in_domain_true in E. contradiction. }
  unfold SampleCatmullRom2D, CatmullRomWeights.
  change (Z.ltb (size [0%Q; 0%Q; 0%Q; 0%Q]) 4) with false. cbv iota.
  rewrite Hlo, Hhi. unfold bind at 2 3. rewrite Hin. reflexivity.
Qed.

Lemma SampleCatmullRom2D_out_of_range_witness :
  SampleCatmullRom2D SafeSqrt_approx 0 [0; 1] [0; 1] [0; 1; 0; 1] [0; 1; 0; 1]
    2 0.5 true true
  = Some (mkSample 0 None None).
Proof.
  apply (SampleCatmullRom2D_out_of_range SafeSqrt_approx 0%nat [0; 1] [0; 1]
           [0; 1; 0; 1] [0; 1; 0; 1] 2 0.5 true true 0 1).
  - reflexivity.
  - reflexivity.
  - intros [_ H]. vm_compute in H. apply H. reflexivity.
Defined.

(** ** Tables sampled from an affine function *)

Lemma aref_map (g : Float -> Float) (a : list Float) (i : Z) :
  aref (map g a) i = option_map g (aref a i).
Proof.
  unfold aref. destruct (i <? 0)%Z; [reflexivity|]. apply nth_error_map.
Qed.

Lemma size_affine m c nodes : size (affine_values m c nodes) = size nodes.
Proof. unfold size, affine_values. rewrite length_map. reflexivity. Qed.

Lemma aref_affine m c nodes i v :
  aref nodes i = Some v -> aref (affine_values m c nodes) i = Some (m * v + c).
Proof. intros E. unfold affine_values. rewrite aref_map, E. reflexivity. Qed.

(** On an affine table both derivative estimates of every segment are the
    slope times the width of the segment. *)
Lemma affine_segment x m c i s :
  increasing x ->
  lookup_segment x (affine_values m c x) i = Some s ->
  seg_x0 s < seg_x1 s /\
  seg_f0 s = m * seg_x0 s + c /\ seg_f1 s = m * seg_x1 s + c /\
  seg_d0 s == m * (seg_x1 s - seg_x0 s) /\
  seg_d1 s == m * (seg_x1 s - seg_x0 s).
Proof.
  intros Hinc Hseg. apply lookup_segment_inv in Hseg.
  destruct Hseg as (E0 & E1 & E2 & E3 & E4 & E5).
  pose proof (aref_Some_range _ _ _ E0) as Hi.
  rewrite (aref_affine m c x i _ E0) in E2.
  rewrite (aref_affine m c x (i + 1) _ E1) in E3.
  injection E2 as F0. injection E3 as F1.
  assert (H01 : seg_x0 s < seg_x1 s) by (apply (Hinc i (i + 1)%Z); auto; lia).
  split; [exact H01|]. split; [auto|]. split; [auto|].
  apply deriv0_inv in E4. apply deriv1_inv in E5. split.
  - destruct (Z.gtb_spec i 0) as [G|G].
    + destruct E4 as (fm & xm & Efm & Exm & ->).
      rewrite (aref_affine m c x (i - 1) _ Exm) in Efm. injection Efm as <-.
      assert (xm < seg_x0 s) by (apply (Hinc (i - 1)%Z i); auto; lia).
      rewrite <- F1. field. lra.
    + rewrite E4, <- F0, <- F1. ring.
  - destruct (Z.ltb_spec (i + 2) (size x)) as [G|G].
    + destruct E5 as (fp & xp & Efp & Exp & ->).
      rewrite (aref_affine m c x (i + 2) _ Exp) in Efp. injection Efp as <-.
      assert (seg_x1 s < xp) by (apply (Hinc (i + 1)%Z (i + 2)%Z); auto; lia).
      rewrite <- F0. field. lra.
    + rewrite E5, <- F0, <- F1. ring.
Qed.

Lemma hermite_affine f0 f1 d0 d1 t :
  d0 == f1 - f0 -> d1 == f1 - f0 ->
  Fhat_hermite f0 f1 d0 d1 t == f0 + t * (f1 - f0).
Proof.
  intros H0 H1. unfold Fhat_hermite. cbv zeta. rewrite H0, H1. ring.
Qed.

(** X5.  [CatmullRom] reproduces affine functions.  For a strictly
    increasing node sequence of length at least 2 and the table of
    [v -> m * v + c] at the nodes, the interpolant at every [x] of the
    domain is [m * x + c]. *)
Theorem CatmullRom_affine_exact :
  forall (nodes : list Float) (m c x lo hi : Float),
    increasing nodes -> (2 <= size nodes)%Z ->
    front nodes = Some lo -> back nodes = Some hi ->
    lo <= x -> x <= hi ->
    exists r,
      CatmullRom nodes (affine_values m c nodes) x = Some r /\
      r == m * x + c.
Proof.
  intros nodes m c x lo hi Hinc Hn Hlo Hhi Hlx Hxh.
  pose proof (size_affine m c nodes) as Hs. symmetry in Hs.
  destruct (segment_locate nodes x lo hi Hinc Hn Hlo Hhi Hlx Hxh)
    as (Hidx & _).
  destruct (lookup_segment_defined nodes (affine_values m c nodes) _ Hs Hidx)
    as [s Hseg].
  assert (Hin : in_domain lo hi x = true) by (apply in_domain_true; auto).
  rewrite (CatmullRom_segment nodes _ x lo hi s Hs Hlo Hhi Hin Hseg).
  eexists. split; [reflexivity|].
  destruct (affine_segment nodes m c _ s Hinc Hseg)
    as (H01 & F0 & F1 & D0 & D1).
  rewrite hermite_affine.
  - rewrite F0, F1. field. lra.
  - rewrite D0, F0, F1. ring.
  - rewrite D1, F0, F1. ring.
Qed.

Lemma CatmullRom_affine_exact_witness :
  exists r,
    CatmullRom scenario_nodes (affine_values 2 1 scenario_nodes) 1.5 = Some r /\
    r == 2 * 1.5 + 1.
Proof.
  apply (CatmullRom_affine_exact scenario_nodes 2 1 1.5 0 3).
  - exact scenario_nodes_increasing.
  - vm_compute. discriminate.
  - reflexivity.
  - reflexivity.
  - vm_compute. discriminate.
  - vm_compute. discriminate.
Defined.

(** What [IntegrateCatmullRom] leaves in a buffer of the length of the node
    sequence: the running sums of the segment integrals. *)
Lemma IntegrateCatmullRom_run x values cdf0 :
  (1 <= size x)%Z -> size x = size values -> size cdf0 = size x ->
  exists total cdf,
    IntegrateCatmullRom x values cdf0 = Some (total, cdf) /\
    size cdf = size x /\
    aref cdf 0 = Some 0 /\
    (forall j, (0 <= j < size x - 1)%Z ->
       exists s cj cj1,
         lookup_segment x values j = Some s /\
         aref cdf j = Some cj /\ aref cdf (j + 1) = Some cj1 /\
         cj1 == cj + segment_integral s) /\
    aref cdf (size x - 1) = Some total.
Proof.
  intros Hn Hs Hc.
  unfold IntegrateCatmullRom. rewrite Hs, Z.eqb_refl. rewrite <- Hs.
  simpl negb. cbv iota.
  destruct (aset_spec cdf0 0 0) as (cdf1 & E1 & L1 & G1 & O1); [lia|].
  rewrite E1. unfold bind at 1.
  destruct (Z.eqb_spec (size x) 0); [lia|].
  destruct (integrate_loop_spec x values Hs (Z.to_nat (size x - 1)) 0 0 cdf1)
    as (total & cdf & Er & Lr & Pr & Sr & Tr); try lia; auto.
  exists total, cdf. split; [exact Er|]. split; [exact Lr|].
  split; [rewrite Pr by lia; exact G1|]. split.
  - intros j Hj. apply Sr. lia.
  - replace (size x - 1)%Z with (0 + Z.of_nat (Z.to_nat (size x - 1)))%Z by lia.
    exact Tr.
Qed.

Lemma segment_integral_affine s m c :
  seg_f0 s = m * seg_x0 s + c -> seg_f1 s = m * seg_x1 s + c ->
  seg_d0 s == m * (seg_x1 s - seg_x0 s) ->
  seg_d1 s == m * (seg_x1 s - seg_x0 s) ->
  segment_integral s ==
    (seg_x1 s - seg_x0 s) * (m * (seg_x1 s + seg_x0 s) / 2 + c).
Proof.
  intros F0 F1 D0 D1. unfold segment_integral. rewrite D0, D1, F0, F1. field.
Qed.

(** X6.  In exact arithmetic [IntegrateCatmullRom] integrates affine
    tables without error.  For the table of [v -> m * v + c] at strictly
    increasing nodes, [cdf[i]] is the integral of the function from
    [x.front()] to [x[i]], that is
    [(x[i] - lo) * (m * (x[i] + lo) / 2 + c)], and the returned total is the
    integral over the whole domain. *)
Theorem IntegrateCatmullRom_affine_exact :
  forall (x cdf0 : list Float) (m c lo hi : Float),
    increasing x -> (1 <= size x)%Z -> size cdf0 = size x ->
    front x = Some lo -> back x = Some hi ->
    exists (total : Float) (cdf : list Float),
      IntegrateCatmullRom x (affine_values m c x) cdf0 = Some (total, cdf) /\
      (forall i xi ci, aref x i = Some xi -> aref cdf i = Some ci ->
         ci == (xi - lo) * (m * (xi + lo) / 2 + c)) /\
      total == (hi - lo) * (m * (hi + lo) / 2 + c).
Proof.
  intros x cdf0 m c lo hi Hinc Hn Hc Hlo Hhi.
  pose proof (size_affine m c x) as Hs. symmetry in Hs.
  destruct (IntegrateCatmullRom_run x _ cdf0 Hn Hs Hc)
    as (total & cdf & Er & Lr & C0 & Step & Tot).
  assert (Hall : forall n : nat, forall xi ci,
            aref x (Z.of_nat n) = Some xi -> aref cdf (Z.of_nat n) = Some ci ->
            ci == (xi - lo) * (m * (xi + lo) / 2 + c)).
  { induction n as [|n IH]; intros xi ci Ex Ec.
    - change (Z.of_nat 0) with 0%Z in *. unfold front in Hlo.
      assert (xi = lo) by congruence. assert (ci = 0) by congruence.
      subst. ring.
    - pose proof (aref_Some_range _ _ _ Ex) as Hr.
      replace (Z.of_nat (S n)) with (Z.of_nat n + 1)%Z in * by lia.
      destruct (Step (Z.of_nat n)) as (s & cj & cj1 & Hseg & Ej & Ej1 & Heq);
        [lia|].
      destruct (affine_segment x m c _ s Hinc Hseg)
        as (H01 & F0 & F1 & D0 & D1).
      pose proof (segment_integral_affine s m c F0 F1 D0 D1) as Hint.
      pose proof (lookup_segment_inv _ _ _ _ Hseg) as (E0 & E1 & _).
      assert (seg_x1 s = xi) by congruence. assert (cj1 = ci) by congruence.
      subst. rewrite Heq, Hint, (IH _ _ E0 Ej). field. }
  exists total, cdf. split; [exact Er|]. split.
  - intros i xi ci Ex Ec. pose proof (aref_Some_range _ _ _ Ex) as Hr.
    replace i with (Z.of_nat (Z.to_nat i)) in Ex, Ec by lia.
    exact (Hall _ _ _ Ex Ec).
  - unfold back in Hhi.
    replace (size x - 1)%Z with (Z.of_nat (Z.to_nat (size x - 1))) in Hhi, Tot
      by lia.
    exact (Hall _ _ _ Hhi Tot).
Qed.

Lemma IntegrateCatmullRom_affine_exact_witness :
  exists (total : Float) (cdf : list Float),
    IntegrateCatmullRom scenario_nodes (affine_values 2 1 scenario_nodes)
      [0; 0; 0; 0] = Some (total, cdf) /\
    (forall i xi ci, aref scenario_nodes i = Some xi -> aref cdf i = Some ci ->
       ci == (xi - 0) * (2 * (xi + 0) / 2 + 1)) /\
    total == (3 - 0) * (2 * (3 + 0) / 2 + 1).
Proof.
  apply (IntegrateCatmullRom_affine_exact scenario_nodes [0; 0; 0; 0] 2 1 0 3).
  - exact scenario_nodes_increasing.
  - vm_compute. discriminate.
  - reflexivity.
  - reflexivity.
  - reflexivity.
Defined.

(** X7.  In exact arithmetic the interpolant has a continuous slope at the
    interior nodes.  Two adjacent segments [i-1] and [i] of a strictly
    increasing node sequence share node [i] and its value, and the
    derivative estimate [d1] at the end of segment [i-1] and the estimate
    [d0] at the start of segment [i], each divided by the width of its
    segment, are equal. *)
Theorem CatmullRom_slopes_agree :
  forall (x f : list Float) (i : Z) (s s' : segment),
    increasing x -> (1 <= i)%Z ->
    lookup_segment x f (i - 1) = Some s ->
    lookup_segment x f i = Some s' ->
    seg_x1 s = seg_x0 s' /\ seg_f1 s = seg_f0 s' /\
    seg_d1 s / (seg_x1 s - seg_x0 s) == seg_d0 s' / (seg_x1 s' - seg_x0 s').
Proof.
  intros x f i s s' Hinc Hi Hs Hs'.
  apply lookup_segment_inv in Hs, Hs'.
  destruct Hs as (A0 & A1 & A2 & A3 & _ & A5).
  destruct Hs' as (B0 & B1 & B2 & B3 & B4 & _).
  replace (i - 1 + 1)%Z with i in A1, A3 by lia.
  split; [congruence|]. split; [congruence|].
  apply deriv1_inv in A5. apply deriv0_inv in B4.
  pose proof (aref_Some_range _ _ _ B1) as Hr.
  assert (W : seg_x0 s < seg_x1 s) by (apply (Hinc (i - 1)%Z i); auto; lia).
  assert (W' : seg_x0 s' < seg_x1 s')
    by (apply (Hinc i (i + 1)%Z); auto; lia).
  assert (W2 : seg_x0 s < seg_x1 s')
    by (apply (Hinc (i - 1)%Z (i + 1)%Z); auto; lia).
  destruct (Z.ltb_spec (i - 1 + 2) (size x)) as [G|G]; [|lia].
  destruct (Z.gtb_spec i 0) as [G'|G']; [|lia].
  destruct A5 as (fp & xp & Efp & Exp & ->).
  destruct B4 as (fm & xm & Efm & Exm & ->).
  replace (i - 1 + 2)%Z with (i + 1)%Z in Efp, Exp by lia.
  assert (fp = seg_f1 s') by congruence.
  assert (xp = seg_x1 s') by congruence.
  assert (fm = seg_f0 s) by congruence.
  assert (xm = seg_x0 s) by congruence.
  subst. unfold Float in *.
  field. repeat split; lra.
Qed.

Lemma CatmullRom_slopes_agree_witness :
  exists s s',
    lookup_segment scenario_nodes scenario_values (2 - 1) = Some s /\
    lookup_segment scenario_nodes scenario_values 2 = Some s' /\
    seg_x1 s = seg_x0 s' /\ seg_f1 s = seg_f0 s' /\
    seg_d1 s / (seg_x1 s - seg_x0 s) == seg_d0 s' / (seg_x1 s' - seg_x0 s').
Proof.
  destruct (lookup_segment scenario_nodes scenario_values (2 - 1))
    as [s|] eqn:E; [|vm_compute in E; discriminate].
  destruct (lookup_segment scenario_nodes scenario_values 2)
    as [s'|] eqn:E'; [|vm_compute in E'; discriminate].
  exists s, s'. split; [reflexivity|]. split; [reflexivity|].
  apply (CatmullRom_slopes_agree scenario_nodes scenario_values 2 s s').
  - exact scenario_nodes_increasing.
  - lia.
  - exact E.
  - exact E'.
Defined.

(** ** The interpolant on a segment, ends included *)

(** The interval search on a sequence that need not be monotone: for a
    query between the first and the last entry the returned index brackets
    the query. *)
Lemma search_bracket (a : list Float) (v lo hi : Float) :
  (2 <= size a)%Z -> front a = Some lo -> back a = Some hi ->
  lo <= v -> v < hi ->
  let idx := GetIntArrayerval (size a) (le_pred a v) in
  (0 <= idx <= size a - 2)%Z /\
  exists a0 a1,
    aref a idx = Some a0 /\ aref a (idx + 1) = Some a1 /\ a0 <= v /\ v < a1.
Proof.
  intros Hn Hlo Hhi Hlv Hvh idx.
  pose proof (GetIntArrayerval_range (size a) (le_pred a v) Hn) as Hr.
  fold idx in Hr. split; [exact Hr|].
  destruct (aref_in_range a idx) as [a0 E0]; [lia|].
  destruct (aref_in_range a (idx + 1)) as [a1 E1]; [lia|].
  exists a0, a1. split; [exact E0|]. split; [exact E1|].
  destruct (GetIntArrayerval_boundary (size a) (le_pred a v))
    as (R1 & R2 & R3); [lia|].
  unfold idx, GetIntArrayerval in E0, E1.
  set (r := find_loop (Z.to_nat (size a)) (le_pred a v) 0 (size a)) in *.
  assert (Hr1 : (1 <= r)%Z).
  { destruct (Z_lt_le_dec 0 r) as [H|H]; [lia|].
    assert (r = 0%Z) by lia.
    assert (Hf : le_pred a v r = false) by (apply R3; lia).
    rewrite H0 in Hf. rewrite (le_pred_at _ _ _ _ Hlo) in Hf.
    apply Qle_bool_false in Hf. lra. }
  assert (HPr : le_pred a v (r - 1) = true) by (apply R2; lia).
  assert (Hrn : (r < size a)%Z).
  { destruct (Z.eq_dec r (size a)) as [Heq|Hne]; [|lia].
    rewrite Heq in HPr. unfold back in Hhi.
    rewrite (le_pred_at _ _ _ _ Hhi) in HPr. apply Qle_bool_iff in HPr. lra. }
  rewrite Clamp_id in E0, E1 by lia.
  replace (r - 1 + 1)%Z with r in E1 by lia.
  rewrite (le_pred_at _ _ _ _ E0) in HPr. apply Qle_bool_iff in HPr.
  assert (Hf : le_pred a v r = false) by (apply R3; lia).
  rewrite (le_pred_at _ _ _ _ E1) in Hf. apply Qle_bool_false in Hf.
  split; assumption.
Qed.

Lemma hermite_ext f0 f1 d0 d1 t t' :
  t == t' -> Fhat_hermite f0 f1 d0 d1 t == Fhat_hermite f0 f1 d0 d1 t'.
Proof. intros H. unfold Fhat_hermite. cbv zeta. rewrite H. reflexivity. Qed.

(** [CatmullRom] at a node returns the value of the node. *)
Lemma CatmullRom_node nodes values lo hi i xi vi x :
  increasing nodes -> (2 <= size nodes)%Z -> size nodes = size values ->
  front nodes = Some lo -> back nodes = Some hi ->
  aref nodes i = Some xi -> aref values i = Some vi -> x == xi ->
  exists r, CatmullRom nodes values x = Some r /\ r == vi.
Proof.
  intros Hinc Hn Hs Hlo Hhi Ei Evi Hx.
  pose proof (aref_Some_range _ _ _ Ei) as Hi.
  assert (Hlx : lo <= x).
  { assert (lo <= xi) by (apply (increasing_le nodes 0 i); auto; lia). lra. }
  assert (Hxh : x <= hi).
  { assert (xi <= hi)
      by (apply (increasing_le nodes i (size nodes - 1)); auto; lia). lra. }
  assert (Hin : in_domain lo hi x = true) by (apply in_domain_true; auto).
  pose proof (GetIntArrayerval_threshold (size nodes) (le_pred nodes x) i Hn
                ltac:(lia) (le_pred_node_threshold nodes x i xi Hinc Ei Hx))
    as Hidx.
  destruct (lookup_segment_defined nodes values
              (GetIntArrayerval (size nodes) (le_pred nodes x)) Hs) as [s Hseg].
  { apply GetIntArrayerval_range. exact Hn. }
  rewrite (CatmullRom_segment nodes values x lo hi s Hs Hlo Hhi Hin Hseg).
  eexists. split; [reflexivity|].
  apply lookup_segment_inv in Hseg.
  destruct Hseg as (E0 & E1 & E2 & E3 & _).
  rewrite Hidx in E0, E1, E2, E3.
  destruct (Z_le_gt_dec i (size nodes - 2)) as [Hle|Hgt].
  - rewrite Clamp_id in E0, E2 by lia.
    assert (seg_x0 s = xi) by congruence.
    assert (seg_f0 s = vi) by congruence.
    rewrite <- H0. apply hermite_at_0. rewrite H.
    setoid_replace (x - xi) with 0 by lra. unfold Qdiv. ring.
  - assert (Ec : Clamp i 0 (size nodes - 2) = (size nodes - 2)%Z).
    { unfold Clamp. destruct (Z.ltb_spec i 0); [lia|].
      destruct (Z.gtb_spec i (size nodes - 2)); lia. }
    rewrite Ec in E0, E1, E3.
    replace (size nodes - 2 + 1)%Z with i in E1, E3 by lia.
    assert (seg_x1 s = xi) by congruence.
    assert (seg_f1 s = vi) by congruence.
    assert (seg_x0 s < xi).
    { apply (Hinc (size nodes - 2)%Z i); auto; lia. }
    rewrite <- H0. apply hermite_at_1. rewrite H.
    setoid_replace (x - seg_x0 s) with (xi - seg_x0 s) by lra.
    field. lra.
Qed.

(** On segment [i], both ends included, [CatmullRom] is the Hermite cubic of
    the segment in the parameter [t]. *)
Lemma CatmullRom_on_segment x f lo hi i s p t :
  increasing x -> (2 <= size x)%Z -> size x = size f ->
  front x = Some lo -> back x = Some hi ->
  lookup_segment x f i = Some s ->
  p == seg_x0 s + t * (seg_x1 s - seg_x0 s) -> 0 <= t -> t <= 1 ->
  exists v,
    CatmullRom x f p = Some v /\
    v == Fhat_hermite (seg_f0 s) (seg_f1 s) (seg_d0 s) (seg_d1 s) t.
Proof.
  intros Hinc Hn Hs Hlo Hhi Hseg Hp Ht0 Ht1.
  pose proof (lookup_segment_inv x f i s Hseg) as (E0 & E1 & E2 & E3 & _).
  pose proof (aref_Some_range _ _ _ E0) as Hi0.
  pose proof (aref_Some_range _ _ _ E1) as Hi1.
  assert (H01 : seg_x0 s < seg_x1 s) by (apply (Hinc i (i + 1)%Z); auto; lia).
  destruct (Qlt_le_dec 0 t) as [Hpos|Hz].
  - destruct (Qlt_le_dec t 1) as [Hlt|Hone].
    + assert (Hlo0 : lo <= seg_x0 s)
        by (apply (increasing_le x 0 i); auto; lia).
      assert (Hhi1 : seg_x1 s <= hi).
      { apply (increasing_le x (i + 1) (size x - 1)); auto; lia. }
      assert (Hp0 : seg_x0 s < p) by (rewrite Hp; nra).
      assert (Hp1 : p < seg_x1 s) by (rewrite Hp; nra).
      assert (Hin : in_domain lo hi p = true) by (apply in_domain_true; lra).
      pose proof (locate_inside x i (seg_x0 s) (seg_x1 s) p
                    Hinc Hn ltac:(lia) E0 E1 Hp0 Hp1) as Hloc.
      rewrite <- Hloc in Hseg.
      rewrite (CatmullRom_segment x f p lo hi s Hs Hlo Hhi Hin Hseg).
      eexists. split; [reflexivity|].
      apply hermite_ext. rewrite Hp. field. lra.
    + destruct (CatmullRom_node x f lo hi (i + 1) (seg_x1 s) (seg_f1 s) p)
        as (r & Er & Hr); auto.
      { rewrite Hp. assert (t == 1) by lra. rewrite H. ring. }
      exists r. split; [exact Er|]. rewrite Hr. symmetry.
      apply hermite_at_1. lra.
  - destruct (CatmullRom_node x f lo hi i (seg_x0 s) (seg_f0 s) p)
      as (r & Er & Hr); auto.
    { rewrite Hp. assert (t == 0) by lra. rewrite H. ring. }
    exists r. split; [exact Er|]. rewrite Hr. symmetry.
    apply hermite_at_0. lra.
Qed.

(** ** What the loop with the strict bracket test knows at its exit *)

(** At the [break] the iterate lies strictly inside the current bracket
    [a', b'], the residual is below the tolerance or the bracket is narrower
    than the tolerance, and each end of the bracket is either the initial
    one or an iterate at which the residual had the matching sign. *)
Lemma newton_open_exit (Fh fh : Float -> Float) (u : Float) :
  forall (fuel : nat) (t : option Float) (a b tt FF ff : Float),
    a < b ->
    newton_bisection in_open Fh fh u fuel t a b = Some (tt, FF, ff) ->
    exists a' b',
      a <= a' /\ a' < tt /\ tt < b' /\ b' <= b /\
      FF = Fh tt /\ ff = fh tt /\
      (Qabs (Fh tt - u) < tolerance \/ b' - a' < tolerance) /\
      (a' = a \/ Fh a' - u < 0) /\ (b' = b \/ 0 <= Fh b' - u).
Proof.
  induction fuel as [|fuel IH]; intros t a b tt FF ff Hab; [discriminate|].
  rewrite newton_bisection_step. cbv zeta.
  pose proof (open_clamp a b t Hab) as Hc. cbv zeta in Hc.
  set (t' := fallback in_open a b t) in *.
  destruct Hc as [Hat Htb].
  destruct (Qltb (Qabs (Fh t' - u)) tolerance || Qltb (b - a) tolerance) eqn:Eb.
  - intros H. injection H as <- <- <-. exists a, b.
    repeat split; auto; try lra.
    apply orb_true_iff in Eb. destruct Eb as [E|E]; apply Qltb_lt in E; auto.
  - destruct (Qltb (Fh t' - u) 0) eqn:Es; intros H; apply IH in H; auto;
      destruct H as (a' & b' & H1 & H2 & H3 & H4 & H5 & H6 & H7 & H8 & H9);
      exists a', b'; repeat split; auto; try lra.
    + destruct H8 as [->|H8]; [|right; exact H8].
      right. apply Qltb_lt in Es. exact Es.
    + destruct H9 as [->|H9]; [|right; exact H9].
      right. apply Qltb_false in Es. exact Es.
Qed.

Lemma InvertCatmullRom_unfold fuel x values u vlo vhi s :
  front values = Some vlo -> back values = Some vhi ->
  vlo < u -> u < vhi ->
  lookup_segment x values
    (GetIntArrayerval (size values) (le_pred values u)) = Some s ->
  InvertCatmullRom fuel x values u =
  (r <- newton_bisection in_open
          (Fhat_hermite (seg_f0 s) (seg_f1 s) (seg_d0 s) (seg_d1 s))
          (fhat_hermite (seg_f0 s) (seg_f1 s) (seg_d0 s) (seg_d1 s))
          u fuel (Some 0.5) 0 1 ;;
   let '(t, _, _) := r in
   Some (seg_x0 s + t * (seg_x1 s - seg_x0 s))).
Proof.
  intros Hf Hb Hlo Hhi Hseg.
  apply lookup_segment_inv in Hseg.
  destruct Hseg as (E0 & E1 & E2 & E3 & E4 & E5).
  apply Qltb_lt in Hlo, Hhi.
  unfold InvertCatmullRom. rewrite Hf. unfold bind at 1. rewrite Hlo.
  simpl negb. cbv iota. rewrite Hb. unfold bind at 1. rewrite Hhi.
  simpl negb. cbv iota zeta.
  rewrite E0, E1, E2, E3. unfold bind at 1 2 3 4.
  rewrite E4, E5. reflexivity.
Qed.

(** X8.  In exact arithmetic, whenever [InvertCatmullRom] leaves its loop,
    for strictly increasing [x], any values and [u] strictly between
    [values.front()] and [values.back()], the returned position [r] lies
    strictly inside [[x.front(), x.back()]], and either the interpolant at
    [r] is within [1e-6f] of [u], or [r] lies in an interval [[p, q]] of
    the domain, narrower than [1e-6f * (x.back() - x.front())], on whose
    ends the interpolant is at most [u] and at least [u]. *)
Theorem InvertCatmullRom_result :
  forall (fuel : nat) (x values : list Float) (u lo hi vlo vhi r : Float),
    increasing x -> (2 <= size x)%Z -> size x = size values ->
    front x = Some lo -> back x = Some hi ->
    front values = Some vlo -> back values = Some vhi ->
    vlo < u -> u < vhi ->
    InvertCatmullRom fuel x values u = Some r ->
    lo < r /\ r < hi /\
    exists v,
      CatmullRom x values r = Some v /\
      (Qabs (v - u) < tolerance \/
       exists p q vp vq,
         lo <= p /\ p < r /\ r < q /\ q <= hi /\
         q - p < tolerance * (hi - lo) /\
         CatmullRom x values p = Some vp /\ CatmullRom x values q = Some vq /\
         vp <= u /\ u <= vq).
Proof.
  intros fuel x values u lo hi vlo vhi r
         Hinc Hn Hs Hlo Hhi Hvlo Hvhi Hu0 Hu1 Hrun.
  destruct (search_bracket values u vlo vhi)
    as (Hi & f0 & f1 & F0 & F1 & Hf0 & Hf1);
    try lra; auto; [lia|].
  set (i := GetIntArrayerval (size values) (le_pred values u)) in *.
  destruct (lookup_segment_defined x values i Hs) as [s Hseg]; [lia|].
  rewrite (InvertCatmullRom_unfold fuel x values u vlo vhi s
             Hvlo Hvhi Hu0 Hu1 Hseg)
    in Hrun.
  destruct (newton_bisection _ _ _ _ _ _ _ _) as [[[t FF] ff]|] eqn:Eloop;
    [|discriminate].
  simpl in Hrun. injection Hrun as <-.
  apply newton_open_exit in Eloop; [|reflexivity].
  destruct Eloop as (a' & b' & A1 & A2 & A3 & A4 & _ & _ & Hexit & Ha & Hb).
  pose proof (lookup_segment_inv x values i s Hseg) as (E0 & E1 & E2 & E3 & _).
  assert (Ef0 : seg_f0 s = f0) by congruence.
  assert (Ef1 : seg_f1 s = f1) by congruence.
  assert (H01 : seg_x0 s < seg_x1 s)
    by (apply (Hinc i (i + 1)%Z); auto; lia).
  assert (Hlo0 : lo <= seg_x0 s)
    by (apply (increasing_le x 0 i); auto; lia).
  assert (Hhi1 : seg_x1 s <= hi).
  { apply (increasing_le x (i + 1) (size x - 1)); auto; lia. }
  assert (Ht0 : 0 < t) by lra. assert (Ht1 : t < 1) by lra.
  assert (Htw0 : 0 < t * (seg_x1 s - seg_x0 s)) by nra.
  assert (Htw1 : t * (seg_x1 s - seg_x0 s) < seg_x1 s - seg_x0 s) by nra.
  assert (Haw0 : 0 <= a' * (seg_x1 s - seg_x0 s)) by nra.
  assert (Haw1 : a' * (seg_x1 s - seg_x0 s) < t * (seg_x1 s - seg_x0 s))
    by nra.
  assert (Hbw0 : t * (seg_x1 s - seg_x0 s) < b' * (seg_x1 s - seg_x0 s))
    by nra.
  assert (Hbw1 : b' * (seg_x1 s - seg_x0 s) <= seg_x1 s - seg_x0 s) by nra.
  assert (Hbaw : (b' - a') * (seg_x1 s - seg_x0 s)
                 <= (b' - a') * (hi - lo)) by nra.
  split; [lra|]. split; [lra|].
  set (Fh := Fhat_hermite (seg_f0 s) (seg_f1 s) (seg_d0 s) (seg_d1 s)) in *.
  destruct (CatmullRom_on_segment x values lo hi i s
              (seg_x0 s + t * (seg_x1 s - seg_x0 s)) t)
    as (v & Ev & Hv); auto; try reflexivity; try lra.
  exists v. split; [exact Ev|].
  destruct Hexit as [Hres|Hwid].
  - left. rewrite Hv. exact Hres.
  - right.
    destruct (CatmullRom_on_segment x values lo hi i s
                (seg_x0 s + a' * (seg_x1 s - seg_x0 s)) a')
      as (vp & Evp & Hvp); auto; try reflexivity; try lra.
    destruct (CatmullRom_on_segment x values lo hi i s
                (seg_x0 s + b' * (seg_x1 s - seg_x0 s)) b')
      as (vq & Evq & Hvq); auto; try reflexivity; try lra.
    exists (seg_x0 s + a' * (seg_x1 s - seg_x0 s)),
           (seg_x0 s + b' * (seg_x1 s - seg_x0 s)), vp, vq.
    split; [lra|]. split; [lra|]. split; [lra|]. split; [lra|].
    split; [nra|]. split; [exact Evp|]. split; [exact Evq|].
    split.
    + rewrite Hvp. destruct Ha as [->|Ha].
      * unfold Fh. rewrite hermite_at_0 by reflexivity. rewrite Ef0. exact Hf0.
      * fold Fh. lra.
    + rewrite Hvq. destruct Hb as [->|Hb].
      * unfold Fh. rewrite hermite_at_1 by reflexivity. rewrite Ef1. lra.
      * fold Fh. lra.
Qed.

Lemma InvertCatmullRom_result_witness :
  exists r,
    InvertCatmullRom 1 [0; 1] [0; 1] 0.5 = Some r /\
    0 < r /\ r < 1 /\
    exists v,
      CatmullRom [0; 1] [0; 1] r = Some v /\
      (Qabs (v - 0.5) < tolerance \/
       exists p q vp vq,
         0 <= p /\ p < r /\ r < q /\ q <= 1 /\
         q - p < tolerance * (1 - 0) /\
         CatmullRom [0; 1] [0; 1] p = Some vp /\
         CatmullRom [0; 1] [0; 1] q = Some vq /\
         vp <= 0.5 /\ 0.5 <= vq).
Proof.
  destruct (InvertCatmullRom 1 [0; 1] [0; 1] 0.5) as [r|] eqn:E;
    [|vm_compute in E; discriminate].
  exists r. split; [reflexivity|].
  apply (InvertCatmullRom_result 1 [0; 1] [0; 1] 0.5 0 1 0 1 r).
  - apply increasingb_sound. reflexivity.
  - vm_compute. discriminate.
  - reflexivity.
  - reflexivity.
  - reflexivity.
  - reflexivity.
  - reflexivity.
  - reflexivity.
  - reflexivity.
  - exact E.
Defined.

(** ** The loop on a target that is linear in [t] *)

Section LinearTarget.

Variables Fh fh : Float -> Float.
Variables u D ts : Float.
Hypothesis D_pos : 0 < D.
Hypothesis Fh_linear : forall t, Fh t - u == D * (t - ts).
Hypothesis fh_constant : forall t, fh t == D.

Lemma newton_linear_step t :
  exists t', newton_step t (Fh t - u) (fh t) = Some t' /\ t' == ts.
Proof.
  assert (Hne : ~ fh t == 0) by (rewrite fh_constant; lra).
  rewrite (newton_step_defined _ _ _ Hne). eexists. split; [reflexivity|].
  rewrite Fh_linear, fh_constant. field. lra.
Qed.

(** An iterate on the root that passes the bracket test ends the loop. *)
Lemma newton_linear_root fuel t a b :
  in_open a b t = true -> t == ts ->
  newton_bisection in_open Fh fh u (S fuel) (Some t) a b
    = Some (t, Fh t, fh t).
Proof.
  intros Hin Ht. rewrite newton_bisection_step.
  rewrite (fallback_inside _ _ _ _ Hin).
  cbv iota zeta. rewrite Qabs_zero_small; [reflexivity|].
  rewrite Fh_linear, Ht. ring.
Qed.

(** Every Newton step lands on the root; when the root is not strictly
    inside the bracket the loop bisects, halving the bracket, until the
    bracket is narrower than the tolerance. *)
Lemma newton_linear_terminates :
  forall (n fuel : nat) (t : option Float) (a b : Float),
    (n + 1 <= fuel)%nat -> a < b -> a <= ts -> ts <= b ->
    fallback in_open a b t == 0.5 * (a + b) ->
    b - a < 0.5 * width_bound n ->
    exists tt,
      newton_bisection in_open Fh fh u fuel t a b = Some (tt, Fh tt, fh tt) /\
      a < tt /\ tt < b /\
      (Qabs (Fh tt - u) < tolerance \/ Qabs (tt - ts) < tolerance).
Proof.
  induction n as [|n IH]; intros fuel t a b Hfuel Hab Hats Htsb Hmid Hw;
    (destruct fuel as [|fuel]; [lia|]);
    rewrite newton_bisection_step; cbv zeta;
    pose proof (open_clamp a b t Hab) as Hc; cbv zeta in Hc;
    set (t' := fallback in_open a b t) in *;
    destruct Hc as [Hat Htb]; simpl in Hw.
  - assert (E : Qltb (b - a) tolerance = true) by (apply Qltb_lt; lra).
    rewrite E, orb_true_r. exists t'. split; [reflexivity|].
    split; [exact Hat|]. split; [exact Htb|]. right.
    apply Qabs_Qlt_condition. split; lra.
  - destruct (Qltb (Qabs (Fh t' - u)) tolerance || Qltb (b - a) tolerance) eqn:Eb.
    + exists t'. split; [reflexivity|].
      split; [exact Hat|]. split; [exact Htb|].
      apply orb_true_iff in Eb. destruct Eb as [E|E]; apply Qltb_lt in E.
      * left. exact E.
      * right. apply Qabs_Qlt_condition. split; lra.
    + destruct (newton_linear_step t') as (t'' & Est & Hstep).
      rewrite Est.
      pose proof (Fh_linear t') as HR.
      assert (Hnext : forall a' b',
                a <= a' -> a' < b' -> b' <= b -> a' <= ts -> ts <= b' ->
                b' - a' == 0.5 * (b - a) ->
                exists tt,
                  newton_bisection in_open Fh fh u fuel (Some t'') a' b'
                    = Some (tt, Fh tt, fh tt) /\
                  a < tt /\ tt < b /\
                  (Qabs (Fh tt - u) < tolerance \/ Qabs (tt - ts) < tolerance)).
      { intros a' b' B1 B2 B3 B4 B5 B6.
        destruct (in_open a' b' t'') eqn:Ein.
        - destruct fuel as [|fuel]; [lia|].
          rewrite (newton_linear_root fuel t'' a' b' Ein Hstep).
          apply in_open_true in Ein.
          exists t''. split; [reflexivity|]. split; [lra|]. split; [lra|].
          left. rewrite Fh_linear, Hstep.
          setoid_replace (D * (ts - ts)) with 0 by ring. reflexivity.
        - destruct (IH fuel (Some t'') a' b') as (tt & E & H1 & H2 & H3);
            try lia; try lra.
          + rewrite (fallback_outside _ _ _ _ Ein). reflexivity.
          + exists tt. split; [exact E|]. split; [lra|]. split; [lra|].
            exact H3. }
      destruct (Qltb (Fh t' - u) 0) eqn:Es.
      * apply Qltb_lt in Es. apply Hnext; try lra. nra.
      * apply Qltb_false in Es. apply Hnext; try lra. nra.
Qed.

End LinearTarget.

Lemma fhat_hermite_affine f0 f1 d0 d1 t :
  d0 == f1 - f0 -> d1 == f1 - f0 ->
  fhat_hermite f0 f1 d0 d1 t == f1 - f0.
Proof.
  intros H0 H1. unfold fhat_hermite. cbv zeta. rewrite H0, H1. ring.
Qed.

Lemma width_bound_20 : 1 < 0.5 * width_bound 20.
Proof. vm_compute. reflexivity. Qed.

(** X9.  On the table of an increasing affine function
    [InvertCatmullRom] terminates.  For [m > 0], strictly increasing nodes
    and [u] strictly between the end values, its loop stops within 21
    iterations, and the result [r] satisfies [|m r + c - u| < 1e-6] or lies
    within [1e-6 * (hi - lo)] of the exact inverse [(u - c) / m]. *)
Theorem InvertCatmullRom_affine_terminates :
  forall (fuel : nat) (x : list Float) (m c u lo hi : Float),
    increasing x -> (2 <= size x)%Z ->
    front x = Some lo -> back x = Some hi ->
    0 < m -> m * lo + c < u -> u < m * hi + c ->
    (21 <= fuel)%nat ->
    exists r,
      InvertCatmullRom fuel x (affine_values m c x) u = Some r /\
      lo < r /\ r < hi /\
      (Qabs (m * r + c - u) < 0.000001 \/
       Qabs (r - (u - c) / m) < 0.000001 * (hi - lo)).
Proof.
  intros fuel x m c u lo hi Hinc Hn Hlo Hhi Hm Hu0 Hu1 Hfuel.
  pose proof (size_affine m c x) as Hs. symmetry in Hs.
  assert (Hvlo : front (affine_values m c x) = Some (m * lo + c))
    by (apply aref_affine; exact Hlo).
  assert (Hvhi : back (affine_values m c x) = Some (m * hi + c)).
  { unfold back. rewrite <- Hs. apply aref_affine. exact Hhi. }
  destruct (search_bracket (affine_values m c x) u _ _ ltac:(lia) Hvlo Hvhi)
    as (Hi & f0 & f1 & F0 & F1 & Hf0 & Hf1); try lra.
  set (i := GetIntArrayerval (size (affine_values m c x))
              (le_pred (affine_values m c x) u)) in *.
  destruct (lookup_segment_defined x (affine_values m c x) i Hs) as [s Hseg];
    [lia|].
  rewrite (InvertCatmullRom_unfold fuel x _ u _ _ s Hvlo Hvhi Hu0 Hu1 Hseg).
  destruct (affine_segment x m c i s Hinc Hseg) as (H01 & A0 & A1 & D0 & D1).
  pose proof (lookup_segment_inv x _ i s Hseg) as (E0 & E1 & E2 & E3 & _).
  assert (Ef0 : f0 = seg_f0 s) by congruence.
  assert (Ef1 : f1 = seg_f1 s) by congruence.
  rewrite Ef0 in Hf0. rewrite Ef1 in Hf1. rewrite A0 in Hf0. rewrite A1 in Hf1.
  assert (Hlo0 : lo <= seg_x0 s)
    by (apply (increasing_le x 0 i); auto; lia).
  assert (Hhi1 : seg_x1 s <= hi).
  { apply (increasing_le x (i + 1) (size x - 1)); auto; lia. }
  set (ts := (u - (m * seg_x0 s + c)) / (m * (seg_x1 s - seg_x0 s))).
  assert (Hw : 0 < seg_x1 s - seg_x0 s) by lra.
  assert (Hmw : 0 < m * (seg_x1 s - seg_x0 s)) by nra.
  assert (Hts : ts * (m * (seg_x1 s - seg_x0 s)) == u - (m * seg_x0 s + c)).
  { unfold ts. field. lra. }
  assert (Hts0 : 0 <= ts).
  { unfold ts. apply Qle_shift_div_l; [exact Hmw|]. lra. }
  assert (Hts1 : ts <= 1).
  { unfold ts. apply Qle_shift_div_r; [exact Hmw|]. lra. }
  destruct (newton_linear_terminates
              (Fhat_hermite (seg_f0 s) (seg_f1 s) (seg_d0 s) (seg_d1 s))
              (fhat_hermite (seg_f0 s) (seg_f1 s) (seg_d0 s) (seg_d1 s))
              u (m * (seg_x1 s - seg_x0 s)) ts Hmw)
    with (n := 20%nat) (fuel := fuel) (t := Some 0.5) (a := 0) (b := 1)
    as (tt & Eloop & Ht0 & Ht1 & Hexit).
  - intros t. rewrite hermite_affine.
    + rewrite A0, A1. unfold ts. field. lra.
    + rewrite D0, A0, A1. ring.
    + rewrite D1, A0, A1. ring.
  - intros t. rewrite fhat_hermite_affine.
    + rewrite A0, A1. ring.
    + rewrite D0, A0, A1. ring.
    + rewrite D1, A0, A1. ring.
  - lia.
  - reflexivity.
  - exact Hts0.
  - exact Hts1.
  - reflexivity.
  - pose proof width_bound_20. lra.
  - rewrite Eloop. unfold bind. cbv iota beta.
    eexists. split; [reflexivity|].
    assert (Htw0 : 0 < tt * (seg_x1 s - seg_x0 s)) by nra.
    assert (Htw1 : tt * (seg_x1 s - seg_x0 s) < seg_x1 s - seg_x0 s) by nra.
    split; [lra|]. split; [lra|].
    assert (HF : Fhat_hermite (seg_f0 s) (seg_f1 s) (seg_d0 s) (seg_d1 s) tt
                 == m * (seg_x0 s + tt * (seg_x1 s - seg_x0 s)) + c).
    { rewrite hermite_affine.
      - rewrite A0, A1. ring.
      - rewrite D0, A0, A1. ring.
      - rewrite D1, A0, A1. ring. }
    destruct Hexit as [Hres|Hpos].
    + left. rewrite <- HF. lra.
    + right. apply Qabs_Qlt_condition in Hpos. destruct Hpos as [P0 P1].
      assert (Hinv : (u - c) / m == seg_x0 s + ts * (seg_x1 s - seg_x0 s)).
      { unfold ts. field. split; lra. }
      rewrite Hinv. apply Qabs_Qlt_condition.
      assert (Hwl : seg_x1 s - seg_x0 s <= hi - lo) by lra.
      split; nra.
Qed.

Lemma InvertCatmullRom_affine_terminates_witness :
  exists r,
    InvertCatmullRom 21 scenario_nodes (affine_values 2 1 scenario_nodes) 4
      = Some r /\
    0 < r /\ r < 3 /\
    (Qabs (2 * r + 1 - 4) < 0.000001 \/
     Qabs (r - (4 - 1) / 2) < 0.000001 * (3 - 0)).
Proof.
  apply (InvertCatmullRom_affine_terminates 21 scenario_nodes 2 1 4 0 3).
  - exact scenario_nodes_increasing.
  - vm_compute. discriminate.
  - reflexivity.
  - reflexivity.
  - reflexivity.
  - reflexivity.
  - reflexivity.
  - apply le_n.
Defined.

(** ** Sampling a constant table *)










(** ** The Fourier sampler: the returned angle and series value *)

Lemma Fourier_loop_value_ext (a : list Float) (c : Float) :
  forall (v v' p q : Float),
    v == v' -> Fourier_loop a c v p q == Fourier_loop a c v' p q.
Proof.
  induction a as [|ak tl IH]; intros v v' p q Hv; simpl.
  - exact Hv.
  - apply IH. rewrite Hv. reflexivity.
Qed.

Lemma aref_app_at (pre rest : list Float) (a : Float) :
  aref (pre ++ a :: rest) (Z.of_nat (length pre)) = Some a.
Proof.
  unfold aref. destruct (Z.ltb_spec (Z.of_nat (length pre)) 0); [lia|].
  rewrite Nat2Z.id. rewrite nth_error_app2 by lia.
  rewrite Nat.sub_diag. reflexivity.
Qed.

(** The cosine recurrence of the inner loop of [SampleFourier] is the one of
    [Fourier]: the derivative [f] accumulated over the remaining
    coefficients is what [Fourier]'s loop adds for them. *)
Lemma fourier_terms_f (recip : list Float) (c : Float) :
  forall (n : nat) (pre rest : list Float)
         (sp sc cp cc F f F' f' : Float),
    length rest = n ->
    fourier_terms n (pre ++ rest) recip (Z.of_nat (length pre))
      c sp sc cp cc F f = Some (F', f') ->
    f' = Fourier_loop rest c f cc (2 * c * cc - cp).
Proof.
  induction n as [|n IH]; intros pre rest sp sc cp cc F f F' f' Hlen Hrun.
  - destruct rest; [|discriminate]. simpl in Hrun. injection Hrun as _ <-.
    reflexivity.
  - destruct rest as [|a tl]; [discriminate|].
    simpl in Hlen. injection Hlen as Hlen.
    cbn [fourier_terms] in Hrun. cbv zeta in Hrun.
    rewrite aref_app_at in Hrun. unfold bind at 1 in Hrun.
    destruct (aref recip (Z.of_nat (length pre))) as [rk|]; [|discriminate].
    unfold bind at 1 in Hrun.
    replace (pre ++ a :: tl) with ((pre ++ [a]) ++ tl) in Hrun
      by (rewrite <- app_assoc; reflexivity).
    replace (Z.of_nat (length pre) + 1)%Z
      with (Z.of_nat (length (pre ++ [a]))) in Hrun
      by (rewrite length_app; simpl; lia).
    apply IH in Hrun; [|exact Hlen].
    rewrite Hrun. reflexivity.
Qed.

Section FourierLoop.

Variable SafeSqrt : Float -> Float.
Variable cos : Float -> Float.
Variable Pi : Float.

Lemma fourier_newton_step fuel ak recip u phi a b :
  fourier_newton SafeSqrt cos Pi (S fuel) ak recip u phi a b =
  match aref ak 0 with
  | None => None
  | Some ak0 =>
      match fourier_terms (Z.to_nat (size ak - 1)) ak recip 1 (cos phi)
              (- SafeSqrt (1 - cos phi * cos phi)) 0 (cos phi) 1
              (ak0 * phi) ak0 with
      | None => None
      | Some (F, f) =>
          let F := F - u * ak0 * Pi in
          let b' := if Qltb 0 F then phi else b in
          let a' := if Qltb 0 F then a else phi in
          if Qltb (Qabs F) tolerance || Qltb (b' - a') tolerance
          then Some (phi, f)
          else
            fourier_newton SafeSqrt cos Pi fuel ak recip u
              (fallback in_open a' b' (newton_step phi F f)) a' b'
      end
  end.
Proof.
  cbn [fourier_newton]. cbv zeta. unfold bind at 1 2.
  destruct (aref ak 0) as [ak0|]; [|reflexivity].
  destruct (fourier_terms _ _ _ _ _ _ _ _ _ _ _) as [[F f]|]; reflexivity.
Qed.

(** At the [break] the angle lies strictly inside the initial bracket, and
    the value handed back is the series at that angle. *)
Lemma fourier_newton_exit ak recip u :
  forall (fuel : nat) (phi a b po fo : Float),
    a < phi -> phi < b ->
    fourier_newton SafeSqrt cos Pi fuel ak recip u phi a b = Some (po, fo) ->
    a < po /\ po < b /\ fo == Fourier ak (cos po).
Proof.
  induction fuel as [|fuel IH]; intros phi a b po fo Ha Hb Hrun;
    [discriminate|].
  rewrite fourier_newton_step in Hrun.
  destruct (aref ak 0) as [ak0|] eqn:E0; [|discriminate].
  destruct (fourier_terms _ _ _ _ _ _ _ _ _ _ _) as [[F f]|] eqn:Et;
    [|discriminate].
  cbv zeta in Hrun.
  assert (Hf : f == Fourier ak (cos phi)).
  { destruct ak as [|a0 tl]; [discriminate|].
    assert (a0 = ak0) by (unfold aref in E0; simpl in E0; congruence).
    subst a0.
    replace (Z.to_nat (size (ak0 :: tl) - 1)) with (length tl) in Et
      by (unfold size; simpl length; lia).
    apply (fourier_terms_f recip (cos phi) (length tl) [ak0] tl) in Et;
      [|reflexivity].
    rewrite Et. unfold Fourier. simpl Fourier_loop.
    apply Fourier_loop_value_ext. lra. }
  match type of Hrun with
  | (if ?c then _ else _) = _ => destruct c
  end.
  - injection Hrun as <- <-. split; [exact Ha|]. split; [exact Hb|].
    exact Hf.
  - destruct (Qltb 0 (F - u * ak0 * Pi)).
    + pose proof (open_clamp a phi
                    (newton_step phi (F - u * ak0 * Pi) f) Ha) as Hc.
      cbv zeta in Hc. destruct Hc as [C0 C1].
      apply IH in Hrun; [|exact C0|exact C1].
      destruct Hrun as (R0 & R1 & R2). split; [exact R0|]. split; [lra|].
      exact R2.
    + pose proof (open_clamp phi b
                    (newton_step phi (F - u * ak0 * Pi) f) Hb) as Hc.
      cbv zeta in Hc. destruct Hc as [C0 C1].
      apply IH in Hrun; [|exact C0|exact C1].
      destruct Hrun as (R0 & R1 & R2). split; [lra|]. split; [exact R1|].
      exact R2.
Qed.

End FourierLoop.

(** X11.  In exact arithmetic, where the conversions between [double] and
    [Float] change nothing: whenever [SampleFourier] returns (with
    [Pi > 0]), the angle [phi0] at which its loop stopped lies strictly
    between 0 and [Pi]; [*phiPtr] is [phi0] for [u < 0.5] and
    [2 Pi - phi0] for [u >= 0.5]; the returned value is the series
    [Fourier(ak, cos(phi0))], and [*pdf] is [Inv2Pi * f / ak[0]] when
    [ak[0]] is not 0. *)
Theorem SampleFourier_angle_and_value :
  forall (SafeSqrt cos : Float -> Float) (Pi Inv2Pi : Float) (fuel : nat)
         (ak recip : list Float) (u : Float) (r : fourier_sample),
    0 < Pi ->
    SampleFourier SafeSqrt cos Pi Inv2Pi fuel ak recip u = Some r ->
    exists phi0 ak0,
      0 < phi0 /\ phi0 < Pi /\
      (u < 0.5 -> fs_phi r = phi0) /\
      (0.5 <= u -> fs_phi r = 2 * Pi - phi0) /\
      fs_f r == Fourier ak (cos phi0) /\
      aref ak 0 = Some ak0 /\
      (~ ak0 == 0 -> fs_pdf r = Inv2Pi * fs_f r / ak0).
Proof.
  intros SafeSqrt cos Pi Inv2Pi fuel ak recip u r HPi Hrun.
  unfold SampleFourier in Hrun. cbv zeta in Hrun.
  destruct (fourier_newton _ _ _ _ _ _ _ _ _ _) as [[phi f]|] eqn:Eloop;
    [|discriminate].
  unfold bind at 1 in Hrun. cbv beta iota in Hrun.
  destruct (aref ak 0) as [ak0|] eqn:E0; [|discriminate].
  unfold bind in Hrun. cbv beta iota in Hrun. injection Hrun as <-.
  apply fourier_newton_exit in Eloop; try lra.
  destruct Eloop as (P0 & P1 & Hf).
  exists phi, ak0. cbn [fs_f fs_pdf fs_phi].
  split; [exact P0|]. split; [exact P1|].
  split.
  { intros Hu. apply Qle_bool_false in Hu. rewrite Hu. reflexivity. }
  split.
  { intros Hu. apply Qle_bool_iff in Hu. rewrite Hu. reflexivity. }
  split; [exact Hf|]. split; [reflexivity|intros _; reflexivity].
Qed.

Lemma SampleFourier_angle_and_value_witness :
  exists r phi0 ak0,
    SampleFourier SafeSqrt_approx cos_approx Pi_approx Inv2Pi_approx 1
      [1; 0.5] [0; 1] 0.32957745 = Some r /\
    0 < phi0 /\ phi0 < Pi_approx /\
    (0.32957745 < 0.5 -> fs_phi r = phi0) /\
    (0.5 <= 0.32957745 -> fs_phi r = 2 * Pi_approx - phi0) /\
    fs_f r == Fourier [1; 0.5] (cos_approx phi0) /\
    aref [1; 0.5] 0 = Some ak0 /\
    (~ ak0 == 0 -> fs_pdf r = Inv2Pi_approx * fs_f r / ak0).
Proof.
  destruct (SampleFourier SafeSqrt_approx cos_approx Pi_approx Inv2Pi_approx 1
              [1; 0.5] [0; 1] 0.32957745) as [r|] eqn:E;
    [|vm_compute in E; discriminate].
  exists r.
  destruct (SampleFourier_angle_and_value SafeSqrt_approx cos_approx
              Pi_approx Inv2Pi_approx 1 [1; 0.5] [0; 1] 0.32957745 r)
    as (phi0 & ak0 & H); [reflexivity|exact E|].
  exists phi0, ak0. split; [reflexivity|exact H].
Defined.

(** ** Weights at a node *)

Lemma final_weights_at_0 first last x0 x1 xm xp t :
  t == 0 ->
  exists w0 w1 w2 w3,
    final_weights first last x0 x1 xm xp t = [w0; w1; w2; w3] /\
    w0 == 0 /\ w1 == 1 /\ w2 == 0 /\ w3 == 0.
Proof.
  intros Ht. unfold final_weights, w0_local, w3_local.
  do 4 eexists. split; [reflexivity|].
  destruct first, last; cbv zeta; rewrite Ht; unfold Qdiv;
    repeat split; ring.
Qed.

Lemma final_weights_at_1 first x0 x1 xm xp t :
  t == 1 ->
  exists w0 w1 w2 w3,
    final_weights first true x0 x1 xm xp t = [w0; w1; w2; w3] /\
    w0 == 0 /\ w1 == 0 /\ w2 == 1 /\ w3 == 0.
Proof.
  intros Ht. unfold final_weights, w0_local, w3_local.
  do 4 eexists. split; [reflexivity|].
  destruct first; cbv zeta; rewrite Ht; unfold Qdiv; repeat split; ring.
Qed.

(** X12.  In exact arithmetic, at a node the weights select the node.  For
    [x] equal to node [i] of a strictly increasing sequence,
    [CatmullRomWeights] writes weights equal to [0, 1, 0, 0] with
    [offset + 1 = i], or for the last node weights equal to [0, 0, 1, 0]
    with [offset + 2 = i]. *)
Theorem CatmullRomWeights_at_node :
  forall (nodes : list Float) (x : Float) (off : Z) (ws : list Float)
         (lo hi : Float) (i : Z) (xi : Float),
    increasing nodes -> (2 <= size nodes)%Z -> (4 <= size ws)%Z ->
    front nodes = Some lo -> back nodes = Some hi ->
    aref nodes i = Some xi -> x == xi ->
    exists (off' : Z) (w0 w1 w2 w3 : Float),
      CatmullRomWeights nodes x off ws
        = Some (true, off', w0 :: w1 :: w2 :: w3 :: skipn 4 ws) /\
      w0 == 0 /\ w3 == 0 /\
      ((i <= size nodes - 2)%Z ->
       off' = (i - 1)%Z /\ w1 == 1 /\ w2 == 0) /\
      (i = (size nodes - 1)%Z ->
       off' = (i - 2)%Z /\ w1 == 0 /\ w2 == 1).
Proof.
  intros nodes x off ws lo hi i xi Hinc Hn Hw Hlo Hhi Ei Hx.
  pose proof (aref_Some_range _ _ _ Ei) as Hi.
  assert (Hlx : lo <= x).
  { assert (lo <= xi) by (apply (increasing_le nodes 0 i); auto; lia). lra. }
  assert (Hxh : x <= hi).
  { assert (xi <= hi)
      by (apply (increasing_le nodes i (size nodes - 1)); auto; lia). lra. }
  destruct (located_weights nodes x off ws lo hi Hinc Hn Hw Hlo Hhi Hlx Hxh)
    as (x0 & x1 & xm & xp & Hrun & Hidx & E0 & E1 & _ & _ & H01 & _).
  pose proof (GetIntArrayerval_threshold (size nodes) (le_pred nodes x) i Hn
                ltac:(lia) (le_pred_node_threshold nodes x i xi Hinc Ei Hx))
    as Hloc.
  rewrite Hloc in Hrun, E0, E1.
  destruct (Z_le_gt_dec i (size nodes - 2)) as [Hle|Hgt].
  - rewrite Clamp_id in Hrun, E0, E1 by lia.
    assert (x0 = xi) by congruence. subst x0.
    destruct (final_weights_at_0 (negb (i >? 0)%Z)
                (negb (i + 2 <? size nodes)%Z) xi x1 xm xp
                ((x - xi) / (x1 - xi)))
      as (w0 & w1 & w2 & w3 & Efw & W0 & W1 & W2 & W3).
    { setoid_replace (x - xi) with 0 by lra. unfold Qdiv. ring. }
    rewrite Efw in Hrun.
    exists (i - 1)%Z, w0, w1, w2, w3. split; [exact Hrun|].
    split; [exact W0|]. split; [exact W3|]. split; [auto|]. intros. lia.
  - assert (Ec : Clamp i 0 (size nodes - 2) = (size nodes - 2)%Z).
    { unfold Clamp. destruct (Z.ltb_spec i 0); [lia|].
      destruct (Z.gtb_spec i (size nodes - 2)); lia. }
    rewrite Ec in Hrun, E0, E1.
    replace (size nodes - 2 + 1)%Z with i in E1 by lia.
    assert (x1 = xi) by congruence. subst x1.
    assert (Hlast : (size nodes - 2 + 2 <? size nodes)%Z = false)
      by (apply Z.ltb_ge; lia).
    rewrite Hlast in Hrun. simpl negb in Hrun.
    destruct (final_weights_at_1 (negb (size nodes - 2 >? 0)%Z)
                x0 xi xm xp ((x - x0) / (xi - x0)))
      as (w0 & w1 & w2 & w3 & Efw & W0 & W1 & W2 & W3).
    { setoid_replace (x - x0) with (xi - x0) by lra. field. lra. }
    rewrite Efw in Hrun.
    exists (size nodes - 2 - 1)%Z, w0, w1, w2, w3. split; [exact Hrun|].
    split; [exact W0|]. split; [exact W3|]. split; [intros; lia|].
    intros _. split; [lia|]. auto.
Qed.

Lemma CatmullRomWeights_at_node_witness :
  exists (off' : Z) (w0 w1 w2 w3 : Float),
    CatmullRomWeights scenario_nodes 2 0 [0; 0; 0; 0]
      = Some (true, off', w0 :: w1 :: w2 :: w3 :: skipn 4 [0; 0; 0; 0]) /\
    w0 == 0 /\ w3 == 0 /\
    ((2 <= size scenario_nodes - 2)%Z ->
     off' = (2 - 1)%Z /\ w1 == 1 /\ w2 == 0) /\
    (2%Z = (size scenario_nodes - 1)%Z ->
     off' = (2 - 2)%Z /\ w1 == 0 /\ w2 == 1).
Proof.
  apply (CatmullRomWeights_at_node scenario_nodes 2 0 [0; 0; 0; 0] 0 3 2 2).
  - exact scenario_nodes_increasing.
  - vm_compute. discriminate.
  - vm_compute. discriminate.
  - reflexivity.
  - reflexivity.
  - reflexivity.
  - reflexivity.
Defined.

(** ** The initial guess of the samplers *)

(** X13.  In exact arithmetic the initial guess of the samplers inverts
    the integral of the linear interpolant of [f0] and [f1]: when
    [SafeSqrt] returns an exact square root of its argument (for
    [f0 != f1]) and [f0 != 0] (for [f0 = f1]), the guess [t] satisfies
    [t f0 + (f1 - f0) t^2 / 2 = u]. *)
Theorem initial_guess_inverts_linear_interpolant :
  forall (SafeSqrt : Float -> Float) (f0 f1 u : Float),
    (~ f0 == f1 ->
     SafeSqrt (f0 * f0 + 2 * u * (f1 - f0))
       * SafeSqrt (f0 * f0 + 2 * u * (f1 - f0))
     == f0 * f0 + 2 * u * (f1 - f0)) ->
    (f0 == f1 -> ~ f0 == 0) ->
    exists t,
      initial_guess SafeSqrt f0 f1 u = Some t /\
      t * f0 + 0.5 * (f1 - f0) * (t * t) == u.
Proof.
  intros SafeSqrt f0 f1 u Hsq Hnz. unfold initial_guess.
  destruct (Qeq_bool f0 f1) eqn:E; simpl negb; cbv iota zeta.
  - apply Qeq_bool_iff in E. specialize (Hnz E).
    rewrite (quotient_defined _ _ Hnz). eexists. split; [reflexivity|].
    rewrite <- E. field. exact Hnz.
  - apply Qeq_bool_neq in E. specialize (Hsq E).
    eexists. split; [reflexivity|].
    set (s := SafeSqrt (f0 * f0 + 2 * u * (f1 - f0))) in *.
    assert (Hd : ~ f0 - f1 == 0) by (intros H; apply E; lra).
    setoid_replace ((f0 - s) / (f0 - f1) * f0 +
                    0.5 * (f1 - f0)
                    * ((f0 - s) / (f0 - f1) * ((f0 - s) / (f0 - f1))))
      with ((f0 * f0 - s * s) / (2 * (f0 - f1))) by (field; exact Hd).
    rewrite Hsq. field. exact Hd.
Qed.

Lemma initial_guess_inverts_linear_interpolant_witness :
  exists t,
    initial_guess SafeSqrt_approx 0 2 1 = Some t /\
    t * 0 + 0.5 * (2 - 0) * (t * t) == 1.
Proof.
  apply (initial_guess_inverts_linear_interpolant SafeSqrt_approx 0 2 1).
  - intros _. vm_compute. reflexivity.
  - intros H. vm_compute in H. discriminate.
Defined.

(** ** The target of the 1D sampler changes sign over its bracket *)

Lemma Fhat_horner_at_0 f0 f1 d0 d1 : Fhat_horner f0 f1 d0 d1 0 == 0.
Proof. unfold Fhat_horner. field. Qed.

Lemma Fhat_horner_at_1 s :
  (seg_x1 s - seg_x0 s)
    * Fhat_horner (seg_f0 s) (seg_f1 s) (seg_d0 s) (seg_d1 s) 1
  == segment_integral s.
Proof. unfold Fhat_horner, segment_integral. field. Qed.

(** X14.  In exact arithmetic the root that [SampleCatmullRom] looks for is
    bracketed by the initial bracket [[0, 1]] of its loop.  With the cdf
    built by [IntegrateCatmullRom], a positive total and [u] in [[0, 1)],
    the rescaled [u] of the located segment satisfies
    [Fhat(0) <= u < Fhat(1)], where [Fhat] is the integral that the loop
    evaluates. *)
Theorem SampleCatmullRom_root_bracketed :
  forall (x f cdf0 : list Float) (u total : Float) (F : list Float),
    increasing x -> (2 <= size x)%Z -> size x = size f ->
    size cdf0 = size x -> 0 <= u -> u < 1 ->
    IntegrateCatmullRom x f cdf0 = Some (total, F) -> 0 < total ->
    exists s Fi,
      let i := GetIntArrayerval (size F) (le_pred F (u * total)) in
      let u' := (u * total - Fi) / (seg_x1 s - seg_x0 s) in
      back F = Some total /\
      lookup_segment x f i = Some s /\ aref F i = Some Fi /\
      Fhat_horner (seg_f0 s) (seg_f1 s) (seg_d0 s) (seg_d1 s) 0 <= u' /\
      u' < Fhat_horner (seg_f0 s) (seg_f1 s) (seg_d0 s) (seg_d1 s) 1.
Proof.
  intros x f cdf0 u total F Hinc Hn Hs Hc Hu0 Hu1 Hrun Hpos.
  destruct (IntegrateCatmullRom_run x f cdf0 ltac:(lia) Hs Hc)
    as (total' & F' & Er & Lr & C0 & Step & Tot).
  rewrite Er in Hrun. injection Hrun as -> ->.
  assert (HFb : back F = Some total) by (unfold back; rewrite Lr; exact Tot).
  destruct (search_bracket F (u * total) 0 total)
    as (Hi & Fi & Fi1 & EFi & EFi1 & Hb0 & Hb1); auto; try lia; try nra.
  set (i := GetIntArrayerval (size F) (le_pred F (u * total))) in *.
  destruct (Step i) as (s & cj & cj1 & Hseg & Ej & Ej1 & Heq); [lia|].
  assert (cj = Fi) by congruence. assert (cj1 = Fi1) by congruence.
  subst cj cj1.
  exists s, Fi. cbv zeta. split; [exact HFb|].
  split; [exact Hseg|]. split; [exact EFi|].
  pose proof (lookup_segment_inv x f i s Hseg) as (E0 & E1 & _).
  assert (H01 : seg_x0 s < seg_x1 s)
    by (apply (Hinc i (i + 1)%Z); auto; lia).
  pose proof (Fhat_horner_at_1 s) as H1.
  split.
  - rewrite Fhat_horner_at_0. apply Qle_shift_div_l; lra.
  - apply Qlt_shift_div_r; [lra|].
    rewrite (Qmult_comm _ (seg_x1 s - seg_x0 s)). rewrite H1. lra.
Qed.

Lemma SampleCatmullRom_root_bracketed_witness :
  exists total F s Fi,
    IntegrateCatmullRom scenario_nodes scenario_values [0; 0; 0; 0]
      = Some (total, F) /\
    0 < total /\
    let i := GetIntArrayerval (size F) (le_pred F (0.5 * total)) in
    let u' := (0.5 * total - Fi) / (seg_x1 s - seg_x0 s) in
    back F = Some total /\
    lookup_segment scenario_nodes scenario_values i = Some s /\
    aref F i = Some Fi /\
    Fhat_horner (seg_f0 s) (seg_f1 s) (seg_d0 s) (seg_d1 s) 0 <= u' /\
    u' < Fhat_horner (seg_f0 s) (seg_f1 s) (seg_d0 s) (seg_d1 s) 1.
Proof.
  destruct (IntegrateCatmullRom scenario_nodes scenario_values [0; 0; 0; 0])
    as [[total F]|] eqn:E; [|vm_compute in E; discriminate].
  assert (Hpos : 0 < total).
  { vm_compute in E. injection E as <- _. reflexivity. }
  destruct (SampleCatmullRom_root_bracketed scenario_nodes scenario_values
              [0; 0; 0; 0] 0.5 total F) as (s & Fi & H).
  - exact scenario_nodes_increasing.
  - vm_compute. discriminate.
  - reflexivity.
  - reflexivity.
  - vm_compute. discriminate.
  - reflexivity.
  - exact E.
  - exact Hpos.
  - exists total, F, s, Fi. split; [reflexivity|]. split; [exact Hpos|].
    exact H.
Defined.

(** ** The two-dimensional sampler *)

Lemma in_closed_true a b t : in_closed a b t = true <-> a <= t /\ t <= b.
Proof. unfold in_closed. rewrite andb_true_iff, !Qle_bool_iff. tauto. Qed.

Lemma closed_clamp a b t :
  a <= b ->
  let t' := fallback in_closed a b t in
  a <= t' /\ t' <= b.
Proof.
  intros Hab. destruct t as [t|]; simpl; [|split; lra].
  destruct (in_closed a b t) eqn:E; simpl.
  - apply in_closed_true in E. exact E.
  - split; lra.
Qed.

(** The loop with the closed bracket test keeps its iterate inside the
    bracket, ends included. *)
Lemma newton_closed_result (Fh fh : Float -> Float) (u : Float) :
  forall (fuel : nat) (t : option Float) (a b tt FF ff : Float),
    a <= b ->
    newton_bisection in_closed Fh fh u fuel t a b = Some (tt, FF, ff) ->
    a <= tt /\ tt <= b /\ FF = Fh tt /\ ff = fh tt.
Proof.
  induction fuel as [|fuel IH]; intros t a b tt FF ff Hab; [discriminate|].
  rewrite newton_bisection_step. cbv zeta.
  pose proof (closed_clamp a b t Hab) as Hc. cbv zeta in Hc.
  set (t' := fallback in_closed a b t) in *.
  destruct Hc as [Hat Htb].
  destruct (Qltb (Qabs (Fh t' - u)) tolerance || Qltb (b - a) tolerance).
  - intros H. injection H as <- <- <-. auto.
  - destruct (Qltb (Fh t' - u) 0); intros H; apply IH in H; auto;
      destruct H as (H1 & H2 & H3 & H4); repeat split; auto; lra.
Qed.

(** Inside the domain, every non-zero weight sits on an existing node. *)
Lemma CatmullRomWeights_guard nodes x off ws lo hi :
  increasing nodes -> (2 <= size nodes)%Z -> (4 <= size ws)%Z ->
  front nodes = Some lo -> back nodes = Some hi ->
  lo <= x -> x <= hi ->
  exists off' w0 w1 w2 w3,
    CatmullRomWeights nodes x off ws
      = Some (true, off', w0 :: w1 :: w2 :: w3 :: skipn 4 ws) /\
    (forall j w, (0 <= j <= 3)%Z -> aref [w0; w1; w2; w3] j = Some w ->
                 ~ w == 0 -> (0 <= off' + j <= size nodes - 1)%Z).
Proof.
  intros Hinc Hn Hw Hlo Hhi Hlx Hxh.
  destruct (located_weights nodes x off ws lo hi Hinc Hn Hw Hlo Hhi Hlx Hxh)
    as (x0 & x1 & xm & xp & Hrun & Hidx & _).
  set (idx := GetIntArrayerval (size nodes) (le_pred nodes x)) in *.
  destruct (final_weights_sum (negb (idx >? 0)%Z)
              (negb (idx + 2 <? size nodes)%Z) x0 x1 xm xp
              ((x - x0) / (x1 - x0))) as (w0 & w1 & w2 & w3 & Efw & _).
  rewrite Efw in Hrun.
  exists (idx - 1)%Z, w0, w1, w2, w3. split; [exact Hrun|].
  unfold final_weights in Efw. injection Efw as W0 W1 W2 W3.
  intros j w Hj Ew Hne.
  destruct (Z.eq_dec j 0) as [->|Hj0].
  - destruct (Z.eq_dec idx 0) as [Hi0|Hi0]; [|lia].
    exfalso. apply Hne.
    assert (w = w0) by (unfold aref in Ew; simpl in Ew; congruence).
    subst w. rewrite <- W0.
    destruct (Z.gtb_spec idx 0); [lia|]. reflexivity.
  - destruct (Z.eq_dec j 3) as [->|Hj3]; [|lia].
    destruct (Z.eq_dec (idx + 2) (size nodes)) as [Hl|Hl]; [|lia].
    exfalso. apply Hne.
    assert (w = w3) by (unfold aref in Ew; simpl in Ew; congruence).
    subst w. rewrite <- W3.
    destruct (Z.ltb_spec (idx + 2) (size nodes)); [lia|]. reflexivity.
Qed.

Lemma read_or_zero_aref a i v : aref a i = Some v -> read_or_zero a i = v.
Proof. intros E. unfold read_or_zero. rewrite E. reflexivity. Qed.

Lemma interpolate_from_cons ws off n2 array idx i js value w :
  aref ws i = Some w ->
  interpolate_from ws off n2 array idx (i :: js) value =
  if negb (Qeq_bool w 0) then
    v <- aref array ((off + i) * n2 + idx)%Z ;;
    interpolate_from ws off n2 array idx js (value + v * w)
  else interpolate_from ws off n2 array idx js value.
Proof. intros E. cbn [interpolate_from]. rewrite E. reflexivity. Qed.

(** One step of the [interpolate] loop adds the product of the table entry
    and the weight, the entry counting as 0 when the weight is 0 and the
    entry is not read. *)
Lemma interpolate_from_step ws off n2 array idx i js value w r :
  aref ws i = Some w ->
  interpolate_from ws off n2 array idx (i :: js) value = Some r ->
  exists value',
    interpolate_from ws off n2 array idx js value' = Some r /\
    value' == value + read_or_zero array ((off + i) * n2 + idx) * w.
Proof.
  intros Ew. rewrite (interpolate_from_cons _ _ _ _ _ _ _ _ _ Ew).
  destruct (Qeq_bool w 0) eqn:E; simpl negb; cbv iota.
  - apply Qeq_bool_iff in E. intros H. exists value. split; [exact H|].
    rewrite E. lra.
  - destruct (aref array ((off + i) * n2 + idx)) as [v|] eqn:Ev;
      [|discriminate].
    unfold bind at 1. intros H. eexists. split; [exact H|].
    rewrite (read_or_zero_aref _ _ _ Ev). reflexivity.
Qed.

Lemma interpolate_sum w0 w1 w2 w3 off n2 array idx v :
  interpolate [w0; w1; w2; w3] off n2 array idx = Some v ->
  v == read_or_zero array ((off + 0) * n2 + idx) * w0
     + read_or_zero array ((off + 1) * n2 + idx) * w1
     + read_or_zero array ((off + 2) * n2 + idx) * w2
     + read_or_zero array ((off + 3) * n2 + idx) * w3.
Proof.
  unfold interpolate. intros H.
  apply (interpolate_from_step _ _ _ _ _ _ _ _ w0) in H; [|reflexivity].
  destruct H as (v0 & H & E0).
  apply (interpolate_from_step _ _ _ _ _ _ _ _ w1) in H; [|reflexivity].
  destruct H as (v1 & H & E1).
  apply (interpolate_from_step _ _ _ _ _ _ _ _ w2) in H; [|reflexivity].
  destruct H as (v2 & H & E2).
  apply (interpolate_from_step _ _ _ _ _ _ _ _ w3) in H; [|reflexivity].
  destruct H as (v3 & H & E3).
  simpl in H. injection H as <-. rewrite E3, E2, E1, E0. lra.
Qed.

Lemma aref_table_row n2 array k i :
  (0 <= k)%Z -> (0 <= i < n2)%Z ->
  aref (table_row n2 array k) i = aref array (k * n2 + i).
Proof.
  intros Hk Hi. unfold aref, table_row.
  destruct (Z.ltb_spec i 0); [lia|].
  destruct (Z.ltb_spec (k * n2 + i) 0); [nia|].
  rewrite nth_error_firstn.
  destruct (Nat.ltb_spec (Z.to_nat i) (Z.to_nat n2)); [|lia].
  rewrite nth_error_skipn. f_equal. nia.
Qed.

Lemma size_table_row n2 array k :
  (0 <= k)%Z -> (0 <= n2)%Z -> ((k + 1) * n2 <= size array)%Z ->
  size (table_row n2 array k) = n2.
Proof.
  intros Hk Hn Hs. unfold size, table_row in *.
  rewrite length_firstn, length_skipn. nia.
Qed.

(** Everything [SampleCatmullRom2D] looks up before its loop, for a
    well-formed table and [alpha] inside the domain of [nodes1]: no read
    leaves its array, and the routine is the loop on these data. *)
Lemma SampleCatmullRom2D_run SafeSqrt nodes1 nodes2 values cdf alpha u
    lo1 hi1 :
  increasing nodes1 -> (2 <= size nodes1)%Z -> (2 <= size nodes2)%Z ->
  size values = (size nodes1 * size nodes2)%Z ->
  size cdf = (size nodes1 * size nodes2)%Z ->
  front nodes1 = Some lo1 -> back nodes1 = Some hi1 ->
  lo1 <= alpha -> alpha <= hi1 ->
  exists off w0 w1 w2 w3 maximum idx x0 x1 f0 f1 d0 d1 ci,
    CatmullRomWeights nodes1 alpha 0 [0; 0; 0; 0]
      = Some (true, off, [w0; w1; w2; w3]) /\
    (forall j w, (0 <= j <= 3)%Z -> aref [w0; w1; w2; w3] j = Some w ->
                 ~ w == 0 -> (0 <= off + j <= size nodes1 - 1)%Z) /\
    interpolate [w0; w1; w2; w3] off (size nodes2) cdf (size nodes2 - 1)
      = Some maximum /\
    idx = GetIntArrayerval (size nodes2)
            (interp_le_pred [w0; w1; w2; w3] off (size nodes2) cdf
               (u * maximum)) /\
    (0 <= idx <= size nodes2 - 2)%Z /\
    aref nodes2 idx = Some x0 /\ aref nodes2 (idx + 1) = Some x1 /\
    interpolate [w0; w1; w2; w3] off (size nodes2) values idx = Some f0 /\
    interpolate [w0; w1; w2; w3] off (size nodes2) values (idx + 1)
      = Some f1 /\
    interpolate [w0; w1; w2; w3] off (size nodes2) cdf idx = Some ci /\
    (if (idx >? 0)%Z
     then exists fm xm,
            interpolate [w0; w1; w2; w3] off (size nodes2) values (idx - 1)
              = Some fm /\
            aref nodes2 (idx - 1) = Some xm /\
            d0 = (x1 - x0) * (f1 - fm) / (x1 - xm)
     else d0 = f1 - f0) /\
    (if (idx + 2 <? size nodes2)%Z
     then exists fp xp,
            interpolate [w0; w1; w2; w3] off (size nodes2) values (idx + 2)
              = Some fp /\
            aref nodes2 (idx + 2) = Some xp /\
            d1 = (x1 - x0) * (fp - f0) / (xp - x0)
     else d1 = f1 - f0) /\
    forall (fuel : nat) (fval pdf : bool),
      SampleCatmullRom2D SafeSqrt fuel nodes1 nodes2 values cdf alpha u
        fval pdf =
      (r <- newton_bisection in_closed (Fhat_horner f0 f1 d0 d1)
              (fhat_horner f0 f1 d0 d1)
              ((u * maximum - ci) / (x1 - x0)) fuel
              (initial_guess SafeSqrt f0 f1 ((u * maximum - ci) / (x1 - x0)))
              0 1 ;;
       let '(t, _, fhat) := r in
       Some (mkSample (x0 + (x1 - x0) * t) (store fval fhat)
               (store pdf (fhat / maximum)))).
Proof.
  intros Hinc1 Hn1 Hn2 Hv Hc Hlo1 Hhi1 Hal0 Hal1.
  destruct (CatmullRomWeights_guard nodes1 alpha 0 [0; 0; 0; 0] lo1 hi1)
    as (off & w0 & w1 & w2 & w3 & Hrun & Hg); auto.
  { vm_compute. discriminate. }
  simpl skipn in Hrun.
  set (n2 := size nodes2) in *.
  assert (Hws : (4 <= size [w0; w1; w2; w3])%Z) by (vm_compute; discriminate).
  assert (Hdef : forall array i,
            size array = (size nodes1 * n2)%Z -> (0 <= i < n2)%Z ->
            exists v, interpolate [w0; w1; w2; w3] off n2 array i = Some v).
  { intros array i Ha Hi.
    apply (guarded_interpolate_defined [w0; w1; w2; w3] off (size nodes1)
             n2 array i);
      auto.
    intros j w Hj Ew Hne. pose proof (Hg j w Hj Ew Hne). lia. }
  destruct (Hdef cdf (n2 - 1)%Z Hc ltac:(lia)) as [maximum Hmax].
  set (idx := GetIntArrayerval n2
                (interp_le_pred [w0; w1; w2; w3] off n2 cdf (u * maximum))).
  assert (Hidx : (0 <= idx <= n2 - 2)%Z)
    by (apply GetIntArrayerval_range; exact Hn2).
  destruct (aref_in_range nodes2 idx) as [x0 E0]; [fold n2; lia|].
  destruct (aref_in_range nodes2 (idx + 1)) as [x1 E1]; [fold n2; lia|].
  destruct (Hdef values idx Hv ltac:(lia)) as [f0 Hf0].
  destruct (Hdef values (idx + 1)%Z Hv ltac:(lia)) as [f1 Hf1].
  destruct (Hdef cdf idx Hc ltac:(lia)) as [ci Hci].
  assert (Hd0 : exists d0,
            (if (idx >? 0)%Z then
               fm <- interpolate [w0; w1; w2; w3] off n2 values (idx - 1)%Z ;;
               xm <- aref nodes2 (idx - 1) ;;
               Some ((x1 - x0) * (f1 - fm) / (x1 - xm))
             else Some (f1 - f0)) = Some d0 /\
            (if (idx >? 0)%Z
             then exists fm xm,
                 interpolate [w0; w1; w2; w3] off n2 values (idx - 1)
                   = Some fm /\
                 aref nodes2 (idx - 1) = Some xm /\
                 d0 = (x1 - x0) * (f1 - fm) / (x1 - xm)
             else d0 = f1 - f0)).
  { destruct (Z.gtb_spec idx 0) as [G|G].
    - destruct (Hdef values (idx - 1)%Z Hv ltac:(lia)) as [fm Hfm].
      destruct (aref_in_range nodes2 (idx - 1)) as [xm Em]; [fold n2; lia|].
      rewrite Hfm, Em. unfold bind. eexists. split; [reflexivity|].
      exists fm, xm. auto.
    - eexists. split; reflexivity. }
  assert (Hd1 : exists d1,
            (if (idx + 2 <? n2)%Z then
               fp <- interpolate [w0; w1; w2; w3] off n2 values (idx + 2)%Z ;;
               xp <- aref nodes2 (idx + 2) ;;
               Some ((x1 - x0) * (fp - f0) / (xp - x0))
             else Some (f1 - f0)) = Some d1 /\
            (if (idx + 2 <? n2)%Z
             then exists fp xp,
                 interpolate [w0; w1; w2; w3] off n2 values (idx + 2)
                   = Some fp /\
                 aref nodes2 (idx + 2) = Some xp /\
                 d1 = (x1 - x0) * (fp - f0) / (xp - x0)
             else d1 = f1 - f0)).
  { destruct (Z.ltb_spec (idx + 2) n2) as [G|G].
    - destruct (Hdef values (idx + 2)%Z Hv ltac:(lia)) as [fp Hfp].
      destruct (aref_in_range nodes2 (idx + 2)) as [xp Ep]; [fold n2; lia|].
      rewrite Hfp, Ep. unfold bind. eexists. split; [reflexivity|].
      exists fp, xp. auto.
    - eexists. split; reflexivity. }
  destruct Hd0 as (d0 & Ed0 & Pd0). destruct Hd1 as (d1 & Ed1 & Pd1).
  exists off, w0, w1, w2, w3, maximum, idx, x0, x1, f0, f1, d0, d1, ci.
  split; [exact Hrun|]. split; [exact Hg|]. split; [exact Hmax|].
  split; [reflexivity|].
  split; [exact Hidx|]. split; [exact E0|]. split; [exact E1|].
  split; [exact Hf0|]. split; [exact Hf1|]. split; [exact Hci|].
  split; [exact Pd0|]. split; [exact Pd1|].
  intros fuel fval pdf.
  unfold SampleCatmullRom2D. rewrite Hrun. unfold bind at 1.
  cbv beta iota. simpl negb. cbv iota zeta.
  fold n2. change (@nil Q) with (@nil Float). rewrite Hmax.
  unfold bind at 1. fold idx.
  rewrite Hf0, Hf1, E0, E1. unfold bind at 1 2 3 4.
  rewrite Hci. unfold bind at 1.
  rewrite Ed0. unfold bind at 1. rewrite Ed1. unfold bind at 1.
  reflexivity.
Qed.

(** X15.  [SampleCatmullRom2D] reads no array out of bounds.  For tables
    [values] and [cdf] of [nodes1.size() * nodes2.size()] entries and
    [alpha] inside the domain of [nodes1], every look-up of the code before
    the loop succeeds: the weights of [alpha], whose non-zero entries sit
    on existing rows, the interpolated maximum of the cdf, the segment
    index [idx] of the interval search, the nodes and the interpolated
    values and cdf entries next to it.  For every number of iterations the
    routine is then its loop on these data followed by the final stores:
    the only way not to return is that the loop is still running. *)
Theorem SampleCatmullRom2D_reads_in_bounds :
  forall (SafeSqrt : Float -> Float) (nodes1 nodes2 values cdf : list Float)
         (alpha u lo1 hi1 : Float),
    increasing nodes1 -> (2 <= size nodes1)%Z -> (2 <= size nodes2)%Z ->
    size values = (size nodes1 * size nodes2)%Z ->
    size cdf = (size nodes1 * size nodes2)%Z ->
    front nodes1 = Some lo1 -> back nodes1 = Some hi1 ->
    lo1 <= alpha -> alpha <= hi1 ->
    exists off w0 w1 w2 w3 maximum idx x0 x1 f0 f1 d0 d1 ci,
      CatmullRomWeights nodes1 alpha 0 [0; 0; 0; 0]
        = Some (true, off, [w0; w1; w2; w3]) /\
      (forall j w, (0 <= j <= 3)%Z -> aref [w0; w1; w2; w3] j = Some w ->
                   ~ w == 0 -> (0 <= off + j <= size nodes1 - 1)%Z) /\
      interpolate [w0; w1; w2; w3] off (size nodes2) cdf (size nodes2 - 1)
        = Some maximum /\
      idx = GetIntArrayerval (size nodes2)
              (interp_le_pred [w0; w1; w2; w3] off (size nodes2) cdf
                 (u * maximum)) /\
      (0 <= idx <= size nodes2 - 2)%Z /\
      aref nodes2 idx = Some x0 /\ aref nodes2 (idx + 1) = Some x1 /\
      interpolate [w0; w1; w2; w3] off (size nodes2) values idx = Some f0 /\
      interpolate [w0; w1; w2; w3] off (size nodes2) values (idx + 1)
        = Some f1 /\
      interpolate [w0; w1; w2; w3] off (size nodes2) cdf idx = Some ci /\
      (if (idx >? 0)%Z
       then exists fm xm,
              interpolate [w0; w1; w2; w3] off (size nodes2) values (idx - 1)
                = Some fm /\
              aref nodes2 (idx - 1) = Some xm /\
              d0 = (x1 - x0) * (f1 - fm) / (x1 - xm)
       else d0 = f1 - f0) /\
      (if (idx + 2 <? size nodes2)%Z
       then exists fp xp,
              interpolate [w0; w1; w2; w3] off (size nodes2) values (idx + 2)
                = Some fp /\
              aref nodes2 (idx + 2) = Some xp /\
              d1 = (x1 - x0) * (fp - f0) / (xp - x0)
       else d1 = f1 - f0) /\
      forall (fuel : nat) (fval pdf : bool),
        SampleCatmullRom2D SafeSqrt fuel nodes1 nodes2 values cdf alpha u
          fval pdf =
        (r <- newton_bisection in_closed (Fhat_horner f0 f1 d0 d1)
                (fhat_horner f0 f1 d0 d1)
                ((u * maximum - ci) / (x1 - x0)) fuel
                (initial_guess SafeSqrt f0 f1
                   ((u * maximum - ci) / (x1 - x0)))
                0 1 ;;
         let '(t, _, fhat) := r in
         Some (mkSample (x0 + (x1 - x0) * t) (store fval fhat)
                 (store pdf (fhat / maximum)))).
Proof.
  intros SafeSqrt nodes1 nodes2 values cdf alpha u lo1 hi1
         Hinc1 Hn1 Hn2 Hv Hc Hlo1 Hhi1 Hal0 Hal1.
  exact (SampleCatmullRom2D_run SafeSqrt nodes1 nodes2 values cdf alpha u
           lo1 hi1 Hinc1 Hn1 Hn2 Hv Hc Hlo1 Hhi1 Hal0 Hal1).
Qed.

Lemma SampleCatmullRom2D_reads_in_bounds_witness :
  exists off w0 w1 w2 w3 maximum idx x0 x1 f0 f1 d0 d1 ci,
    CatmullRomWeights grid_nodes1 0.5 0 [0; 0; 0; 0]
      = Some (true, off, [w0; w1; w2; w3]) /\
    (forall j w, (0 <= j <= 3)%Z -> aref [w0; w1; w2; w3] j = Some w ->
                 ~ w == 0 -> (0 <= off + j <= size grid_nodes1 - 1)%Z) /\
    interpolate [w0; w1; w2; w3] off (size grid_nodes2) grid_cdf
      (size grid_nodes2 - 1) = Some maximum /\
    idx = GetIntArrayerval (size grid_nodes2)
            (interp_le_pred [w0; w1; w2; w3] off (size grid_nodes2)
               grid_cdf (0.25 * maximum)) /\
    (0 <= idx <= size grid_nodes2 - 2)%Z /\
    aref grid_nodes2 idx = Some x0 /\ aref grid_nodes2 (idx + 1) = Some x1 /\
    interpolate [w0; w1; w2; w3] off (size grid_nodes2) grid_values idx
      = Some f0 /\
    interpolate [w0; w1; w2; w3] off (size grid_nodes2) grid_values
      (idx + 1) = Some f1 /\
    interpolate [w0; w1; w2; w3] off (size grid_nodes2) grid_cdf idx
      = Some ci /\
    (if (idx >? 0)%Z
     then exists fm xm,
            interpolate [w0; w1; w2; w3] off (size grid_nodes2)
              grid_values (idx - 1) = Some fm /\
            aref grid_nodes2 (idx - 1) = Some xm /\
            d0 = (x1 - x0) * (f1 - fm) / (x1 - xm)
     else d0 = f1 - f0) /\
    (if (idx + 2 <? size grid_nodes2)%Z
     then exists fp xp,
            interpolate [w0; w1; w2; w3] off (size grid_nodes2)
              grid_values (idx + 2) = Some fp /\
            aref grid_nodes2 (idx + 2) = Some xp /\
            d1 = (x1 - x0) * (fp - f0) / (xp - x0)
     else d1 = f1 - f0) /\
    forall (fuel : nat) (fval pdf : bool),
      SampleCatmullRom2D SafeSqrt_approx fuel grid_nodes1 grid_nodes2
        grid_values grid_cdf 0.5 0.25 fval pdf =
      (r <- newton_bisection in_closed (Fhat_horner f0 f1 d0 d1)
              (fhat_horner f0 f1 d0 d1)
              ((0.25 * maximum - ci) / (x1 - x0)) fuel
              (initial_guess SafeSqrt_approx f0 f1
                 ((0.25 * maximum - ci) / (x1 - x0)))
              0 1 ;;
       let '(t, _, fhat) := r in
       Some (mkSample (x0 + (x1 - x0) * t) (store fval fhat)
               (store pdf (fhat / maximum)))).
Proof.
  apply (SampleCatmullRom2D_reads_in_bounds SafeSqrt_approx grid_nodes1
           grid_nodes2 grid_values grid_cdf 0.5 0.25 0 1).
  - apply increasingb_sound. reflexivity.
  - vm_compute. discriminate.
  - vm_compute. discriminate.
  - reflexivity.
  - reflexivity.
  - reflexivity.
  - reflexivity.
  - vm_compute. discriminate.
  - vm_compute. discriminate.
Defined.

Lemma aref_read (a : list Float) (i : Z) :
  (0 <= i < size a)%Z -> aref a i = Some (read_or_zero a i).
Proof.
  intros H. destruct (aref_in_range a i H) as [v E].
  rewrite (read_or_zero_aref a i v E). exact E.
Qed.

(** The Hermite cubic is linear in its four data. *)
Lemma hermite_combination
    (w0 w1 w2 w3 a0 a1 a2 a3 b0 b1 b2 b3 p0 p1 p2 p3 q0 q1 q2 q3 : Q)
    (f0 f1 d0 d1 t : Q) :
  f0 == a0 * w0 + a1 * w1 + a2 * w2 + a3 * w3 ->
  f1 == b0 * w0 + b1 * w1 + b2 * w2 + b3 * w3 ->
  d0 == w0 * p0 + w1 * p1 + w2 * p2 + w3 * p3 ->
  d1 == w0 * q0 + w1 * q1 + w2 * q2 + w3 * q3 ->
  fhat_horner f0 f1 d0 d1 t ==
    w0 * fhat_horner a0 b0 p0 q0 t + w1 * fhat_horner a1 b1 p1 q1 t +
    w2 * fhat_horner a2 b2 p2 q2 t + w3 * fhat_horner a3 b3 p3 q3 t.
Proof.
  intros H0 H1 H2 H3. unfold fhat_horner. rewrite H0, H1, H2, H3. ring.
Qed.

Lemma slope_combination
    (w0 w1 w2 w3 b0 b1 b2 b3 m0 m1 m2 m3 f1 fm W X : Q) :
  f1 == b0 * w0 + b1 * w1 + b2 * w2 + b3 * w3 ->
  fm == m0 * w0 + m1 * w1 + m2 * w2 + m3 * w3 ->
  W * (f1 - fm) / X ==
    w0 * (W * (b0 - m0) / X) + w1 * (W * (b1 - m1) / X) +
    w2 * (W * (b2 - m2) / X) + w3 * (W * (b3 - m3) / X).
Proof. intros H1 Hm. rewrite H1, Hm. unfold Qdiv. ring. Qed.

Lemma difference_combination
    (w0 w1 w2 w3 a0 a1 a2 a3 b0 b1 b2 b3 f0 f1 : Q) :
  f0 == a0 * w0 + a1 * w1 + a2 * w2 + a3 * w3 ->
  f1 == b0 * w0 + b1 * w1 + b2 * w2 + b3 * w3 ->
  f1 - f0 ==
    w0 * (b0 - a0) + w1 * (b1 - a1) + w2 * (b2 - a2) + w3 * (b3 - a3).
Proof. intros H0 H1. rewrite H0, H1. ring. Qed.

(** X16.  In exact arithmetic, whenever [SampleCatmullRom2D] leaves its
    loop, for well-formed tables and [alpha] inside the domain of [nodes1],
    the returned position lies in [[nodes2.front(), nodes2.back()]], a
    requested [*pdf] is the function value divided by the interpolated
    maximum of the cdf, when that is not 0, and the function value is the
    combination, with the weights that [CatmullRomWeights] gives for
    [alpha], of the values [c j] that [CatmullRom] gives at the returned
    position for the rows [offset + j] of [values]; rows with weight 0 are
    not read. *)
Theorem SampleCatmullRom2D_outputs :
  forall (SafeSqrt : Float -> Float) (nodes1 nodes2 values cdf : list Float)
         (alpha u lo1 hi1 lo2 hi2 : Float),
    increasing nodes1 -> (2 <= size nodes1)%Z ->
    increasing nodes2 -> (2 <= size nodes2)%Z ->
    size values = (size nodes1 * size nodes2)%Z ->
    size cdf = (size nodes1 * size nodes2)%Z ->
    front nodes1 = Some lo1 -> back nodes1 = Some hi1 ->
    front nodes2 = Some lo2 -> back nodes2 = Some hi2 ->
    lo1 <= alpha -> alpha <= hi1 ->
    exists off w0 w1 w2 w3 maximum,
      CatmullRomWeights nodes1 alpha 0 [0; 0; 0; 0]
        = Some (true, off, [w0; w1; w2; w3]) /\
      interpolate [w0; w1; w2; w3] off (size nodes2) cdf (size nodes2 - 1)
        = Some maximum /\
      forall (fuel : nat) (fval pdf : bool) (r : sample),
        SampleCatmullRom2D SafeSqrt fuel nodes1 nodes2 values cdf alpha u
          fval pdf = Some r ->
        lo2 <= s_pos r /\ s_pos r <= hi2 /\
        exists (fh : Float) (c : Z -> Float),
          s_fval r = store fval fh /\
          (~ maximum == 0 -> s_pdf r = store pdf (fh / maximum)) /\
          fh == w0 * c 0%Z + w1 * c 1%Z + w2 * c 2%Z + w3 * c 3%Z /\
          forall j w,
            (0 <= j <= 3)%Z -> aref [w0; w1; w2; w3] j = Some w ->
            ~ w == 0 ->
            exists v,
              CatmullRom nodes2
                (table_row (size nodes2) values (off + j)) (s_pos r)
                = Some v /\
              v == c j.
Proof.
  intros SafeSqrt nodes1 nodes2 values cdf alpha u lo1 hi1 lo2 hi2
         Hinc1 Hn1 Hinc2 Hn2 Hv Hc Hlo1 Hhi1 Hlo2 Hhi2 Hal0 Hal1.
  destruct (SampleCatmullRom2D_run SafeSqrt nodes1 nodes2 values cdf alpha u
              lo1 hi1 Hinc1 Hn1 Hn2 Hv Hc Hlo1 Hhi1 Hal0 Hal1)
    as (off & w0 & w1 & w2 & w3 & maximum & idx & x0 & x1 & f0 & f1 & d0 & d1
        & ci & Hw & Hg & Hmax & _ & Hidx & E0 & E1 & Hf0 & Hf1 & _ & Pd0
        & Pd1 & Heq).
  exists off, w0, w1, w2, w3, maximum.
  split; [exact Hw|]. split; [exact Hmax|].
  intros fuel fval pdf r Hrun. rewrite Heq in Hrun.
  destruct (newton_bisection _ _ _ _ _ _ _ _) as [[[t FF] ff]|] eqn:Eloop;
    [|discriminate].
  unfold bind in Hrun. cbv beta iota in Hrun. injection Hrun as <-.
  cbn [s_pos s_fval s_pdf].
  apply newton_closed_result in Eloop; [|discriminate].
  destruct Eloop as (Ht0 & Ht1 & _ & Hff).
  set (n2 := size nodes2) in *.
  assert (H01 : x0 < x1) by (apply (Hinc2 idx (idx + 1)%Z); auto; lia).
  assert (Hlo0 : lo2 <= x0)
    by (apply (increasing_le nodes2 0 idx); auto; lia).
  assert (Hhi1' : x1 <= hi2).
  { apply (increasing_le nodes2 (idx + 1) (size nodes2 - 1)); auto.
    fold n2. lia. }
  assert (Hp0 : 0 <= (x1 - x0) * t) by nra.
  assert (Hp1 : (x1 - x0) * t <= x1 - x0) by nra.
  split; [lra|]. split; [lra|].
  (* the data of the row splines *)
  set (xm := read_or_zero nodes2 (idx - 1)).
  set (xp := read_or_zero nodes2 (idx + 2)).
  set (A0 := fun j : Z => read_or_zero values ((off + j) * n2 + idx)).
  set (A1 := fun j : Z => read_or_zero values ((off + j) * n2 + (idx + 1))).
  set (Am := fun j : Z => read_or_zero values ((off + j) * n2 + (idx - 1))).
  set (Ap := fun j : Z => read_or_zero values ((off + j) * n2 + (idx + 2))).
  set (D0 := fun j : Z =>
               if (idx >? 0)%Z
               then (x1 - x0) * (A1 j - Am j) / (x1 - xm)
               else A1 j - A0 j).
  set (D1 := fun j : Z =>
               if (idx + 2 <? n2)%Z
               then (x1 - x0) * (Ap j - A0 j) / (xp - x0)
               else A1 j - A0 j).
  exists ff, (fun j => fhat_horner (A0 j) (A1 j) (D0 j) (D1 j) t).
  split; [reflexivity|]. split; [intros _; reflexivity|].
  pose proof (interpolate_sum _ _ _ _ _ _ _ _ _ Hf0) as S0.
  pose proof (interpolate_sum _ _ _ _ _ _ _ _ _ Hf1) as S1.
  split.
  - rewrite Hff. apply hermite_combination.
    + exact S0.
    + exact S1.
    + unfold D0. destruct (idx >? 0)%Z.
      * destruct Pd0 as (fm & xm' & Hfm & Exm & ->).
        pose proof (interpolate_sum _ _ _ _ _ _ _ _ _ Hfm) as Sm.
        assert (xm' = xm)
          by (unfold xm; symmetry; apply read_or_zero_aref; exact Exm).
        subst xm'. apply slope_combination; [exact S1|exact Sm].
      * rewrite Pd0. apply difference_combination; [exact S0|exact S1].
    + unfold D1. destruct (idx + 2 <? n2)%Z.
      * destruct Pd1 as (fp & xp' & Hfp & Exp & ->).
        pose proof (interpolate_sum _ _ _ _ _ _ _ _ _ Hfp) as Sp.
        assert (xp' = xp)
          by (unfold xp; symmetry; apply read_or_zero_aref; exact Exp).
        subst xp'. apply slope_combination; [exact Sp|exact S0].
      * rewrite Pd1. apply difference_combination; [exact S0|exact S1].
  - intros j w Hj Ew Hne. pose proof (Hg j w Hj Ew Hne) as Hk.
    set (row := table_row n2 values (off + j)).
    assert (Hrow : forall i, (0 <= i < n2)%Z ->
              aref row i = Some (read_or_zero values ((off + j) * n2 + i))).
    { intros i Hi. unfold row. rewrite aref_table_row by lia.
      apply aref_read. rewrite Hv. fold n2. nia. }
    assert (Hsz : size nodes2 = size row).
    { unfold row. rewrite size_table_row; [reflexivity|lia|lia|].
      rewrite Hv. fold n2. nia. }
    assert (Hseg : lookup_segment nodes2 row idx
                   = Some (mkSegment x0 x1 (A0 j) (A1 j) (D0 j) (D1 j))).
    { unfold lookup_segment. rewrite E0, E1.
      rewrite (Hrow idx) by lia. rewrite (Hrow (idx + 1)%Z) by lia.
      unfold bind at 1 2 3 4. unfold deriv0, deriv1. fold n2.
      unfold D0, D1.
      destruct (Z.gtb_spec idx 0) as [G0|G0];
        destruct (Z.ltb_spec (idx + 2) n2) as [G1|G1];
        try rewrite (Hrow (idx - 1)%Z) by lia;
        try rewrite (Hrow (idx + 2)%Z) by lia;
        try rewrite (aref_read nodes2 (idx - 1)) by (fold n2; lia);
        try rewrite (aref_read nodes2 (idx + 2)) by (fold n2; lia);
        reflexivity. }
    destruct (CatmullRom_on_segment nodes2 row lo2 hi2 idx _
                (x0 + (x1 - x0) * t) t Hinc2 Hn2 Hsz Hlo2 Hhi2 Hseg)
      as (v & Ev & Hv'); [simpl; lra|exact Ht0|exact Ht1|].
    exists v. split; [exact Ev|]. rewrite Hv'. simpl.
    apply hermite_horner. reflexivity.
Qed.

Lemma SampleCatmullRom2D_outputs_witness :
  exists off w0 w1 w2 w3 maximum,
    CatmullRomWeights grid_nodes1 0.5 0 [0; 0; 0; 0]
      = Some (true, off, [w0; w1; w2; w3]) /\
    interpolate [w0; w1; w2; w3] off (size grid_nodes2) grid_cdf
      (size grid_nodes2 - 1) = Some maximum /\
    forall (fuel : nat) (fval pdf : bool) (r : sample),
      SampleCatmullRom2D SafeSqrt_approx fuel grid_nodes1 grid_nodes2
        grid_values grid_cdf 0.5 0.25 fval pdf = Some r ->
      0 <= s_pos r /\ s_pos r <= 2 /\
      exists (fh : Float) (c : Z -> Float),
        s_fval r = store fval fh /\
        (~ maximum == 0 -> s_pdf r = store pdf (fh / maximum)) /\
        fh == w0 * c 0%Z + w1 * c 1%Z + w2 * c 2%Z + w3 * c 3%Z /\
        forall j w,
          (0 <= j <= 3)%Z -> aref [w0; w1; w2; w3] j = Some w ->
          ~ w == 0 ->
          exists v,
            CatmullRom grid_nodes2
              (table_row (size grid_nodes2) grid_values (off + j))
              (s_pos r) = Some v /\
            v == c j.
Proof.
  apply (SampleCatmullRom2D_outputs SafeSqrt_approx grid_nodes1 grid_nodes2
           grid_values grid_cdf 0.5 0.25 0 1 0 2).
  - apply increasingb_sound. reflexivity.
  - vm_compute. discriminate.
  - apply increasingb_sound. reflexivity.
  - vm_compute. discriminate.
  - reflexivity.
  - reflexivity.
  - reflexivity.
  - reflexivity.
  - reflexivity.
  - reflexivity.
  - vm_compute. discriminate.
  - vm_compute. discriminate.
Defined.

(** ** The buffer of [IntegrateCatmullRom] *)

Lemma set_nth_None (a : list Float) :
  forall (n : nat) (v : Float), (length a <= n)%nat -> set_nth a n v = None.
Proof.
  induction a as [|h tl IH]; intros n v Hn; [reflexivity|].
  destruct n as [|n]; simpl in Hn; [lia|].
  simpl. rewrite IH by lia. reflexivity.
Qed.

Lemma aset_None (a : list Float) (i : Z) (v : Float) :
  (size a <= i)%Z -> aset a i v = None.
Proof.
  intros H. unfold aset, size in *.
  destruct (Z.ltb_spec i 0); [reflexivity|].
  apply set_nth_None. lia.
Qed.

Lemma aset_size (a a' : list Float) (i : Z) (v : Float) :
  aset a i v = Some a' ->
  (0 <= i < size a)%Z /\ size a' = size a /\
  forall j, j <> i -> aref a' j = aref a j.
Proof.
  intros H.
  assert (Hi : (0 <= i < size a)%Z).
  { destruct (Z_lt_le_dec i 0) as [L|L].
    - unfold aset in H. destruct (Z.ltb_spec i 0); [discriminate|lia].
    - destruct (Z_lt_le_dec i (size a)) as [L'|L']; [lia|].
      rewrite aset_None in H by lia. discriminate. }
  split; [exact Hi|].
  destruct (aset_spec a i v Hi) as (a'' & E & L & _ & O).
  assert (a'' = a') by congruence. subst a''. auto.
Qed.

(** The loop writes [cdf[i+1] .. cdf[i+k]] and nothing else. *)
Lemma integrate_loop_frame x values :
  size x = size values ->
  forall (k : nat) (i : Z) (sum : Float) (cdf : list Float),
    (0 <= i)%Z -> (i + Z.of_nat k <= size x - 1)%Z ->
    (i + Z.of_nat k < size cdf)%Z ->
    exists total cdf',
      integrate_loop k x values i sum cdf = Some (total, cdf') /\
      size cdf' = size cdf /\
      forall j, (j <= i \/ i + Z.of_nat k < j)%Z -> aref cdf' j = aref cdf j.
Proof.
  intros Hs. induction k as [|k IH]; intros i sum cdf Hi Hik Hc.
  - exists sum, cdf. simpl. auto.
  - rewrite integrate_loop_step.
    destruct (lookup_segment_defined x values i Hs) as [s Hseg]; [lia|].
    rewrite Hseg. unfold bind at 1. cbv zeta.
    set (sum' := sum + _).
    destruct (aset_spec cdf (i + 1) sum') as (cdf1 & E1 & L1 & _ & O1); [lia|].
    rewrite E1. unfold bind at 1.
    destruct (IH (i + 1)%Z sum' cdf1) as (total & cdf' & Er & Lr & Fr);
      try lia.
    exists total, cdf'. split; [exact Er|]. split; [lia|].
    intros j Hj. rewrite Fr by lia. apply O1. lia.
Qed.

(** A buffer that is too short makes a write of the loop fail. *)
Lemma integrate_loop_overflow x values :
  forall (k : nat) (i : Z) (sum : Float) (cdf : list Float),
    (0 <= i)%Z -> (1 <= k)%nat -> (size cdf <= i + Z.of_nat k)%Z ->
    integrate_loop k x values i sum cdf = None.
Proof.
  induction k as [|k IH]; intros i sum cdf Hi Hk Hc; [lia|].
  rewrite integrate_loop_step.
  destruct (lookup_segment x values i) as [s|]; [|reflexivity].
  unfold bind at 1. cbv zeta.
  set (sum' := sum + _).
  destruct (aset cdf (i + 1) sum') as [cdf1|] eqn:E1; [|reflexivity].
  unfold bind at 1. apply aset_size in E1. destruct E1 as (R & L & _).
  apply IH; lia.
Qed.

(** X17.  [IntegrateCatmullRom] returns exactly when the node and value
    sequences have the same length [n >= 1] and the [cdf] buffer has at
    least [n] entries; it then leaves a buffer of the same length with
    [cdf[0] = 0] and the entries from index [n] on as they were. *)
Theorem IntegrateCatmullRom_buffer :
  forall (x values cdf0 : list Float),
    (IntegrateCatmullRom x values cdf0 <> None <->
     size x = size values /\ (1 <= size x <= size cdf0)%Z) /\
    (forall total cdf,
        IntegrateCatmullRom x values cdf0 = Some (total, cdf) ->
        size cdf = size cdf0 /\ aref cdf 0 = Some 0 /\
        forall j, (size x <= j)%Z -> aref cdf j = aref cdf0 j).
Proof.
  intros x values cdf0.
  unfold IntegrateCatmullRom.
  destruct (Z.eqb_spec (size x) (size values)) as [Hs|Hs]; simpl negb;
    cbv iota.
  2: { split; [split; [congruence|intros [H _]; contradiction]|].
       intros total cdf H. discriminate. }
  destruct (aset cdf0 0 0) as [cdf1|] eqn:E1.
  2: { unfold bind.
       assert (size cdf0 <= 0)%Z.
       { destruct (Z_lt_le_dec 0 (size cdf0)) as [L|L]; [|exact L].
         destruct (aset_spec cdf0 0 0) as (a' & E & _); [lia|]. congruence. }
       split; [split; [congruence|intros [_ H']; lia]|].
       intros total cdf H'. discriminate. }
  unfold bind at 1. unfold bind at 1.
  pose proof (aset_size _ _ _ _ E1) as (R1 & L1 & O1).
  destruct (aset_spec cdf0 0 0 R1) as (a' & E & _ & G1 & _).
  assert (a' = cdf1) by congruence. subst a'.
  destruct (Z.eqb_spec (size x) 0) as [Hz|Hz].
  { split; [split; [congruence|intros [_ H']; lia]|].
    intros total cdf H'. discriminate. }
  assert (Hx : (1 <= size x)%Z) by (unfold size in *; lia).
  destruct (Z_le_gt_dec (size x) (size cdf0)) as [Hle|Hgt].
  - destruct (integrate_loop_frame x values Hs (Z.to_nat (size x - 1)) 0 0 cdf1)
      as (total & cdf & Er & Lr & Fr); try lia.
    rewrite Er. split.
    + split; [auto|discriminate].
    + intros total' cdf' H. injection H as <- <-.
      split; [lia|]. split.
      * rewrite Fr by lia. exact G1.
      * intros j Hj. rewrite Fr by lia. apply O1. lia.
  - rewrite integrate_loop_overflow; try lia.
    split; [split; [congruence|intros [_ H']; lia]|].
    intros total cdf H'. discriminate.
Qed.

(** ** [CatmullRom] is linear in the values *)

Lemma size_combine_values ca cb :
  forall v w, size v = size w -> size (combine_values ca cb v w) = size v.
Proof.
  induction v as [|a v IH]; intros [|b w] H; try reflexivity.
  - unfold size in H. simpl in H. lia.
  - rewrite !size_cons in *. simpl combine_values. rewrite size_cons.
    rewrite IH by lia. reflexivity.
Qed.

Lemma aref_combine_values ca cb :
  forall v w i a b,
    aref v i = Some a -> aref w i = Some b ->
    aref (combine_values ca cb v w) i = Some (ca * a + cb * b).
Proof.
  induction v as [|a0 v IH]; intros [|b0 w] i a b Ea Eb.
  - apply aref_Some_range in Ea. unfold size in Ea. simpl in Ea. lia.
  - apply aref_Some_range in Ea. unfold size in Ea. simpl in Ea. lia.
  - apply aref_Some_range in Eb. unfold size in Eb. simpl in Eb. lia.
  - pose proof (aref_Some_range _ _ _ Ea) as Hi.
    destruct (Z.eq_dec i 0) as [->|Hne].
    + assert (a0 = a) by (unfold aref in Ea; simpl in Ea; congruence).
      assert (b0 = b) by (unfold aref in Eb; simpl in Eb; congruence).
      subst a0 b0. reflexivity.
    + replace i with ((i - 1) + 1)%Z in * by lia.
      simpl combine_values. rewrite aref_cons in * by lia.
      apply IH; assumption.
Qed.

Lemma hermite_linear ca cb f0 f1 d0 d1 g0 g1 e0 e1 h0 h1 k0 k1 t :
  h0 == ca * f0 + cb * g0 -> h1 == ca * f1 + cb * g1 ->
  k0 == ca * d0 + cb * e0 -> k1 == ca * d1 + cb * e1 ->
  Fhat_hermite h0 h1 k0 k1 t ==
    ca * Fhat_hermite f0 f1 d0 d1 t + cb * Fhat_hermite g0 g1 e0 e1 t.
Proof.
  intros H0 H1 H2 H3. unfold Fhat_hermite. cbv zeta.
  rewrite H0, H1, H2, H3. ring.
Qed.

(** What a call of [CatmullRom] that returns has looked up. *)
Lemma CatmullRom_inv nodes values x r :
  CatmullRom nodes values x = Some r ->
  size nodes = size values /\
  exists lo hi,
    front nodes = Some lo /\ back nodes = Some hi /\
    ((in_domain lo hi x = false /\ r = 0) \/
     (in_domain lo hi x = true /\
      exists s,
        lookup_segment nodes values
          (GetIntArrayerval (size nodes) (le_pred nodes x)) = Some s /\
        r = Fhat_hermite (seg_f0 s) (seg_f1 s) (seg_d0 s) (seg_d1 s)
              ((x - seg_x0 s) / (seg_x1 s - seg_x0 s)))).
Proof.
  unfold CatmullRom.
  destruct (Z.eqb_spec (size nodes) (size values)) as [Hs|Hs]; simpl negb;
    cbv iota; [|discriminate].
  destruct (front nodes) as [lo|]; [|discriminate].
  destruct (back nodes) as [hi|]; [|discriminate].
  unfold bind at 1 2. intros H. split; [exact Hs|].
  exists lo, hi. split; [reflexivity|]. split; [reflexivity|].
  destruct (in_domain lo hi x); simpl negb in H; cbv iota in H.
  - right. split; [reflexivity|]. cbv zeta in H.
    unfold lookup_segment.
    destruct (aref nodes _) as [x0|]; [|discriminate].
    destruct (aref nodes _) as [x1|]; [|discriminate].
    destruct (aref values _) as [f0|]; [|discriminate].
    destruct (aref values _) as [f1|]; [|discriminate].
    unfold bind at 1 2 3 4 in H. unfold bind at 1 2 3 4.
    destruct (deriv0 _ _ _ _ _ _ _) as [d0|]; [|discriminate].
    destruct (deriv1 _ _ _ _ _ _ _) as [d1|]; [|discriminate].
    unfold bind in H. injection H as <-.
    unfold bind. eexists. split; [reflexivity|]. reflexivity.
  - left. injection H as <-. auto.
Qed.

(** X18.  In exact arithmetic [CatmullRom] is linear in the values: over
    the same strictly increasing nodes, the interpolant of the table
    [ca * v[i] + cb * w[i]] at [x] is [ca] times the interpolant of [v]
    plus [cb] times the interpolant of [w]. *)
Theorem CatmullRom_linear_in_values :
  forall (nodes v w : list Float) (ca cb x rv rw : Float),
    increasing nodes -> size v = size w ->
    CatmullRom nodes v x = Some rv -> CatmullRom nodes w x = Some rw ->
    exists r,
      CatmullRom nodes (combine_values ca cb v w) x = Some r /\
      r == ca * rv + cb * rw.
Proof.
  intros nodes v w ca cb x rv rw _ Hvw Hv Hw.
  apply CatmullRom_inv in Hv, Hw.
  destruct Hv as (Hsv & lo & hi & Hlo & Hhi & Hv).
  destruct Hw as (Hsw & lo' & hi' & Hlo' & Hhi' & Hw).
  assert (lo' = lo) by congruence. assert (hi' = hi) by congruence.
  subst lo' hi'.
  assert (Hsc : size nodes = size (combine_values ca cb v w))
    by (rewrite size_combine_values; assumption).
  destruct Hv as [[Hout ->]|[Hin (sv & Hsegv & ->)]].
  - destruct Hw as [[_ ->]|[Hin _]]; [|congruence].
    exists 0. split; [|ring].
    unfold CatmullRom. rewrite Hsc, Z.eqb_refl. rewrite <- Hsc.
    simpl negb. cbv iota. rewrite Hlo, Hhi. unfold bind. rewrite Hout.
    reflexivity.
  - destruct Hw as [[Hout _]|[_ (sw & Hsegw & ->)]]; [congruence|].
    set (idx := GetIntArrayerval (size nodes) (le_pred nodes x)) in *.
    pose proof (lookup_segment_inv _ _ _ _ Hsegv)
      as (V0 & V1 & V2 & V3 & V4 & V5).
    pose proof (lookup_segment_inv _ _ _ _ Hsegw)
      as (W0 & W1 & W2 & W3 & W4 & W5).
    assert (X0 : seg_x0 sw = seg_x0 sv) by congruence.
    assert (X1 : seg_x1 sw = seg_x1 sv) by congruence.
    assert (Hseg : exists s,
              lookup_segment nodes (combine_values ca cb v w) idx = Some s /\
              seg_x0 s = seg_x0 sv /\ seg_x1 s = seg_x1 sv /\
              seg_f0 s = ca * seg_f0 sv + cb * seg_f0 sw /\
              seg_f1 s = ca * seg_f1 sv + cb * seg_f1 sw /\
              seg_d0 s == ca * seg_d0 sv + cb * seg_d0 sw /\
              seg_d1 s == ca * seg_d1 sv + cb * seg_d1 sw).
    { unfold lookup_segment. rewrite V0, V1.
      rewrite (aref_combine_values ca cb v w idx _ _ V2 W2).
      rewrite (aref_combine_values ca cb v w (idx + 1) _ _ V3 W3).
      unfold bind at 1 2 3 4.
      apply deriv0_inv in V4, W4. apply deriv1_inv in V5, W5.
      rewrite X0, X1 in W4, W5.
      unfold deriv0, deriv1.
      destruct (idx >? 0)%Z; destruct (idx + 2 <? size nodes)%Z.
      - destruct V4 as (fm & xm & Efm & Exm & Ed0).
        destruct W4 as (gm & xm' & Egm & Exm' & Ee0).
        destruct V5 as (fp & xp & Efp & Exp & Ed1).
        destruct W5 as (gp & xp' & Egp & Exp' & Ee1).
        assert (xm' = xm) by congruence. assert (xp' = xp) by congruence.
        subst xm' xp'.
        rewrite (aref_combine_values ca cb v w _ _ _ Efm Egm), Exm.
        rewrite (aref_combine_values ca cb v w _ _ _ Efp Egp), Exp.
        unfold bind. eexists. split; [reflexivity|]. simpl.
        repeat split; try reflexivity.
        + rewrite Ed0, Ee0. unfold Qdiv. ring.
        + rewrite Ed1, Ee1. unfold Qdiv. ring.
      - destruct V4 as (fm & xm & Efm & Exm & Ed0).
        destruct W4 as (gm & xm' & Egm & Exm' & Ee0).
        assert (xm' = xm) by congruence. subst xm'.
        rewrite (aref_combine_values ca cb v w _ _ _ Efm Egm), Exm.
        unfold bind. eexists. split; [reflexivity|]. simpl.
        repeat split; try reflexivity.
        + rewrite Ed0, Ee0. unfold Qdiv. ring.
        + rewrite V5, W5. ring.
      - destruct V5 as (fp & xp & Efp & Exp & Ed1).
        destruct W5 as (gp & xp' & Egp & Exp' & Ee1).
        assert (xp' = xp) by congruence. subst xp'.
        rewrite (aref_combine_values ca cb v w _ _ _ Efp Egp), Exp.
        unfold bind. eexists. split; [reflexivity|]. simpl.
        repeat split; try reflexivity.
        + rewrite V4, W4. ring.
        + rewrite Ed1, Ee1. unfold Qdiv. ring.
      - unfold bind. eexists. split; [reflexivity|]. simpl.
        repeat split; try reflexivity.
        + rewrite V4, W4. ring.
        + rewrite V5, W5. ring. }
    destruct Hseg as (s & Hseg & S0 & S1 & S2 & S3 & S4 & S5).
    rewrite (CatmullRom_segment nodes _ x lo hi s Hsc Hlo Hhi Hin Hseg).
    eexists. split; [reflexivity|].
    rewrite S0, S1, X0, X1.
    apply hermite_linear.
    + rewrite S2. reflexivity.
    + rewrite S3. reflexivity.
    + exact S4.
    + exact S5.
Qed.

Lemma CatmullRom_linear_in_values_witness :
  exists rv rw r,
    CatmullRom scenario_nodes scenario_values 1.5 = Some rv /\
    CatmullRom scenario_nodes [1; 0; 2; 0] 1.5 = Some rw /\
    CatmullRom scenario_nodes
      (combine_values 2 3 scenario_values [1; 0; 2; 0]) 1.5 = Some r /\
    r == 2 * rv + 3 * rw.
Proof.
  destruct (CatmullRom scenario_nodes scenario_values 1.5) as [rv|] eqn:Ev;
    [|vm_compute in Ev; discriminate].
  destruct (CatmullRom scenario_nodes [1; 0; 2; 0] 1.5) as [rw|] eqn:Ew;
    [|vm_compute in Ew; discriminate].
  destruct (CatmullRom_linear_in_values scenario_nodes scenario_values
              [1; 0; 2; 0] 2 3 1.5 rv rw) as (r & Er & Hr).
  - exact scenario_nodes_increasing.
  - reflexivity.
  - exact Ev.
  - exact Ew.
  - exists rv, rw, r. split; [reflexivity|]. split; [reflexivity|].
    split; [exact Er|exact Hr].
Defined.

(** ** Mirror symmetry of the Fourier sampler *)

Lemma Qltb_ext a a' b b' : a == a' -> b == b' -> Qltb a b = Qltb a' b'.
Proof.
  intros Ha Hb. destruct (Qltb a' b') eqn:E.
  - apply Qltb_lt in E. apply Qltb_lt. lra.
  - apply Qltb_false in E. apply Qltb_false. lra.
Qed.

Lemma in_open_ext a a' b b' t t' :
  a == a' -> b == b' -> t == t' -> in_open a b t = in_open a' b' t'.
Proof.
  intros Ha Hb Ht. unfold in_open.
  rewrite (Qltb_ext a a' t t' Ha Ht), (Qltb_ext t t' b b' Ht Hb). reflexivity.
Qed.

Lemma newton_step_ext t t' r r' f f' :
  t == t' -> r == r' -> f == f' ->
  match newton_step t r f, newton_step t' r' f' with
  | Some p, Some p' => p == p'
  | None, None => True
  | _, _ => False
  end.
Proof.
  intros Ht Hr Hf. unfold newton_step, quotient.
  destruct (Qeq_bool f 0) eqn:E; destruct (Qeq_bool f' 0) eqn:E'; simpl.
  - exact I.
  - apply Qeq_bool_iff in E. apply Qeq_bool_neq in E'. apply E'.
    rewrite <- Hf. exact E.
  - apply Qeq_bool_iff in E'. apply Qeq_bool_neq in E. apply E.
    rewrite Hf. exact E'.
  - rewrite Ht, Hr, Hf. reflexivity.
Qed.

Lemma fallback_open_ext a a' b b' (t t' : option Float) :
  a == a' -> b == b' ->
  match t, t' with
  | Some p, Some p' => p == p'
  | None, None => True
  | _, _ => False
  end ->
  fallback in_open a b t == fallback in_open a' b' t'.
Proof.
  intros Ha Hb Ht. destruct t as [p|]; destruct t' as [p'|]; simpl;
    try contradiction.
  - rewrite (in_open_ext a a' b b' p p' Ha Hb Ht).
    destruct (in_open a' b' p'); simpl negb; cbv iota.
    + exact Ht.
    + rewrite Ha, Hb. reflexivity.
  - rewrite Ha, Hb. reflexivity.
Qed.

Lemma fourier_terms_ext ak recip :
  forall (n : nat) (k : Z) (c c' sp sp' sc sc' cp cp' cc cc' F F' f f' : Float),
    c == c' -> sp == sp' -> sc == sc' -> cp == cp' -> cc == cc' ->
    F == F' -> f == f' ->
    related (fourier_terms n ak recip k c sp sc cp cc F f)
            (fourier_terms n ak recip k c' sp' sc' cp' cc' F' f').
Proof.
  induction n as [|n IH];
    intros k c c' sp sp' sc sc' cp cp' cc cc' F F' f f'
           Hc Hsp Hsc Hcp Hcc HF Hf.
  - simpl. auto.
  - cbn [fourier_terms]. cbv zeta.
    destruct (aref ak k) as [akk|]; [|exact I].
    destruct (aref recip k) as [rk|]; [|exact I].
    unfold bind. apply IH; auto.
    + rewrite Hc, Hsc, Hsp. reflexivity.
    + rewrite Hc, Hcc, Hcp. reflexivity.
    + rewrite HF, Hc, Hsc, Hsp. reflexivity.
    + rewrite Hf, Hc, Hcc, Hcp. reflexivity.
Qed.

Section FourierMirror.

Variable SafeSqrt : Float -> Float.
Variable cos : Float -> Float.
Variable Pi : Float.
Hypothesis cos_ext : forall p q, p == q -> cos p == cos q.
Hypothesis SafeSqrt_ext : forall p q, p == q -> SafeSqrt p == SafeSqrt q.

Lemma fourier_newton_ext ak recip :
  forall (fuel : nat) (u u' phi phi' a a' b b' : Float),
    u == u' -> phi == phi' -> a == a' -> b == b' ->
    related (fourier_newton SafeSqrt cos Pi fuel ak recip u phi a b)
            (fourier_newton SafeSqrt cos Pi fuel ak recip u' phi' a' b').
Proof.
  induction fuel as [|fuel IH]; intros u u' phi phi' a a' b b' Hu Hp Ha Hb.
  - exact I.
  - rewrite !fourier_newton_step.
    destruct (aref ak 0) as [ak0|]; [|exact I].
    pose proof (cos_ext phi phi' Hp) as Hcos.
    assert (Hsin : - SafeSqrt (1 - cos phi * cos phi)
                   == - SafeSqrt (1 - cos phi' * cos phi')).
    { rewrite (SafeSqrt_ext (1 - cos phi * cos phi) (1 - cos phi' * cos phi')).
      - reflexivity.
      - rewrite Hcos. reflexivity. }
    pose proof (fourier_terms_ext ak recip (Z.to_nat (size ak - 1)) 1
                  (cos phi) (cos phi')
                  (- SafeSqrt (1 - cos phi * cos phi))
                  (- SafeSqrt (1 - cos phi' * cos phi'))
                  0 0 (cos phi) (cos phi') 1 1
                  (ak0 * phi) (ak0 * phi') ak0 ak0
                  Hcos Hsin ltac:(reflexivity) Hcos ltac:(reflexivity)
                  ltac:(rewrite Hp; reflexivity) ltac:(reflexivity)) as Ht.
    destruct (fourier_terms _ ak recip 1 (cos phi) _ _ _ _ _ _)
      as [[F f]|];
      destruct (fourier_terms _ ak recip 1 (cos phi') _ _ _ _ _ _)
      as [[F' f']|]; simpl in Ht; try contradiction; [|exact I].
    destruct Ht as [HF Hf]. cbv zeta.
    assert (HG : F - u * ak0 * Pi == F' - u' * ak0 * Pi)
      by (rewrite HF, Hu; reflexivity).
    set (G := F - u * ak0 * Pi) in *. set (G' := F' - u' * ak0 * Pi) in *.
    rewrite (Qltb_ext 0 0 G G' ltac:(reflexivity) HG).
    pose proof (newton_step_ext phi phi' G G' f f' Hp HG Hf) as Hn.
    assert (Hstep : forall a1 a1' b1 b1',
              a1 == a1' -> b1 == b1' ->
              related
                (if Qltb (Qabs G) tolerance || Qltb (b1 - a1) tolerance
                 then Some (phi, f)
                 else fourier_newton SafeSqrt cos Pi fuel ak recip u
                        (fallback in_open a1 b1 (newton_step phi G f))
                        a1 b1)
                (if Qltb (Qabs G') tolerance || Qltb (b1' - a1') tolerance
                 then Some (phi', f')
                 else fourier_newton SafeSqrt cos Pi fuel ak recip u'
                        (fallback in_open a1' b1' (newton_step phi' G' f'))
                        a1' b1')).
    { intros a1 a1' b1 b1' Ha1 Hb1.
      rewrite (Qltb_ext (Qabs G) (Qabs G') tolerance tolerance)
        by (try rewrite HG; reflexivity).
      rewrite (Qltb_ext (b1 - a1) (b1' - a1') tolerance tolerance)
        by (try rewrite Ha1, Hb1; reflexivity).
      destruct (Qltb (Qabs G') tolerance || Qltb (b1' - a1') tolerance).
      - simpl. auto.
      - apply IH; auto. apply fallback_open_ext; assumption. }
    destruct (Qltb 0 G'); apply Hstep; assumption.
Qed.

End FourierMirror.

(** X19.  In exact arithmetic, where the conversions between [double] and
    [Float] change nothing, [SampleFourier] is mirror symmetric.  For
    [v < 0.5], whenever the call with [u = v] returns, the call with
    [u = 1 - v] returns the same value, the same pdf when [ak[0]] is not
    0, and writes the angle [2 Pi - phi] where the first call writes
    [phi].  [cos] and [SafeSqrt] are any functions that give equal results
    on equal numbers. *)
Theorem SampleFourier_mirror :
  forall (SafeSqrt cos : Float -> Float) (Pi Inv2Pi : Float) (fuel : nat)
         (ak recip : list Float) (v : Float) (r : fourier_sample),
    (forall p q, p == q -> cos p == cos q) ->
    (forall p q, p == q -> SafeSqrt p == SafeSqrt q) ->
    v < 0.5 ->
    SampleFourier SafeSqrt cos Pi Inv2Pi fuel ak recip v = Some r ->
    exists r',
      SampleFourier SafeSqrt cos Pi Inv2Pi fuel ak recip (1 - v) = Some r' /\
      fs_f r' == fs_f r /\
      (forall ak0, aref ak 0 = Some ak0 -> ~ ak0 == 0 ->
                   fs_pdf r' == fs_pdf r) /\
      fs_phi r' == 2 * Pi - fs_phi r.
Proof.
  intros SafeSqrt cos Pi Inv2Pi fuel ak recip v r Hcos Hsqrt Hv Hrun.
  unfold SampleFourier in *. cbv zeta in *.
  assert (E0 : Qle_bool 0.5 v = false) by (apply Qle_bool_false; exact Hv).
  assert (E1 : Qle_bool 0.5 (1 - v) = true) by (apply Qle_bool_iff; lra).
  rewrite E0 in Hrun. rewrite E1.
  pose proof (fourier_newton_ext SafeSqrt cos Pi Hcos Hsqrt ak recip fuel
                (v * 2) (1 - 2 * (1 - v - 0.5)) (0.5 * Pi) (0.5 * Pi) 0 0 Pi Pi
                ltac:(ring) ltac:(reflexivity) ltac:(reflexivity)
                ltac:(reflexivity)) as Hrel.
  destruct (fourier_newton SafeSqrt cos Pi fuel ak recip (v * 2) _ _ _)
    as [[phi f]|]; [|discriminate].
  destruct (fourier_newton SafeSqrt cos Pi fuel ak recip
              (1 - 2 * (1 - v - 0.5)) _ _ _) as [[phi' f']|];
    simpl in Hrel; [|contradiction].
  destruct Hrel as [Hphi Hf].
  unfold bind at 1 in Hrun. unfold bind at 1. cbv beta iota in *.
  destruct (aref ak 0) as [ak0|]; [|discriminate].
  unfold bind in *. cbv beta iota in *. injection Hrun as <-.
  eexists. split; [reflexivity|]. cbn [fs_f fs_pdf fs_phi].
  split; [symmetry; exact Hf|]. split.
  - intros _ _ _. rewrite Hf. reflexivity.
  - rewrite Hphi. reflexivity.
Qed.

Lemma cos_approx_ext p q : p == q -> cos_approx p == cos_approx q.
Proof. intros H. unfold cos_approx. cbv zeta. rewrite H. reflexivity. Qed.

Lemma SafeSqrt_reduced_ext p q :
  p == q -> SafeSqrt_reduced p == SafeSqrt_reduced q.
Proof.
  intros H. unfold SafeSqrt_reduced. rewrite (Qred_complete p q H).
  reflexivity.
Qed.

Lemma SampleFourier_mirror_witness :
  exists r r',
    SampleFourier SafeSqrt_reduced cos_approx Pi_approx Inv2Pi_approx 1
      [1; 0.5] [0; 1] 0.32957745 = Some r /\
    SampleFourier SafeSqrt_reduced cos_approx Pi_approx Inv2Pi_approx 1
      [1; 0.5] [0; 1] (1 - 0.32957745) = Some r' /\
    fs_f r' == fs_f r /\
    (forall ak0, aref [1; 0.5] 0 = Some ak0 -> ~ ak0 == 0 ->
                 fs_pdf r' == fs_pdf r) /\
    fs_phi r' == 2 * Pi_approx - fs_phi r.
Proof.
  destruct (SampleFourier SafeSqrt_reduced cos_approx Pi_approx Inv2Pi_approx 1
              [1; 0.5] [0; 1] 0.32957745) as [r|] eqn:E;
    [|vm_compute in E; discriminate].
  destruct (SampleFourier_mirror SafeSqrt_reduced cos_approx Pi_approx
              Inv2Pi_approx 1 [1; 0.5] [0; 1] 0.32957745 r)
    as (r' & Er' & H).
  - exact cos_approx_ext.
  - exact SafeSqrt_reduced_ext.
  - reflexivity.
  - exact E.
  - exists r, r'. split; [reflexivity|]. split; [exact Er'|exact H].
Defined.

(** ** [InvertCatmullRom] reads no array out of bounds *)

Lemma InvertCatmullRom_below fuel x values u vlo :
  front values = Some vlo -> u <= vlo ->
  InvertCatmullRom fuel x values u = front x.
Proof.
  intros Hf Hle. apply Qltb_false in Hle.
  unfold InvertCatmullRom. rewrite Hf. unfold bind at 1.
  rewrite Hle. reflexivity.
Qed.

Lemma InvertCatmullRom_above fuel x values u vlo vhi :
  front values = Some vlo -> back values = Some vhi ->
  vlo < u -> vhi <= u ->
  InvertCatmullRom fuel x values u = back x.
Proof.
  intros Hf Hb Hlt Hge. apply Qltb_lt in Hlt. apply Qltb_false in Hge.
  unfold InvertCatmullRom. rewrite Hf. unfold bind at 1.
  rewrite Hlt. simpl negb. cbv iota. rewrite Hb. unfold bind at 1.
  rewrite Hge. reflexivity.
Qed.

(** X20.  [InvertCatmullRom] reads no array out of bounds.  For node and
    value sequences of the same length [n >= 1], the only way not to return
    is that [u] lies strictly between [values.front()] and [values.back()]
    and the loop on the located segment is still running. *)
Theorem InvertCatmullRom_reads_in_bounds :
  forall (fuel : nat) (x values : list Float) (u : Float),
    (1 <= size x)%Z -> size x = size values ->
    InvertCatmullRom fuel x values u = None ->
    exists vlo vhi s,
      front values = Some vlo /\ back values = Some vhi /\
      vlo < u /\ u < vhi /\
      lookup_segment x values
        (GetIntArrayerval (size values) (le_pred values u)) = Some s /\
      newton_bisection in_open
        (Fhat_hermite (seg_f0 s) (seg_f1 s) (seg_d0 s) (seg_d1 s))
        (fhat_hermite (seg_f0 s) (seg_f1 s) (seg_d0 s) (seg_d1 s))
        u fuel (Some 0.5) 0 1 = None.
Proof.
  intros fuel x values u Hn Hs Hrun.
  destruct (aref_in_range values 0) as [vlo Hvlo]; [lia|].
  destruct (aref_in_range values (size values - 1)) as [vhi Hvhi]; [lia|].
  destruct (aref_in_range x 0) as [lo Hlo]; [lia|].
  destruct (aref_in_range x (size x - 1)) as [hi Hhi]; [lia|].
  destruct (Qlt_le_dec vlo u) as [Hu0|Hu0].
  2: { rewrite (InvertCatmullRom_below fuel x values u vlo Hvlo Hu0) in Hrun.
       unfold front in Hrun. congruence. }
  destruct (Qlt_le_dec u vhi) as [Hu1|Hu1].
  2: { rewrite (InvertCatmullRom_above fuel x values u vlo vhi
                  Hvlo Hvhi Hu0 Hu1) in Hrun.
       unfold back in Hrun. congruence. }
  assert (Hn2 : (2 <= size values)%Z).
  { destruct (Z_le_gt_dec 2 (size values)) as [H|H]; [exact H|].
    assert (size values = 1)%Z by lia.
    replace (size values - 1)%Z with 0%Z in Hvhi by lia.
    assert (vlo = vhi) by congruence. subst vhi. lra. }
  destruct (lookup_segment_defined x values
              (GetIntArrayerval (size values) (le_pred values u)) Hs)
    as [s Hseg].
  { rewrite Hs. apply GetIntArrayerval_range. exact Hn2. }
  rewrite (InvertCatmullRom_unfold fuel x values u vlo vhi s
             Hvlo Hvhi Hu0 Hu1 Hseg) in Hrun.
  exists vlo, vhi, s. split; [exact Hvlo|]. split; [exact Hvhi|].
  split; [exact Hu0|]. split; [exact Hu1|]. split; [exact Hseg|].
  destruct (newton_bisection _ _ _ _ _ _ _ _) as [[[t FF] ff]|];
    [discriminate|reflexivity].
Qed.

Lemma InvertCatmullRom_reads_in_bounds_witness :
  exists vlo vhi s,
    front [0; 1] = Some vlo /\ back [0; 1] = Some vhi /\
    vlo < 0.5 /\ 0.5 < vhi /\
    lookup_segment [0; 1] [0; 1]
      (GetIntArrayerval (size [0; 1]) (le_pred [0; 1] 0.5)) = Some s /\
    newton_bisection in_open
      (Fhat_hermite (seg_f0 s) (seg_f1 s) (seg_d0 s) (seg_d1 s))
      (fhat_hermite (seg_f0 s) (seg_f1 s) (seg_d0 s) (seg_d1 s))
      0.5 0 (Some 0.5) 0 1 = None.
Proof.
  apply (InvertCatmullRom_reads_in_bounds 0%nat [0; 1] [0; 1] 0.5).
  - vm_compute. discriminate.
  - reflexivity.
  - reflexivity.
Defined.

(** ** The derivatives used by the Newton steps *)

(** X21.  In exact arithmetic, where the quotient [1.f / 3.f] of the
    source is [1/3], the derivatives used by the Newton steps are the
    derivatives of the targets.  The [fhat] of [SampleCatmullRom] is the
    derivative in [t] of its [Fhat], and the [fhat] of [InvertCatmullRom]
    the derivative of its [Fhat]: the increment [Fhat(t + h) - Fhat(t)] is
    [h * fhat(t)] plus [h^2] times a polynomial in [h]. *)
Theorem newton_derivatives_exact :
  forall (f0 f1 d0 d1 t : Float),
    (exists c0 c1 c2,
       forall h,
         Fhat_horner f0 f1 d0 d1 (t + h) - Fhat_horner f0 f1 d0 d1 t
         == h * fhat_horner f0 f1 d0 d1 t
            + h * h * (c0 + c1 * h + c2 * (h * h))) /\
    (exists c0 c1,
       forall h,
         Fhat_hermite f0 f1 d0 d1 (t + h) - Fhat_hermite f0 f1 d0 d1 t
         == h * fhat_hermite f0 f1 d0 d1 t + h * h * (c0 + c1 * h)).
Proof.
  intros f0 f1 d0 d1 t. split.
  - exists (0.5 * d0
            + 3 * ((1 / 3) * (-2 * d0 - d1) + f1 - f0) * t
            + 6 * (0.25 * (d0 + d1) + 0.5 * (f0 - f1)) * (t * t)),
           ((1 / 3) * (-2 * d0 - d1) + f1 - f0
            + 4 * (0.25 * (d0 + d1) + 0.5 * (f0 - f1)) * t),
           (0.25 * (d0 + d1) + 0.5 * (f0 - f1)).
    intros h. unfold Fhat_horner, fhat_horner. field.
  - exists (3 * (2 * f0 - 2 * f1 + d0 + d1) * t
            + (-3 * f0 + 3 * f1 - 2 * d0 - d1)),
           (2 * f0 - 2 * f1 + d0 + d1).
    intros h. unfold Fhat_hermite, fhat_hermite. cbv zeta. ring.
Qed.

(** ** The 1D sampler never returns a node *)

(** X22.  In exact arithmetic [SampleCatmullRom] never returns a node.
    Whenever it leaves its loop, the returned position lies strictly inside
    the located segment, hence differs from every node, [x.front()] and
    [x.back()] included. *)
Theorem SampleCatmullRom_strictly_inside :
  forall (SafeSqrt : Float -> Float) (fuel : nat) (x f F : list Float)
         (u : Float) (fval pdf : bool) (r : sample),
    increasing x -> (2 <= size x)%Z ->
    size x = size f -> size f = size F ->
    SampleCatmullRom SafeSqrt fuel x f F u fval pdf = Some r ->
    exists i x0 x1,
      (0 <= i <= size x - 2)%Z /\
      aref x i = Some x0 /\ aref x (i + 1) = Some x1 /\
      x0 < s_pos r /\ s_pos r < x1 /\
      forall j xj, aref x j = Some xj -> ~ s_pos r == xj.
Proof.
  intros SafeSqrt fuel x f F u fval pdf r Hinc Hn Hxf HfF Hrun.
  destruct (aref_in_range F (size F - 1)) as [Fb HFb]; [lia|].
  set (i := GetIntArrayerval (size F) (le_pred F (u * Fb))).
  assert (Hi : (0 <= i <= size x - 2)%Z).
  { rewrite Hxf, HfF. apply GetIntArrayerval_range. lia. }
  destruct (lookup_segment_defined x f i Hxf Hi) as [s Hseg].
  destruct (aref_in_range F i) as [Fi HFi]; [lia|].
  rewrite (SampleCatmullRom_unfold SafeSqrt fuel x f F u fval pdf Fb s Fi
             Hxf HfF HFb Hseg HFi) in Hrun.
  destruct (newton_bisection _ _ _ _ _ _ _ _) as [[[t FF] ff]|] eqn:Eloop;
    [|discriminate].
  simpl in Hrun. injection Hrun as <-. cbn [s_pos].
  apply newton_open_result in Eloop; [|reflexivity].
  destruct Eloop as (Ht0 & Ht1 & _ & _).
  pose proof (lookup_segment_inv x f i s Hseg) as (E0 & E1 & _).
  assert (H01 : seg_x0 s < seg_x1 s)
    by (apply (Hinc i (i + 1)%Z); auto; lia).
  assert (Hp0 : 0 < (seg_x1 s - seg_x0 s) * t) by nra.
  assert (Hp1 : (seg_x1 s - seg_x0 s) * t < seg_x1 s - seg_x0 s) by nra.
  exists i, (seg_x0 s), (seg_x1 s).
  split; [exact Hi|]. split; [exact E0|]. split; [exact E1|].
  split; [lra|]. split; [lra|].
  intros j xj Ej Heq.
  pose proof (aref_Some_range _ _ _ Ej) as Hj.
  destruct (Z_le_gt_dec j i) as [Hle|Hgt].
  - assert (xj <= seg_x0 s) by (apply (increasing_le x j i); auto; lia).
    lra.
  - assert (seg_x1 s <= xj)
      by (apply (increasing_le x (i + 1) j); auto; lia).
    lra.
Qed.

Lemma SampleCatmullRom_strictly_inside_witness :
  exists r i x0 x1,
    SampleCatmullRom SafeSqrt_approx 1 [0; 1] [1; 1] [0; 1] 0.5 true true
      = Some r /\
    (0 <= i <= size [0%Q; 1%Q] - 2)%Z /\
    aref [0; 1] i = Some x0 /\ aref [0; 1] (i + 1) = Some x1 /\
    x0 < s_pos r /\ s_pos r < x1 /\
    forall j xj, aref [0; 1] j = Some xj -> ~ s_pos r == xj.
Proof.
  destruct (SampleCatmullRom SafeSqrt_approx 1 [0; 1] [1; 1] [0; 1] 0.5
              true true) as [r|] eqn:E; [|vm_compute in E; discriminate].
  destruct (SampleCatmullRom_strictly_inside SafeSqrt_approx 1 [0; 1] [1; 1]
              [0; 1] 0.5 true true r) as (i & x0 & x1 & H).
  - apply increasingb_sound. reflexivity.
  - vm_compute. discriminate.
  - reflexivity.
  - reflexivity.
  - exact E.
  - exists r, i, x0, x1. split; [reflexivity|exact H].
Defined.

(** ** What the samplers know at the exit of their loops *)

Section FourierExit.

Variable SafeSqrt : Float -> Float.
Variable cos : Float -> Float.
Variable Pi : Float.

Lemma fourier_newton_residual_step fuel ak recip u phi a b :
  fourier_newton SafeSqrt cos Pi (S fuel) ak recip u phi a b =
  match fourier_residual SafeSqrt cos Pi ak recip u phi with
  | None => None
  | Some (F, f) =>
      let b' := if Qltb 0 F then phi else b in
      let a' := if Qltb 0 F then a else phi in
      if Qltb (Qabs F) tolerance || Qltb (b' - a') tolerance
      then Some (phi, f)
      else
        fourier_newton SafeSqrt cos Pi fuel ak recip u
          (fallback in_open a' b' (newton_step phi F f)) a' b'
  end.
Proof.
  rewrite fourier_newton_step. unfold fourier_residual. cbv zeta.
  destruct (aref ak 0) as [ak0|]; [|reflexivity]. unfold bind.
  destruct (fourier_terms _ _ _ _ _ _ _ _ _ _ _) as [[F f]|]; reflexivity.
Qed.

(** At the [break] the residual at the returned angle is below the
    tolerance, or the angle is an end of a bracket narrower than the
    tolerance; each end of that bracket is the initial one or an angle at
    which the residual had the matching sign. *)
Lemma fourier_newton_residual ak recip u :
  forall (fuel : nat) (phi a b po fo : Float),
    a < phi -> phi < b ->
    fourier_newton SafeSqrt cos Pi fuel ak recip u phi a b = Some (po, fo) ->
    exists Fo a' b',
      fourier_residual SafeSqrt cos Pi ak recip u po = Some (Fo, fo) /\
      a <= a' /\ a' <= po /\ po <= b' /\ b' <= b /\
      (Qabs Fo < tolerance \/ b' - a' < tolerance) /\
      (a' = a \/
       exists Fa fa,
         fourier_residual SafeSqrt cos Pi ak recip u a' = Some (Fa, fa) /\
         Fa <= 0) /\
      (b' = b \/
       exists Fb fb,
         fourier_residual SafeSqrt cos Pi ak recip u b' = Some (Fb, fb) /\
         0 < Fb).
Proof.
  induction fuel as [|fuel IH]; intros phi a b po fo Ha Hb Hrun;
    [discriminate|].
  rewrite fourier_newton_residual_step in Hrun.
  destruct (fourier_residual SafeSqrt cos Pi ak recip u phi)
    as [[F f]|] eqn:Eres; [|discriminate].
  cbv zeta in Hrun.
  destruct (Qltb 0 F) eqn:Es.
  - apply Qltb_lt in Es.
    match type of Hrun with
    | (if ?c then _ else _) = _ => destruct c eqn:Eb
    end.
    + injection Hrun as <- <-. exists F, a, phi.
      split; [exact Eres|].
      split; [lra|]. split; [lra|]. split; [lra|]. split; [lra|].
      split.
      { apply orb_true_iff in Eb. destruct Eb as [E|E]; apply Qltb_lt in E;
          auto. }
      split; [left; reflexivity|]. right. exists F, f. auto.
    + pose proof (open_clamp a phi (newton_step phi F f) Ha) as Hc.
      cbv zeta in Hc. destruct Hc as [C0 C1].
      apply IH in Hrun; [|exact C0|exact C1].
      destruct Hrun as (Fo & a' & b' & R & H1 & H2 & H3 & H4 & H5 & H6 & H7).
      exists Fo, a', b'. split; [exact R|].
      split; [lra|]. split; [lra|]. split; [lra|]. split; [lra|].
      split; [exact H5|]. split; [exact H6|].
      destruct H7 as [->|H7]; [|right; exact H7].
      right. exists F, f. auto.
  - apply Qltb_false in Es.
    match type of Hrun with
    | (if ?c then _ else _) = _ => destruct c eqn:Eb
    end.
    + injection Hrun as <- <-. exists F, phi, b.
      split; [exact Eres|].
      split; [lra|]. split; [lra|]. split; [lra|]. split; [lra|].
      split.
      { apply orb_true_iff in Eb. destruct Eb as [E|E]; apply Qltb_lt in E;
          auto. }
      split; [|left; reflexivity]. right. exists F, f. auto.
    + pose proof (open_clamp phi b (newton_step phi F f) Hb) as Hc.
      cbv zeta in Hc. destruct Hc as [C0 C1].
      apply IH in Hrun; [|exact C0|exact C1].
      destruct Hrun as (Fo & a' & b' & R & H1 & H2 & H3 & H4 & H5 & H6 & H7).
      exists Fo, a', b'. split; [exact R|].
      split; [lra|]. split; [lra|]. split; [lra|]. split; [lra|].
      split; [exact H5|]. split; [|exact H7].
      destruct H6 as [->|H6]; [|right; exact H6].
      right. exists F, f. auto.
Qed.

End FourierExit.

(** X23.  In exact arithmetic, where the conversions between [double] and
    [Float] change nothing: whenever [SampleFourier] returns (with
    [Pi > 0]), the residual [F] that its loop computes at the angle [phi0]
    where it stopped,
    [ak[0] phi + sum_k ak[k] recip[k] sin(k phi) - u ak[0] Pi] with [u]
    folded to one side, is below [1e-6f] in absolute value, or [phi0] lies
    in a bracket [[p, q]] of [[0, Pi]], narrower than [1e-6f], whose lower
    end is 0 or an angle with a residual at most 0 and whose upper end is
    [Pi] or an angle with a positive residual. *)
Theorem SampleFourier_residual :
  forall (SafeSqrt cos : Float -> Float) (Pi Inv2Pi : Float) (fuel : nat)
         (ak recip : list Float) (u : Float) (r : fourier_sample),
    0 < Pi ->
    SampleFourier SafeSqrt cos Pi Inv2Pi fuel ak recip u = Some r ->
    let u' := if Qle_bool 0.5 u then 1 - 2 * (u - 0.5) else u * 2 in
    let residual := fourier_residual SafeSqrt cos Pi ak recip u' in
    exists phi0 F0,
      0 < phi0 /\ phi0 < Pi /\
      (u < 0.5 -> fs_phi r = phi0) /\
      (0.5 <= u -> fs_phi r = 2 * Pi - phi0) /\
      residual phi0 = Some (F0, fs_f r) /\
      (Qabs F0 < tolerance \/
       exists p q,
         0 <= p /\ p <= phi0 /\ phi0 <= q /\ q <= Pi /\
         q - p < tolerance /\
         (p = 0 \/ exists Fp fp, residual p = Some (Fp, fp) /\ Fp <= 0) /\
         (q = Pi \/ exists Fq fq, residual q = Some (Fq, fq) /\ 0 < Fq)).
Proof.
  intros SafeSqrt cos Pi Inv2Pi fuel ak recip u r HPi Hrun u' residual.
  unfold SampleFourier in Hrun. cbv zeta in Hrun. fold u' in Hrun.
  destruct (fourier_newton _ _ _ _ _ _ _ _ _ _) as [[phi f]|] eqn:Eloop;
    [|discriminate].
  unfold bind at 1 in Hrun. cbv beta iota in Hrun.
  destruct (aref ak 0) as [ak0|] eqn:E0; [|discriminate].
  unfold bind in Hrun. cbv beta iota in Hrun. injection Hrun as <-.
  pose proof Eloop as Eloop'.
  apply fourier_newton_exit in Eloop'; try lra.
  destruct Eloop' as (P0 & P1 & _).
  apply fourier_newton_residual in Eloop; try lra.
  destruct Eloop as (Fo & a' & b' & R & H1 & H2 & H3 & H4 & H5 & H6 & H7).
  exists phi, Fo. cbn [fs_f fs_pdf fs_phi].
  split; [exact P0|]. split; [exact P1|].
  split.
  { intros Hu. apply Qle_bool_false in Hu. rewrite Hu. reflexivity. }
  split.
  { intros Hu. apply Qle_bool_iff in Hu. rewrite Hu. reflexivity. }
  split; [exact R|].
  destruct H5 as [H5|H5]; [left; exact H5|].
  right. exists a', b'. repeat split; auto.
Qed.

Lemma SampleFourier_residual_witness :
  exists r,
    SampleFourier SafeSqrt_approx cos_approx Pi_approx Inv2Pi_approx 1
      [1; 0.5] [0; 1] 0.32957745 = Some r /\
    let u' := if Qle_bool 0.5 0.32957745 then 1 - 2 * (0.32957745 - 0.5)
              else 0.32957745 * 2 in
    let residual :=
      fourier_residual SafeSqrt_approx cos_approx Pi_approx [1; 0.5] [0; 1] u'
    in
    exists phi0 F0,
      0 < phi0 /\ phi0 < Pi_approx /\
      (0.32957745 < 0.5 -> fs_phi r = phi0) /\
      (0.5 <= 0.32957745 -> fs_phi r = 2 * Pi_approx - phi0) /\
      residual phi0 = Some (F0, fs_f r) /\
      (Qabs F0 < tolerance \/
       exists p q,
         0 <= p /\ p <= phi0 /\ phi0 <= q /\ q <= Pi_approx /\
         q - p < tolerance /\
         (p = 0 \/ exists Fp fp, residual p = Some (Fp, fp) /\ Fp <= 0) /\
         (q = Pi_approx \/
          exists Fq fq, residual q = Some (Fq, fq) /\ 0 < Fq)).
Proof.
  destruct (SampleFourier SafeSqrt_approx cos_approx Pi_approx Inv2Pi_approx 1
              [1; 0.5] [0; 1] 0.32957745) as [r|] eqn:E;
    [|vm_compute in E; discriminate].
  exists r. split; [reflexivity|].
  apply (SampleFourier_residual SafeSqrt_approx cos_approx Pi_approx
           Inv2Pi_approx 1 [1; 0.5] [0; 1] 0.32957745 r).
  - reflexivity.
  - exact E.
Defined.

(** X24.  In exact arithmetic, whenever [SampleCatmullRom] leaves its
    loop, at the parameter [t] of the located segment, the residual
    [Fhat(t) - u] of the rescaled [u] is below [1e-6f] in absolute value,
    or [t] lies strictly inside a bracket [[a, b]] of [[0, 1]], narrower
    than [1e-6f], whose lower end is 0 or has a negative residual and whose
    upper end is 1 or has a non-negative residual. *)
Theorem SampleCatmullRom_residual :
  forall (SafeSqrt : Float -> Float) (fuel : nat) (x f F : list Float)
         (u : Float) (fval pdf : bool) (Fb : Float) (r : sample),
    increasing x -> (2 <= size x)%Z ->
    size x = size f -> size f = size F -> back F = Some Fb ->
    SampleCatmullRom SafeSqrt fuel x f F u fval pdf = Some r ->
    exists s Fi t,
      let i := GetIntArrayerval (size F) (le_pred F (u * Fb)) in
      let u' := (u * Fb - Fi) / (seg_x1 s - seg_x0 s) in
      let Fh := Fhat_horner (seg_f0 s) (seg_f1 s) (seg_d0 s) (seg_d1 s) in
      lookup_segment x f i = Some s /\ aref F i = Some Fi /\
      s_pos r = seg_x0 s + (seg_x1 s - seg_x0 s) * t /\
      0 < t /\ t < 1 /\
      (Qabs (Fh t - u') < tolerance \/
       exists a b,
         0 <= a /\ a < t /\ t < b /\ b <= 1 /\ b - a < tolerance /\
         (a = 0 \/ Fh a - u' < 0) /\ (b = 1 \/ 0 <= Fh b - u')).
Proof.
  intros SafeSqrt fuel x f F u fval pdf Fb r Hinc Hn Hxf HfF HFb Hrun.
  set (i := GetIntArrayerval (size F) (le_pred F (u * Fb))).
  assert (Hi : (0 <= i <= size x - 2)%Z).
  { rewrite Hxf, HfF. apply GetIntArrayerval_range. lia. }
  destruct (lookup_segment_defined x f i Hxf Hi) as [s Hseg].
  destruct (aref_in_range F i) as [Fi HFi]; [lia|].
  rewrite (SampleCatmullRom_unfold SafeSqrt fuel x f F u fval pdf Fb s Fi
             Hxf HfF HFb Hseg HFi) in Hrun.
  destruct (newton_bisection _ _ _ _ _ _ _ _) as [[[t FF] ff]|] eqn:Eloop;
    [|discriminate].
  simpl in Hrun. injection Hrun as <-. cbn [s_pos].
  apply newton_open_exit in Eloop; [|reflexivity].
  destruct Eloop as (a' & b' & A1 & A2 & A3 & A4 & _ & _ & Hexit & Ha & Hb).
  exists s, Fi, t. cbv zeta. fold i.
  split; [exact Hseg|]. split; [exact HFi|]. split; [reflexivity|].
  split; [lra|]. split; [lra|].
  destruct Hexit as [Hres|Hwid]; [left; exact Hres|].
  right. exists a', b'. repeat split; auto.
Qed.

Lemma SampleCatmullRom_residual_witness :
  exists r s Fi t,
    SampleCatmullRom SafeSqrt_approx 1 [0; 1] [1; 1] [0; 1] 0.5 true true
      = Some r /\
    let i := GetIntArrayerval (size [0%Q; 1%Q]) (le_pred [0; 1] (0.5 * 1)) in
    let u' := (0.5 * 1 - Fi) / (seg_x1 s - seg_x0 s) in
    let Fh := Fhat_horner (seg_f0 s) (seg_f1 s) (seg_d0 s) (seg_d1 s) in
    lookup_segment [0; 1] [1; 1] i = Some s /\ aref [0; 1] i = Some Fi /\
    s_pos r = seg_x0 s + (seg_x1 s - seg_x0 s) * t /\
    0 < t /\ t < 1 /\
    (Qabs (Fh t - u') < tolerance \/
     exists a b,
       0 <= a /\ a < t /\ t < b /\ b <= 1 /\ b - a < tolerance /\
       (a = 0 \/ Fh a - u' < 0) /\ (b = 1 \/ 0 <= Fh b - u')).
Proof.
  destruct (SampleCatmullRom SafeSqrt_approx 1 [0; 1] [1; 1] [0; 1] 0.5
              true true) as [r|] eqn:E; [|vm_compute in E; discriminate].
  destruct (SampleCatmullRom_residual SafeSqrt_approx 1 [0; 1] [1; 1] [0; 1]
              0.5 true true 1 r) as (s & Fi & t & H).
  - apply increasingb_sound. reflexivity.
  - vm_compute. discriminate.
  - reflexivity.
  - reflexivity.
  - reflexivity.
  - exact E.
  - exists r, s, Fi, t. split; [reflexivity|exact H].
Defined.
